(** * SSML parser / serializer and LRU cache: a shallow embedding

    Model of [ssml.py] and [lru.py].  Python [str] values are modelled as
    lists of 8-bit characters ([list ascii], the Latin-1 range of code
    points); the character tables [isspace] and [isword] are Python's tables
    restricted to that range. *)

From Stdlib Require Import Ascii String List Arith Lia Bool.
From stdpp Require Import gmap strings list fin_maps sorting.
Import ListNotations.

Local Open Scope list_scope.

(* ===================================================================== *)
(** * Python string primitives *)
(* ===================================================================== *)

Module Py.

(** A Python [str]. *)
Abbreviation str := (list ascii) (only parsing).

(** String literal. *)
Definition lit (s : string) : str := list_ascii_of_string s.

Definition chr_eqb (a b : ascii) : bool := Ascii.eqb a b.
Arguments chr_eqb !a !b /.

(** [c.isspace()] for code points below 256:
    0x09-0x0D, 0x1C-0x1F, 0x20, 0x85, 0xA0. *)
Definition isspace (c : ascii) : bool :=
  let n := nat_of_ascii c in
  ((9 <=? n) && (n <=? 13)) || ((28 <=? n) && (n <=? 32))
  || (n =? 133) || (n =? 160).

(** The regular-expression class [\w] on [str] patterns (alphanumeric
    code points and underscore) for code points below 256. *)
Definition isword (c : ascii) : bool :=
  let n := nat_of_ascii c in
  ((48 <=? n) && (n <=? 57)) || ((65 <=? n) && (n <=? 90)) || (n =? 95)
  || ((97 <=? n) && (n <=? 122))
  || (n =? 170) || (n =? 178) || (n =? 179) || (n =? 181) || (n =? 185)
  || (n =? 186) || ((188 <=? n) && (n <=? 190))
  || ((192 <=? n) && (n <=? 214)) || ((216 <=? n) && (n <=? 246))
  || ((248 <=? n) && (n <=? 255)).

(** [s.startswith(p)]. *)
Fixpoint startswith (p s : str) : bool :=
  match p, s with
  | [], _ => true
  | a :: p', b :: s' => chr_eqb a b && startswith p' s'
  | _ :: _, [] => false
  end.

(** [s.endswith(c)] for a one-character suffix. *)
Definition endswith_chr (c : ascii) (s : str) : bool :=
  match last s with
  | Some d => chr_eqb c d
  | None => false
  end.

(** [c in s] for a one-character needle. *)
Definition contains (c : ascii) (s : str) : bool := existsb (chr_eqb c) s.

(** [s.lstrip()], [s.rstrip()], [s.strip()]. *)
Fixpoint lstrip (s : str) : str :=
  match s with
  | c :: s' => if isspace c then lstrip s' else s
  | [] => []
  end.

Definition rstrip (s : str) : str := rev (lstrip (rev s)).

Definition strip (s : str) : str := rstrip (lstrip s).

(** [s.split()]: the maximal runs of non-whitespace characters.  [cur] is
    the run being read, in reverse. *)
Fixpoint split_from (cur : str) (s : str) : list str :=
  match s with
  | [] => match cur with [] => [] | _ => [rev cur] end
  | c :: s' =>
      if isspace c
      then match cur with
           | [] => split_from [] s'
           | _ => rev cur :: split_from [] s'
           end
      else split_from (c :: cur) s'
  end.

Definition split (s : str) : list str := split_from [] s.

(** [s.find(c, i)] for a one-character needle; [None] stands for [-1]. *)
Fixpoint find_from (c : ascii) (s : str) (i : nat) : option nat :=
  match s with
  | [] => None
  | d :: s' =>
      match i with
      | S i' => S <$> find_from c s' i'
      | 0 => if chr_eqb c d then Some 0 else S <$> find_from c s' 0
      end
  end.

(** [s[i:j]] for [0 <= i], [0 <= j]. *)
Definition slice (s : str) (i j : nat) : str := take (j - i) (drop i s).

(** [s.replace(old, new)] for non-empty [old]: left-to-right, non-overlapping.
    [skip] counts the characters of a matched [old] still to be stepped
    over. *)
Fixpoint replace_from (old new : str) (skip : nat) (s : str) : str :=
  match s with
  | [] => []
  | c :: s' =>
      match skip with
      | S k => replace_from old new k s'
      | 0 =>
          if startswith old s
          then new ++ replace_from old new (length old - 1) s'
          else c :: replace_from old new 0 s'
      end
  end.

Definition replace (old new : str) (s : str) : str := replace_from old new 0 s.

(** The longest prefix whose characters satisfy [p], and the rest. *)
Fixpoint takewhile (p : ascii -> bool) (s : str) : str :=
  match s with
  | c :: s' => if p c then c :: takewhile p s' else []
  | [] => []
  end.

Fixpoint dropwhile (p : ascii -> bool) (s : str) : str :=
  match s with
  | c :: s' => if p c then dropwhile p s' else s
  | [] => []
  end.

(** [enumerate(s)], counting from [i]. *)
Fixpoint enumerate_from (i : nat) (s : str) : list (nat * ascii) :=
  match s with
  | [] => []
  | c :: s' => (i, c) :: enumerate_from (S i) s'
  end.

(** [s[:-1]]. *)
Definition drop_last (s : str) : str := take (length s - 1) s.

(** [sep.join(l)]. *)
Fixpoint join (sep : str) (l : list str) : str :=
  match l with
  | [] => []
  | [x] => x
  | x :: l' => x ++ sep ++ join sep l'
  end.

End Py.

Import Py.

(* ===================================================================== *)
(** * ssml.py : escaping helpers *)
(* ===================================================================== *)

Definition unescapeXMLChars (text : str) : str :=
  replace (lit "&amp;") (lit "&")
    (replace (lit "&gt;") (lit ">")
       (replace (lit "&lt;") (lit "<") text)).

Definition escapeXMLChars (text : str) : str :=
  replace (lit ">") (lit "&gt;")
    (replace (lit "<") (lit "&lt;")
       (replace (lit "&") (lit "&amp;") text)).

(* ===================================================================== *)
(** * Exceptions *)
(* ===================================================================== *)

(** What a call can raise: [Exception(msg)] from one of the [raise]
    statements, or the built-in [IndexError] of an out-of-range [l[0]]. *)
Inductive exn : Type :=
  | Exception (msg : string)
  | IndexError.

Inductive result (A : Type) : Type :=
  | Ok (a : A)
  | Raise (e : exn).
Arguments Ok {A} a.
Arguments Raise {A} e.

#[global] Instance result_ret : MRet result := fun A a => Ok a.
#[global] Instance result_bind : MBind result := fun A B f m =>
  match m with
  | Ok a => f a
  | Raise e => Raise e
  end.

(** [l[0]]. *)
Definition item0 {A} (l : list A) : result A :=
  match l with
  | x :: _ => Ok x
  | [] => Raise IndexError
  end.

(** The error kinds of the specification, and the kind of each exception
    the parser raises.  [IndexError] has no kind. *)
Inductive ErrorKind : Type :=
  | UnterminatedTag
  | UnmatchedClosingTag
  | MismatchedClosingTag
  | MultipleTopLevelRoots
  | SelfClosingOutsideRoot
  | TextOutsideRoot
  | UnclosedTags
  | MissingRootOrWrongRootName
  | MalformedAttributeSyntax.

Definition error_kind (e : exn) : option ErrorKind :=
  match e with
  | IndexError => None
  | Exception msg =>
      if String.eqb msg "Missing closing angle bracket" then Some UnterminatedTag
      else if String.eqb msg "Unmatched closing tag" then Some UnmatchedClosingTag
      else if String.eqb msg "Mismatched closing tag" then Some MismatchedClosingTag
      else if String.eqb msg "Multiple top-level tags" then Some MultipleTopLevelRoots
      else if String.eqb msg "Self-closing tag outside of root" then Some SelfClosingOutsideRoot
      else if String.eqb msg "Text outside root tag" then Some TextOutsideRoot
      else if String.eqb msg "Unclosed tags remaining" then Some UnclosedTags
      else if String.eqb msg "Root tag must be <speak>" then Some MissingRootOrWrongRootName
      else if String.eqb msg "Single-quoted attributes not allowed" then Some MalformedAttributeSyntax
      else if String.eqb msg "Malformed attribute" then Some MalformedAttributeSyntax
      else None
  end.

(* ===================================================================== *)
(** * ssml.py : data model *)
(* ===================================================================== *)

(** A [Dict[str, str]]: the items in insertion order, keys unique. *)
Definition dict : Type := list (str * str).

(** [d[k] = v]: overwrite in place, or append. *)
Fixpoint dict_set (k v : str) (d : dict) : dict :=
  match d with
  | [] => [(k, v)]
  | (k', v') :: d' =>
      if decide (k = k') then (k, v) :: d' else (k', v') :: dict_set k v d'
  end.

Fixpoint dict_get (k : str) (d : dict) : option str :=
  match d with
  | [] => None
  | (k', v') :: d' => if decide (k = k') then Some v' else dict_get k d'
  end.

(** [d1 == d2] on dicts: same keys with equal values, in any order. *)
Definition dict_eqb (d1 d2 : dict) : bool :=
  (length d1 =? length d2)
  && forallb (fun kv => bool_decide (dict_get kv.1 d2 = Some kv.2)) d1.

Local Unset Elimination Schemes.
Inductive SSMLNode : Type :=
  | SSMLText (text : str)
  | SSMLTag (name : str) (attributes : dict) (children : list SSMLNode).
Local Set Elimination Schemes.

(** An [SSMLTag] object, as held on the parser's stack while its children
    list is still being appended to. *)
Record Tag : Type := mkTag {
  tag_name : str;
  tag_attributes : dict;
  tag_children : list SSMLNode
}.

Definition node_of (t : Tag) : SSMLNode :=
  SSMLTag (tag_name t) (tag_attributes t) (tag_children t).

(** [SSMLTag.__init__]: the name is stripped. *)
Definition new_SSMLTag (name : str) (attributes : dict)
    (children : list SSMLNode) : Tag :=
  mkTag (strip name) attributes children.

(** [t.children.append(child)]. *)
Definition append_child (t : Tag) (child : SSMLNode) : Tag :=
  mkTag (tag_name t) (tag_attributes t) (tag_children t ++ [child]).

(** [SSMLTag.__eq__] and [SSMLText.__eq__]. *)
Fixpoint node_eqb (a b : SSMLNode) {struct a} : bool :=
  match a, b with
  | SSMLText x, SSMLText y => bool_decide (x = y)
  | SSMLTag n1 a1 c1, SSMLTag n2 a2 c2 =>
      bool_decide (n1 = n2) && dict_eqb a1 a2
      && (fix list_eqb (l1 l2 : list SSMLNode) {struct l1} : bool :=
            match l1, l2 with
            | [], [] => true
            | x :: l1', y :: l2' => node_eqb x y && list_eqb l1' l2'
            | _, _ => false
            end) c1 c2
  | _, _ => false
  end.

(* ===================================================================== *)
(** * ssml.py : parse_attributes *)
(* ===================================================================== *)

(** The class [[\w:-]]. *)
Definition iskey (c : ascii) : bool :=
  isword c || chr_eqb c ":" || chr_eqb c "-".

(** The double-quote character. *)
Definition dquote : ascii := "034"%char.

Definition notquote (c : ascii) : bool := negb (chr_eqb c dquote).

(** One match object of [attr_regex]: [span()] and [groups()]. *)
Record Match : Type := mkMatch {
  m_start : nat;
  m_end : nat;
  m_key : str;
  m_val : str
}.

(** The pattern of [attr_regex] tried at the start of [s]: a non-empty run
    of [[\w:-]] (group 1), [\s*], an equals sign, [\s*], a double quote, a
    run of characters other than the double quote (group 2), a double quote.
    The result is the length of the match and its two groups.  The classes
    [[\w:-]] and [\s], the equals sign and the double quote are pairwise
    disjoint, and group 2 excludes the quote that follows it, so a greedy
    run that cannot be continued is not helped by giving characters back:
    each repetition is taken as long as possible. *)
Definition match_here (s : str) : option (nat * str * str) :=
  let key := takewhile iskey s in
  match key with
  | [] => None
  | _ =>
      let s1 := dropwhile iskey s in
      let ws1 := takewhile isspace s1 in
      match dropwhile isspace s1 with
      | "="%char :: s3 =>
          let ws2 := takewhile isspace s3 in
          match dropwhile isspace s3 with
          | "034"%char :: s5 =>
              let val := takewhile notquote s5 in
              match dropwhile notquote s5 with
              | "034"%char :: _ =>
                  Some (length key + length ws1 + 1 + length ws2 + 1
                        + length val + 1, key, val)
              | _ => None
              end
          | _ => None
          end
      | _ => None
      end
  end.

(** [attr_regex.finditer(s)]: the leftmost match, then the leftmost match
    after its end, and so on.  [pos] is the index of the head of [s];
    [skip] counts the characters of the last match still to be stepped
    over. *)
Fixpoint finditer_from (pos skip : nat) (s : str) : list Match :=
  match s with
  | [] => []
  | _ :: s' =>
      match skip with
      | S k => finditer_from (S pos) k s'
      | 0 =>
          match match_here s with
          | Some (n, key, val) =>
              mkMatch pos (pos + n) key val :: finditer_from (S pos) (n - 1) s'
          | None => finditer_from (S pos) 0 s'
          end
      end
  end.

Definition finditer (s : str) : list Match := finditer_from 0 0 s.

(** [covered_spans] after the first loop. *)
Definition covered (matches : list Match) : gset nat :=
  foldl (fun acc m => acc ∪ list_to_set (seq (m_start m) (m_end m - m_start m)))
        ∅ matches.

Definition parse_attributes (tag_str : str) : result dict :=
  if contains "'" tag_str
  then Raise (Exception "Single-quoted attributes not allowed")
  else
    tag_name ← item0 (split (strip tag_str));
    let attr_str := strip (drop (length tag_name) tag_str) in
    match attr_str with
    | [] => Ok []
    | _ =>
        let matches := finditer attr_str in
        let covered_spans := covered matches in
        if existsb (fun ic => negb (isspace ic.2)
                              && negb (bool_decide (ic.1 ∈ covered_spans)))
                   (enumerate_from 0 attr_str)
        then Raise (Exception "Malformed attribute")
        else Ok (foldl (fun attributes m => dict_set (m_key m) (m_val m) attributes)
                       [] matches)
    end.

(* ===================================================================== *)
(** * ssml.py : parseSSML *)
(* ===================================================================== *)

(** The local variables of [parseSSML].  The head of [stack] is the top of
    the Python stack ([stack[-1]]). *)
Record pstate : Type := mkState {
  st_i : nat;
  st_stack : list Tag;
  st_root : option Tag;
  st_seen_top_level : bool
}.

(** The [if ssml[i] == '<'] branch of the loop body, once [j] is found. *)
Definition tag_branch (tag_content : str) (j : nat) (st : pstate)
    : result pstate :=
  if startswith (lit "/") tag_content then
    let closing_name := strip (drop 1 tag_content) in
    match st_stack st with
    | [] => Raise (Exception "Unmatched closing tag")
    | top :: stack =>
        if negb (bool_decide (tag_name top = closing_name))
        then Raise (Exception "Mismatched closing tag")
        else
          match stack with
          | parent :: stack' =>
              Ok (mkState (j + 1) (append_child parent (node_of top) :: stack')
                          (st_root st) (st_seen_top_level st))
          | [] =>
              match st_root st with
              | Some _ => Raise (Exception "Multiple top-level tags")
              | None => Ok (mkState (j + 1) [] (Some top) true)
              end
          end
    end
  else if endswith_chr "/" tag_content then
    name ← item0 (split (strip (drop_last tag_content)));
    attributes ← parse_attributes (drop_last tag_content);
    match st_stack st with
    | [] => Raise (Exception "Self-closing tag outside of root")
    | top :: stack =>
        Ok (mkState (j + 1)
              (append_child top (node_of (new_SSMLTag name attributes [])) :: stack)
              (st_root st) (st_seen_top_level st))
    end
  else
    name ← item0 (split tag_content);
    attributes ← parse_attributes tag_content;
    let new_tag := new_SSMLTag name attributes [] in
    match st_stack st with
    | [] =>
        if st_seen_top_level st
        then Raise (Exception "Multiple top-level tags")
        else Ok (mkState (j + 1) [new_tag] (st_root st) (st_seen_top_level st))
    | _ => Ok (mkState (j + 1) (new_tag :: st_stack st)
                       (st_root st) (st_seen_top_level st))
    end.

(** The [else] branch of the loop body: a text run [ssml[i:j]]. *)
Definition text_branch (text : str) (j : nat) (st : pstate) : result pstate :=
  match strip text with
  | [] => Ok (mkState j (st_stack st) (st_root st) (st_seen_top_level st))
  | _ =>
      match st_stack st with
      | [] => Raise (Exception "Text outside root tag")
      | top :: stack =>
          Ok (mkState j
                (append_child top (SSMLText (unescapeXMLChars text)) :: stack)
                (st_root st) (st_seen_top_level st))
      end
  end.

(** One iteration of [while i < len(ssml)]. *)
Definition loop_body (ssml : str) (st : pstate) : result pstate :=
  let i := st_i st in
  if bool_decide (ssml !! i = Some "<"%char) then
    match find_from ">" ssml i with
    | None => Raise (Exception "Missing closing angle bracket")
    | Some j => tag_branch (strip (slice ssml (i + 1) j)) j st
    end
  else
    let j := match find_from "<" ssml i with
             | None => length ssml
             | Some j => j
             end in
    text_branch (slice ssml i j) j st.

(** The [while] loop; [None] when [fuel] iterations were not enough. *)
Fixpoint while_loop (fuel : nat) (ssml : str) (st : pstate)
    : option (result pstate) :=
  if st_i st <? length ssml then
    match fuel with
    | 0 => None
    | S fuel' =>
        match loop_body ssml st with
        | Ok st' => while_loop fuel' ssml st'
        | Raise e => Some (Raise e)
        end
    end
  else Some (Ok st).

(** The checks after the loop. *)
Definition finish (st : pstate) : result SSMLNode :=
  match st_stack st with
  | _ :: _ => Raise (Exception "Unclosed tags remaining")
  | [] =>
      match st_root st with
      | None => Raise (Exception "Root tag must be <speak>")
      | Some root =>
          if negb (bool_decide (tag_name root = lit "speak"))
          then Raise (Exception "Root tag must be <speak>")
          else Ok (node_of root)
      end
  end.

(** The values of [i], [stack], [root] and [seen_top_level] before the
    loop. *)
Definition init_state : pstate := mkState 0 [] None false.

(** [parseSSML].  Every iteration advances [i], so [len(ssml)] iterations
    are enough ([parseSSML_terminates] below). *)
Definition parseSSML (ssml : str) : option (result SSMLNode) :=
  r ← while_loop (length ssml) ssml init_state;
  Some (r ≫= finish).

(* ===================================================================== *)
(** * ssml.py : ssmlNodeToText *)
(* ===================================================================== *)

(** The f-string [k="v"]. *)
Definition format_attr (kv : str * str) : str :=
  kv.1 ++ lit "=" ++ [dquote] ++ kv.2 ++ [dquote].

Fixpoint ssmlNodeToText (node : SSMLNode) : str :=
  match node with
  | SSMLText text => escapeXMLChars text
  | SSMLTag name attributes children_ =>
      let attrs := join (lit " ") (map format_attr attributes) in
      let children := concat (map ssmlNodeToText children_) in
      match children, attrs with
      | [], [] => lit "<" ++ name ++ lit "/>"
      | [], _ => lit "<" ++ name ++ lit " " ++ attrs ++ lit "/>"
      | _, [] => lit "<" ++ name ++ lit ">" ++ children
                 ++ lit "</" ++ name ++ lit ">"
      | _, _ => lit "<" ++ name ++ lit " " ++ attrs ++ lit ">" ++ children
                ++ lit "</" ++ name ++ lit ">"
      end
  end.

(* ===================================================================== *)
(** * lru.py *)
(* ===================================================================== *)

Module LRU.

(** What the cache's methods can raise: attribute access on [None], and
    [del d[k]] on a missing key. *)
Inductive exn : Type :=
  | AttributeError
  | KeyError.

Inductive outcome (A : Type) : Type :=
  | Val (a : A)
  | Exn (e : exn).
Arguments Val {A} a.
Arguments Exn {A} e.

(** Object references. *)
Definition loc : Type := nat.

Section Model.
Context {K : Type} `{Countable K} {V : Type}.

(** [class Node]; [None] keys and values are those of the two dummies. *)
Record Node : Type := mkNode {
  key : option K;
  value : option V;
  prev : option loc;
  next : option loc
}.

(** An [LRUCache] object together with the [Node] objects it can reach. *)
Record LRUCache : Type := mkLRU {
  capacity : Z;
  cache : gmap K loc;
  head : loc;
  tail : loc;
  heap : gmap loc Node
}.

(** Methods run in a state monad over the object; a raised exception
    leaves the mutations made before it in place. *)
Definition M (A : Type) : Type := LRUCache -> outcome A * LRUCache.

Definition ret {A} (a : A) : M A := fun s => (Val a, s).
Definition raise {A} (e : exn) : M A := fun s => (Exn e, s).
Definition bind {A B} (m : M A) (f : A -> M B) : M B := fun s =>
  match m s with
  | (Val a, s') => f a s'
  | (Exn e, s') => (Exn e, s')
  end.

Notation "x <- m ;; k" := (bind m (fun x => k))
  (at level 100, m at level 99, k at level 200, right associativity).
Notation "m ;;; k" := (bind m (fun _ => k))
  (at level 100, k at level 200, right associativity).

Definition set_heap (h : gmap loc Node) (s : LRUCache) : LRUCache :=
  mkLRU (capacity s) (cache s) (head s) (tail s) h.
Definition set_cache (c : gmap K loc) (s : LRUCache) : LRUCache :=
  mkLRU (capacity s) c (head s) (tail s) (heap s).

(** Dereference [o] for an attribute access [o.attr]. *)
Definition load (o : option loc) : M Node := fun s =>
  match o with
  | None => (Exn AttributeError, s)
  | Some x =>
      match heap s !! x with
      | Some n => (Val n, s)
      | None => (Exn AttributeError, s)
      end
  end.

Definition store (o : option loc) (n : Node) : M unit := fun s =>
  match o with
  | None => (Exn AttributeError, s)
  | Some x => (Val tt, set_heap (<[x := n]> (heap s)) s)
  end.

(** [o.attr] and [o.attr = v]. *)
Definition get_key (o : option loc) : M (option K) := n <- load o ;; ret (key n).
Definition get_value (o : option loc) : M (option V) := n <- load o ;; ret (value n).
Definition get_prev (o : option loc) : M (option loc) := n <- load o ;; ret (prev n).
Definition get_next (o : option loc) : M (option loc) := n <- load o ;; ret (next n).
Definition put_value (o : option loc) (v : option V) : M unit :=
  n <- load o ;; store o (mkNode (key n) v (prev n) (next n)).
Definition put_prev (o : option loc) (p : option loc) : M unit :=
  n <- load o ;; store o (mkNode (key n) (value n) p (next n)).
Definition put_next (o : option loc) (q : option loc) : M unit :=
  n <- load o ;; store o (mkNode (key n) (value n) (prev n) q).

(** [Node(key, value)]: a fresh object. *)
Definition new_Node (k : option K) (v : option V) : M loc := fun s =>
  let x := fresh (dom (heap s)) in
  (Val x, set_heap (<[x := mkNode k v None None]> (heap s)) s).

(** [LRUCache(item_limit)]: object 0 is the dummy head, object 1 the dummy
    tail. *)
Definition new (item_limit : Z) : LRUCache :=
  mkLRU item_limit ∅ 0 1
        (<[1 := mkNode None None (Some 0) None]>
           (<[0 := mkNode None None None (Some 1)]> ∅)).

Definition _remove (node : option loc) : M unit :=
  prev_node <- get_prev node ;;
  next_node <- get_next node ;;
  put_next prev_node next_node ;;;
  put_prev next_node prev_node.

Definition _add_to_front (node : option loc) : M unit := fun s =>
  (first <- get_next (Some (head s)) ;;
   put_next node first ;;;
   put_prev node (Some (head s)) ;;;
   first' <- get_next (Some (head s)) ;;
   put_prev first' node ;;;
   put_next (Some (head s)) node) s.

Definition has (k : K) : M bool := fun s =>
  match cache s !! k with
  | Some node =>
      (_remove (Some node) ;;;
       _add_to_front (Some node) ;;;
       ret true) s
  | None => (Val false, s)
  end.

Definition get (k : K) : M (option V) := fun s =>
  match cache s !! k with
  | Some node =>
      (_remove (Some node) ;;;
       _add_to_front (Some node) ;;;
       get_value (Some node)) s
  | None => (Val None, s)
  end.

(** [del self.cache[k]]. *)
Definition del_cache (k : option K) : M unit := fun s =>
  match k with
  | None => (Exn KeyError, s)
  | Some k' =>
      match cache s !! k' with
      | Some _ => (Val tt, set_cache (delete k' (cache s)) s)
      | None => (Exn KeyError, s)
      end
  end.

Definition set (k : K) (v : V) : M unit := fun s =>
  match cache s !! k with
  | Some node =>
      (put_value (Some node) (Some v) ;;;
       _remove (Some node) ;;;
       _add_to_front (Some node)) s
  | None =>
      ((if (capacity s <=? Z.of_nat (size (cache s)))%Z
        then
          lru <- get_prev (Some (tail s)) ;;
          _remove lru ;;;
          lru_key <- get_key lru ;;
          del_cache lru_key
        else ret tt) ;;;
       new_node <- new_Node (Some k) (Some v) ;;
       (fun s' => (Val tt, set_cache (<[k := new_node]> (cache s')) s')) ;;;
       _add_to_front (Some new_node)) s
  end.

(** ** Observations used to state properties *)

(** The entries from most to least recently used: the nodes met walking
    [next] links from the dummy head to the dummy tail. *)
Fixpoint walk (h : gmap loc Node) (stop : loc) (fuel : nat) (o : option loc)
    : list (K * V) :=
  match fuel, o with
  | S fuel', Some x =>
      if decide (x = stop) then []
      else
        match h !! x with
        | Some n =>
            match key n, value n with
            | Some k, Some v => (k, v) :: walk h stop fuel' (next n)
            | _, _ => walk h stop fuel' (next n)
            end
        | None => []
        end
  | _, _ => []
  end.

Definition entries (s : LRUCache) : list (K * V) :=
  walk (heap s) (tail s) (size (heap s)) (heap s !! head s ≫= next).

(** A call of one of the three public methods ([Put k v] is [set(k, v)]),
    and what it returned. *)
Inductive op : Type :=
  | Has (k : K)
  | Get (k : K)
  | Put (k : K) (v : V).

Inductive retval : Type :=
  | RBool (b : bool)
  | RValue (v : option V)
  | RNone.

Definition op_key (o : op) : K :=
  match o with Has k | Get k | Put k _ => k end.

Definition exec (o : op) : M retval :=
  match o with
  | Has k => b <- has k ;; ret (RBool b)
  | Get k => v <- get k ;; ret (RValue v)
  | Put k v => set k v ;;; ret RNone
  end.

(** A sequence of calls on one object; a caller that catches an exception
    goes on with the object as the failed call left it. *)
Fixpoint run (ops : list op) (s : LRUCache)
    : list (outcome retval) * LRUCache :=
  match ops with
  | [] => ([], s)
  | o :: ops' =>
      let '(r, s') := exec o s in
      let '(rs, s'') := run ops' s' in
      (r :: rs, s'')
  end.

(** The index in [ops] (counted from [i]) of the last call on key [k]. *)
Fixpoint last_use_from (i : nat) (ops : list op) (k : K) : option nat :=
  match ops with
  | [] => None
  | o :: ops' =>
      match last_use_from (S i) ops' k with
      | Some j => Some j
      | None => if decide (op_key o = k) then Some i else None
      end
  end.

Definition last_use (ops : list op) (k : K) : option nat :=
  last_use_from 0 ops k.

End Model.

Arguments Node : clear implicits.
Arguments LRUCache K {_ _} V.
Arguments op : clear implicits.
Arguments retval : clear implicits.

End LRU.

(* ===================================================================== *)
(** * Definitions used in the statements and proofs *)
(* ===================================================================== *)

(** ** Escaping, one character at a time *)

Definition enc_amp (c : ascii) : str :=
  if chr_eqb c "&" then lit "&amp;" else [c].
Definition enc_amp_lt (c : ascii) : str :=
  if chr_eqb c "&" then lit "&amp;"
  else if chr_eqb c "<" then lit "&lt;" else [c].
Definition enc_all (c : ascii) : str :=
  if chr_eqb c "&" then lit "&amp;"
  else if chr_eqb c "<" then lit "&lt;"
  else if chr_eqb c ">" then lit "&gt;" else [c].
Definition dec_lt (c : ascii) : str :=
  if chr_eqb c "&" then lit "&amp;"
  else if chr_eqb c "<" then lit "<"
  else if chr_eqb c ">" then lit "&gt;" else [c].

(** ** Entity decoding as the specification words it *)



(** ** The parser seen from the unread suffix of the input *)

(** The characters before the first [c], and the rest from that [c] on. *)
Definition until (c : ascii) (s : str) : str :=
  takewhile (fun d => negb (chr_eqb c d)) s.
Definition since (c : ascii) (s : str) : str :=
  dropwhile (fun d => negb (chr_eqb c d)) s.

(** [loop_body] in terms of the unread input [rest = ssml[i:]]. *)
Definition sbody (rest : str) (st : pstate) : result pstate :=
  match rest with
  | [] => Ok st
  | c :: after =>
      if bool_decide (c = "<"%char) then
        match since ">" after with
        | [] => Raise (Exception "Missing closing angle bracket")
        | _ :: _ =>
            tag_branch (strip (until ">" after))
                       (st_i st + 1 + length (until ">" after)) st
        end
      else
        text_branch (until "<" rest) (st_i st + length (until "<" rest)) st
  end.

(** What is left unread after one iteration. *)
Definition snext (rest : str) : str :=
  match rest with
  | [] => []
  | c :: after =>
      if bool_decide (c = "<"%char) then drop 1 (since ">" after)
      else since "<" rest
  end.

Fixpoint srun (fuel : nat) (rest : str) (st : pstate)
    : option (result pstate) :=
  match rest with
  | [] => Some (Ok st)
  | _ :: _ =>
      match fuel with
      | 0 => None
      | S fuel' =>
          match sbody rest st with
          | Ok st' => srun fuel' (snext rest) st'
          | Raise e => Some (Raise e)
          end
      end
  end.

(** The loop run to its end on the unread input [rest]: [srun] with enough
    fuel ([srun_enough] shows the default is never taken). *)
Definition sparse (rest : str) (st : pstate) : result pstate :=
  match srun (length rest) rest st with
  | Some r => r
  | None => Ok st
  end.

(** ** Whitespace *)

(** [s] consists only of whitespace: [not s.strip()]. *)
Definition blank (s : str) : bool := forallb isspace s.

(** ** Attribute text and coverage *)

(** [s] is empty or starts with a character outside [p]. *)
Definition stops (p : ascii -> bool) (s : str) : Prop :=
  match s with
  | [] => True
  | c :: _ => p c = false
  end.

Definition nonspace (c : ascii) : bool := negb (isspace c).

(** The first whitespace-delimited token of [s], if there is one. *)
Definition first_token (s : str) : str := takewhile nonspace (lstrip s).

(** The attribute text of a tag interior, as the specification words it:
    the first whitespace-delimited token is the tag name, and what remains
    after that token, trimmed, is the attribute text.  There is none when
    the interior has no token. *)
Definition attr_text (tag_str : str) : option str :=
  if blank tag_str then None
  else Some (strip (dropwhile nonspace (lstrip tag_str))).

(** Index [i] lies in the span of one of the matches. *)
Definition in_some_span (matches : list Match) (i : nat) : Prop :=
  exists m, m ∈ matches /\ m_start m <= i < m_end m.

(** Some non-whitespace character of [attr_str] lies outside the span of
    every match of the attribute pattern. *)
Definition uncovered (attr_str : str) : Prop :=
  exists i c, attr_str !! i = Some c /\ isspace c = false
              /\ ~ in_some_span (finditer attr_str) i.

(** The two conditions under which a tag interior is malformed. *)
Definition malformed (tag_str : str) : Prop :=
  contains "'" tag_str = true
  \/ exists attr_str, attr_text tag_str = Some attr_str /\ uncovered attr_str.

(** A call raised an exception of the given kind. *)
Definition raises {A} (r : result A) (k : ErrorKind) : Prop :=
  exists e, r = Raise e /\ error_kind e = Some k.


(** ** Well-formed trees: what every parse result satisfies *)

Definition notlt (c : ascii) : bool := negb (chr_eqb "<" c).

Definition name_ok (n : str) : Prop :=
  n <> [] /\ forallb nonspace n = true /\ contains ">" n = false
  /\ contains "'" n = false /\ head n <> Some "/"%char.

Definition key_ok (k : str) : Prop := k <> [] /\ forallb iskey k = true.

Definition val_ok (v : str) : Prop :=
  forallb notquote v = true /\ contains ">" v = false
  /\ contains "'" v = false.

Definition attrs_ok (a : dict) : Prop :=
  NoDup (a.*1) /\ Forall (fun kv => key_ok kv.1 /\ val_ok kv.2) a.

Definition is_text (n : SSMLNode) : bool :=
  match n with
  | SSMLText _ => true
  | SSMLTag _ _ _ => false
  end.

Fixpoint no_adjacent_text (cs : list SSMLNode) : Prop :=
  match cs with
  | [] => True
  | x :: cs' =>
      match cs' with
      | y :: _ => (is_text x && is_text y = false) /\ no_adjacent_text cs'
      | [] => True
      end
  end.

Definition ends_with_text (cs : list SSMLNode) : bool :=
  match last cs with
  | Some n => is_text n
  | None => false
  end.

Local Unset Elimination Schemes.
Inductive wf_node : SSMLNode -> Prop :=
  | wf_text text :
      blank text = false -> wf_node (SSMLText text)
  | wf_tag name attributes children :
      name_ok name ->
      attrs_ok attributes ->
      (attributes = [] -> children <> [] -> last name <> Some "/"%char) ->
      Forall wf_node children ->
      no_adjacent_text children ->
      wf_node (SSMLTag name attributes children).
Local Set Elimination Schemes.

Definition wf_frame (t : Tag) : Prop :=
  name_ok (tag_name t)
  /\ attrs_ok (tag_attributes t)
  /\ (tag_attributes t = [] -> last (tag_name t) <> Some "/"%char)
  /\ Forall wf_node (tag_children t)
  /\ no_adjacent_text (tag_children t).

(** The loop invariant of [parseSSML], with [rest] the unread input. *)
Definition inv (rest : str) (st : pstate) : Prop :=
  Forall wf_frame (st_stack st)
  /\ (forall r, st_root st = Some r -> wf_frame r)
  /\ match st_stack st with
     | top :: _ => ends_with_text (tag_children top) = true -> stops notlt rest
     | [] => True
     end.

(** The payloads of all Text nodes of a tree. *)
Fixpoint texts (node : SSMLNode) : list str :=
  match node with
  | SSMLText text => [text]
  | SSMLTag _ _ children => flat_map texts children
  end.

Definition render_list (cs : list SSMLNode) : str :=
  concat (map ssmlNodeToText cs).

Definition render_attrs (a : dict) : str :=
  join (lit " ") (map format_attr a).

(** [attributes[m.key] = m.val], the body of the last loop of
    [parse_attributes]. *)
Definition set_attr (attributes : dict) (m : Match) : dict :=
  dict_set (m_key m) (m_val m) attributes.

(** The matches of the attribute pattern in the rendering of [a] that
    starts at index [pos]. *)
Fixpoint rendered_matches (pos : nat) (a : dict) : list Match :=
  match a with
  | [] => []
  | kv :: a' =>
      mkMatch pos (pos + length (format_attr kv)) kv.1 kv.2
      :: rendered_matches (pos + length (format_attr kv) + 1) a'
  end.

(** ** Rendered tags *)

(** The text between [<] and [>] (or [/>]) of a rendered tag. *)
Definition interior (n : str) (a : dict) : str :=
  match a with
  | [] => n
  | _ :: _ => n ++ lit " " ++ render_attrs a
  end.

(** Parsing the rendering of [x] below an open tag appends [x] to that
    tag's children and goes on with what follows. *)
Definition parses_child (x : SSMLNode) : Prop :=
  forall rest top stk i root seen,
    (is_text x = true -> stops notlt rest) ->
    exists j,
      sparse (ssmlNodeToText x ++ rest) (mkState i (top :: stk) root seen)
      = sparse rest (mkState j (append_child top x :: stk) root seen).

(** The name, attributes and children of every Tag node of a tree, the
    root's first. *)
Fixpoint subtags (node : SSMLNode) : list (str * dict * list SSMLNode) :=
  match node with
  | SSMLText _ => []
  | SSMLTag name attributes children =>
      (name, attributes, children) :: flat_map subtags children
  end.

(** The shape of a match of the attribute pattern at the start of [s], with
    its groups [k] and [v] and its length [n]. *)
Definition pattern_shape (s : str) (n : nat) (k v : str) : Prop :=
  exists ws1 ws2 rest,
    s = k ++ ws1 ++ "="%char :: ws2 ++ dquote :: v ++ dquote :: rest
    /\ key_ok k /\ blank ws1 = true /\ blank ws2 = true
    /\ forallb notquote v = true
    /\ n = length k + length ws1 + 1 + length ws2 + 1 + length v + 1.

(** ** The linked list and the index of the LRU cache *)

Module LRUSpec.
Import LRU.

Section Spec.
Context {K : Type} `{Countable K} {V : Type}.

Abbreviation Heap := (gmap loc (Node K V)).

(** The fields of the object at [x], if there is one. *)
Definition next_of (h : Heap) (x : loc) : option loc := h !! x ≫= next.
Definition prev_of (h : Heap) (x : loc) : option loc := h !! x ≫= prev.
Definition key_of (h : Heap) (x : loc) : option K := h !! x ≫= key.
Definition value_of (h : Heap) (x : loc) : option V := h !! x ≫= value.

(** The heap after [x.next = q], [x.prev = p] and [x.value = v]. *)
Definition upd_next (h : Heap) (x : loc) (q : option loc) : Heap :=
  alter (fun n => mkNode (key n) (value n) (prev n) q) x h.
Definition upd_prev (h : Heap) (x : loc) (p : option loc) : Heap :=
  alter (fun n => mkNode (key n) (value n) p (next n)) x h.
Definition upd_value (h : Heap) (x : loc) (v : option V) : Heap :=
  alter (fun n => mkNode (key n) v (prev n) (next n)) x h.

(** Consecutive objects of [l] point at each other. *)
Fixpoint linked (h : Heap) (l : list loc) : Prop :=
  match l with
  | a :: l' =>
      match l' with
      | b :: _ => next_of h a = Some b /\ prev_of h b = Some a /\ linked h l'
      | [] => True
      end
  | [] => True
  end.

(** The entry stored in the object at [x]. *)
Definition entry_of (h : Heap) (x : loc) : option (K * V) :=
  match key_of h x, value_of h x with
  | Some k, Some v => Some (k, v)
  | _, _ => None
  end.

(** [ls] are the objects between the dummy head and the dummy tail, from
    most to least recently used. *)
Definition chain (s : LRUCache K V) (ls : list loc) : Prop :=
  NoDup (head s :: ls ++ [tail s])
  /\ linked (heap s) (head s :: ls ++ [tail s])
  /\ prev_of (heap s) (head s) = None
  /\ Forall (fun x => is_Some (entry_of (heap s) x)) ls.

(** The dict [cache] indexes exactly the objects of [ls], by their key. *)
Definition indexed (s : LRUCache K V) (ls : list loc) : Prop :=
  (forall k x, cache s !! k = Some x <-> x ∈ ls /\ key_of (heap s) x = Some k)
  /\ size (cache s) = length ls.

Definition repr (s : LRUCache K V) (ls : list loc) : Prop :=
  chain s ls /\ indexed s ls.

(** [s'] differs from [s] in [prev] and [next] links only. *)
Definition same_frame (s s' : LRUCache K V) : Prop :=
  capacity s' = capacity s /\ cache s' = cache s
  /\ head s' = head s /\ tail s' = tail s
  /\ (forall y, key_of (heap s') y = key_of (heap s) y)
  /\ (forall y, value_of (heap s') y = value_of (heap s) y)
  /\ (forall y, is_Some (heap s' !! y) <-> is_Some (heap s !! y)).

(** The entries held by the objects [ls]. *)
Definition entries_of (h : Heap) (ls : list loc) : list (K * V) :=
  omap (entry_of h) ls.

(** ** A list model of the cache: entries from most to least recently
    used *)

Definition remove_key (k : K) (l : list (K * V)) : list (K * V) :=
  filter (fun kv => kv.1 <> k) l.

Fixpoint find_key (k : K) (l : list (K * V)) : option V :=
  match l with
  | [] => None
  | (k', v) :: l' => if decide (k' = k) then Some v else find_key k l'
  end.

Definition touch (k : K) (l : list (K * V)) : list (K * V) :=
  match find_key k l with
  | Some v => (k, v) :: remove_key k l
  | None => l
  end.

Definition model_set (limit : Z) (k : K) (v : V) (l : list (K * V))
    : list (K * V) :=
  match find_key k l with
  | Some _ => (k, v) :: remove_key k l
  | None =>
      if (limit <=? Z.of_nat (length l))%Z
      then (k, v) :: removelast l
      else (k, v) :: l
  end.

Definition model_exec (limit : Z) (o : op K V) (l : list (K * V))
    : retval V * list (K * V) :=
  match o with
  | Has k => (RBool (bool_decide (is_Some (find_key k l))), touch k l)
  | Get k => (RValue (find_key k l), touch k l)
  | Put k v => (RNone, model_set limit k v l)
  end.

Fixpoint model_run (limit : Z) (ops : list (op K V)) (l : list (K * V))
    : list (retval V) * list (K * V) :=
  match ops with
  | [] => ([], l)
  | o :: ops' =>
      let '(r, l') := model_exec limit o l in
      let '(rs, l'') := model_run limit ops' l' in
      (r :: rs, l'')
  end.

(** One more than the index in [ops] of the last call on [k]; zero when
    there is none. *)
Definition stamp (ops : list (op K V)) (k : K) : nat :=
  match last_use ops k with
  | Some i => S i
  | None => 0
  end.

(** The entries of [l] are in the order of their last use in [ops], the
    latest first, and each has been used. *)
Definition recent (ops : list (op K V)) (l : list (K * V)) : Prop :=
  StronglySorted (fun a b => stamp ops b.1 < stamp ops a.1) l
  /\ Forall (fun a => 0 < stamp ops a.1) l.

End Spec.
End LRUSpec.


(* ===================================================================== *)
(** * Escaping: decoding undoes encoding *)
(* ===================================================================== *)

Section Escaping.

Lemma chr_eqb_refl c : chr_eqb c c = true.
Proof. apply Ascii.eqb_refl. Qed.

Lemma chr_eqb_eq a b : chr_eqb a b = true <-> a = b.
Proof. apply Ascii.eqb_eq. Qed.

Lemma chr_eqb_neq a b : chr_eqb a b = false <-> a <> b.
Proof. apply Ascii.eqb_neq. Qed.

(** A replacement acts character by character on a string built character
    by character, when it does so on each block whatever follows. *)
Lemma replace_flat_map old new (f g : ascii -> str) s :
  (forall c rest,
      replace_from old new 0 (f c ++ rest) = g c ++ replace_from old new 0 rest) ->
  replace old new (flat_map f s) = flat_map g s.
Proof.
  intros Hblock. unfold replace.
  induction s as [|c s IH]; simpl.
  - reflexivity.
  - rewrite Hblock, IH. reflexivity.
Qed.

Ltac char_cases c :=
  repeat match goal with
  | |- context [chr_eqb c ?d] =>
      let E := fresh "E" in
      destruct (chr_eqb c d) eqn:E;
      [apply chr_eqb_eq in E; subst c; try reflexivity|]
  end.

Ltac other_char c :=
  repeat match goal with
  | E : chr_eqb c ?d = false |- context [chr_eqb ?d c] =>
      replace (chr_eqb d c) with false
        by (symmetry; apply chr_eqb_neq; apply chr_eqb_neq in E; congruence)
  end.

Lemma flat_map_single (s : str) : flat_map (fun c => [c]) s = s.
Proof. induction s as [|c s IH]; simpl; congruence. Qed.

Lemma escape_flat_map s : escapeXMLChars s = flat_map enc_all s.
Proof.
  unfold escapeXMLChars. rewrite <- (flat_map_single s) at 1.
  rewrite (replace_flat_map (lit "&") (lit "&amp;") (fun c => [c]) enc_amp).
  2:{ intros c rest. unfold enc_amp. char_cases c.
      simpl. other_char c. reflexivity. }
  rewrite (replace_flat_map (lit "<") (lit "&lt;") enc_amp enc_amp_lt).
  2:{ intros c rest. unfold enc_amp, enc_amp_lt. char_cases c.
      simpl. other_char c. simpl. reflexivity. }
  rewrite (replace_flat_map (lit ">") (lit "&gt;") enc_amp_lt enc_all).
  2:{ intros c rest. unfold enc_amp_lt, enc_all. char_cases c.
      simpl. other_char c. simpl. reflexivity. }
  reflexivity.
Qed.

Lemma unescape_escape_flat_map s :
  unescapeXMLChars (flat_map enc_all s) = s.
Proof.
  unfold unescapeXMLChars.
  rewrite (replace_flat_map (lit "&lt;") (lit "<") enc_all dec_lt).
  2:{ intros c rest. unfold enc_all, dec_lt. char_cases c.
      simpl. other_char c. reflexivity. }
  rewrite (replace_flat_map (lit "&gt;") (lit ">") dec_lt enc_amp).
  2:{ intros c rest. unfold dec_lt, enc_amp. char_cases c.
      simpl. other_char c. reflexivity. }
  rewrite (replace_flat_map (lit "&amp;") (lit "&") enc_amp (fun c => [c])).
  2:{ intros c rest. unfold enc_amp. char_cases c.
      simpl. other_char c. reflexivity. }
  apply flat_map_single.
Qed.

(** C5: decoding an encoded text payload gives the payload back. *)
Theorem unescape_escape (s : str) :
  unescapeXMLChars (escapeXMLChars s) = s.
Proof. rewrite escape_flat_map. apply unescape_escape_flat_map. Qed.

(** ** The three replacements of [unescapeXMLChars] decode in one pass *)














End Escaping.

(* ===================================================================== *)
(** * The parser on literal inputs *)
(* ===================================================================== *)

(** C2: on the input [<>] the parser raises [IndexError] (from
    [tag_content.split()[0]] on an empty tag interior), which is none of
    the error kinds of the specification. *)
Theorem parseSSML_empty_tag_IndexError :
  parseSSML (lit "<>") = Some (Raise IndexError)
  /\ parseSSML (lit "<speak>< ></speak>") = Some (Raise IndexError)
  /\ error_kind IndexError = None.
Proof. vm_compute. auto. Qed.

(** C3, as claimed: [<speak/><speak/>] is rejected with the kind
    MultipleTopLevelRoots.  It is not. *)
Lemma two_self_closing_roots_not_multiple :
  ~ (exists e, parseSSML (lit "<speak/><speak/>") = Some (Raise e)
               /\ error_kind e = Some MultipleTopLevelRoots).
Proof.
  intros [e [Hp Hk]]. vm_compute in Hp.
  injection Hp as <-. vm_compute in Hk. discriminate.
Qed.

(** C3, amended: [<speak/><speak/>] is rejected at its first tag, a
    self-closing tag met with an empty stack, with the kind
    SelfClosingOutsideRoot. *)
Theorem two_self_closing_roots_rejected :
  parseSSML (lit "<speak/><speak/>")
    = Some (Raise (Exception "Self-closing tag outside of root"))
  /\ error_kind (Exception "Self-closing tag outside of root")
     = Some SelfClosingOutsideRoot.
Proof. vm_compute. auto. Qed.

(** C7: [<speak><break/></speak>] and [<speak><break></break></speak>]
    both parse, to equal trees: a [speak] root whose only child is a
    [break] tag without attributes or children. *)
Theorem self_closing_equivalence :
  let t := SSMLTag (lit "speak") [] [SSMLTag (lit "break") [] []] in
  parseSSML (lit "<speak><break/></speak>") = Some (Ok t)
  /\ parseSSML (lit "<speak><break></break></speak>") = Some (Ok t)
  /\ node_eqb t t = true.
Proof. vm_compute. auto. Qed.

(* ===================================================================== *)
(** * String primitives *)
(* ===================================================================== *)

Section Strings.

Lemma until_since c s : until c s ++ since c s = s.
Proof.
  unfold until, since. induction s as [|d s IH]; simpl; [reflexivity|].
  destruct (negb (chr_eqb c d)); simpl; congruence.
Qed.

Lemma take_until c s : take (length (until c s)) s = until c s.
Proof.
  rewrite <- (until_since c s) at 2.
  rewrite take_app_length. reflexivity.
Qed.

Lemma drop_until c s : drop (length (until c s)) s = since c s.
Proof.
  rewrite <- (until_since c s) at 2.
  rewrite drop_app_length. reflexivity.
Qed.

Lemma since_head c s d r : since c s = d :: r -> d = c.
Proof.
  unfold since. induction s as [|e s IH]; simpl; [discriminate|].
  destruct (chr_eqb c e) eqn:E; simpl.
  - intros [= <- _]. apply chr_eqb_eq in E. congruence.
  - exact IH.
Qed.

Lemma until_not_in c s : contains c (until c s) = false.
Proof.
  unfold until, contains. induction s as [|e s IH]; simpl; [reflexivity|].
  destruct (chr_eqb c e) eqn:E; simpl; [reflexivity|].
  rewrite E. exact IH.
Qed.

Lemma find_from_0 c s :
  find_from c s 0 =
    match since c s with
    | [] => None
    | _ :: _ => Some (length (until c s))
    end.
Proof.
  unfold until, since. induction s as [|d s IH]; simpl; [reflexivity|].
  destruct (chr_eqb c d) eqn:E; simpl; [reflexivity|].
  rewrite IH. destruct (dropwhile _ s); reflexivity.
Qed.

Lemma find_from_drop c s i :
  i <= length s ->
  find_from c s i = (fun k => i + k) <$> find_from c (drop i s) 0.
Proof.
  revert i. induction s as [|d s IH]; intros [|i] Hi; simpl in *; try lia.
  - reflexivity.
  - destruct (chr_eqb c d); [reflexivity|].
    destruct (find_from c s 0); reflexivity.
  - rewrite IH by lia.
    destruct (find_from c (drop i s) 0); reflexivity.
Qed.

Lemma lookup_drop_head (s : str) i : s !! i = head (drop i s).
Proof.
  revert i. induction s as [|d s IH]; intros [|i]; simpl; auto.
Qed.

Lemma lstrip_nil s : lstrip s = [] <-> blank s = true.
Proof.
  unfold blank. induction s as [|c s IH]; simpl; [tauto|].
  destruct (isspace c); simpl; [exact IH|]. split; discriminate.
Qed.

Lemma lstrip_head s c r : lstrip s = c :: r -> isspace c = false.
Proof.
  induction s as [|d s IH]; simpl; [discriminate|].
  destruct (isspace d) eqn:E; [exact IH|]. intros [= <- _]. exact E.
Qed.

Lemma lstrip_not_space s c :
  isspace c = false -> lstrip (c :: s) = c :: s.
Proof. intros E. simpl. rewrite E. reflexivity. Qed.

Lemma blank_app s t : blank (s ++ t) = blank s && blank t.
Proof. apply forallb_app. Qed.

Lemma blank_rev s : blank (rev s) = blank s.
Proof.
  unfold blank. induction s as [|c s IH]; simpl; [reflexivity|].
  rewrite forallb_app, IH. simpl. rewrite andb_true_r. apply andb_comm.
Qed.

Lemma lstrip_blank_iff s : blank (lstrip s) = blank s.
Proof.
  unfold blank. induction s as [|c s IH]; simpl; [reflexivity|].
  destruct (isspace c) eqn:E; simpl; [exact IH|]. rewrite E. reflexivity.
Qed.

Lemma rstrip_nil s : rstrip s = [] <-> blank s = true.
Proof.
  unfold rstrip. rewrite <- (blank_rev s), <- lstrip_nil.
  split; intros Hs.
  - apply (f_equal (@rev ascii)) in Hs. rewrite rev_involutive in Hs.
    exact Hs.
  - rewrite Hs. reflexivity.
Qed.

Lemma strip_nil s : strip s = [] <-> blank s = true.
Proof. unfold strip. rewrite rstrip_nil. rewrite lstrip_blank_iff. tauto. Qed.

Lemma blank_false s :
  blank s = false <-> exists c, c ∈ s /\ isspace c = false.
Proof.
  unfold blank. induction s as [|c s IH]; simpl.
  - split; [discriminate|]. intros [c [Hc _]]. inversion Hc.
  - destruct (isspace c) eqn:E; simpl.
    + rewrite IH. split; intros [d [Hd Hs]].
      * exists d. split; [right; exact Hd | exact Hs].
      * inversion Hd; subst; [congruence|]. exists d. auto.
    + split; [|reflexivity]. intros _. exists c. split; [left | exact E].
Qed.

Lemma split_from_nil cur s :
  split_from cur s = [] <-> cur = [] /\ blank s = true.
Proof.
  unfold blank. revert cur. induction s as [|c s IH]; intros cur; simpl.
  - destruct cur; [tauto|]. split; [discriminate | intros [[=] _]].
  - destruct (isspace c); simpl.
    + destruct cur; [apply IH|]. split; [discriminate | intros [[=] _]].
    + rewrite IH. split; [intros [[=] _] | intros [_ [=]]].
Qed.

Lemma split_nil s : split s = [] <-> blank s = true.
Proof. unfold split. rewrite split_from_nil. tauto. Qed.

Lemma blank_strip s : blank (strip s) = blank s.
Proof.
  unfold strip, rstrip.
  rewrite blank_rev, lstrip_blank_iff, blank_rev, lstrip_blank_iff.
  reflexivity.
Qed.

Lemma takewhile_dropwhile p s : takewhile p s ++ dropwhile p s = s.
Proof.
  induction s as [|c s IH]; simpl; [reflexivity|].
  destruct (p c); simpl; congruence.
Qed.

Lemma takewhile_forallb p s : forallb p (takewhile p s) = true.
Proof.
  induction s as [|c s IH]; simpl; [reflexivity|].
  destruct (p c) eqn:E; simpl; [rewrite E; exact IH | reflexivity].
Qed.

Lemma dropwhile_stops p s : stops p (dropwhile p s).
Proof.
  induction s as [|c s IH]; simpl; [exact I|].
  destruct (p c) eqn:E; simpl; [exact IH | exact E].
Qed.

Lemma takewhile_app p a b :
  forallb p a = true -> stops p b -> takewhile p (a ++ b) = a.
Proof.
  intros Ha Hb. induction a as [|c a IH]; simpl in *.
  - destruct b as [|d b]; simpl in *; [reflexivity|]. rewrite Hb. reflexivity.
  - apply andb_true_iff in Ha as [Hc Ha]. rewrite Hc, IH by exact Ha.
    reflexivity.
Qed.

Lemma dropwhile_app p a b :
  forallb p a = true -> stops p b -> dropwhile p (a ++ b) = b.
Proof.
  intros Ha Hb. induction a as [|c a IH]; simpl in *.
  - destruct b as [|d b]; simpl in *; [reflexivity|]. rewrite Hb. reflexivity.
  - apply andb_true_iff in Ha as [Hc Ha]. rewrite Hc. exact (IH Ha).
Qed.

Lemma lstrip_dropwhile s : lstrip s = dropwhile isspace s.
Proof.
  induction s as [|c s IH]; simpl; [reflexivity|].
  rewrite IH. reflexivity.
Qed.

Lemma lstrip_stops s : stops isspace (lstrip s).
Proof. rewrite lstrip_dropwhile. apply dropwhile_stops. Qed.

Lemma lstrip_id s : stops isspace s -> lstrip s = s.
Proof. destruct s as [|c s]; simpl; [reflexivity|]. intros ->. reflexivity. Qed.

Lemma lstrip_app_blank w a :
  blank w = true -> stops isspace a -> lstrip (w ++ a) = a.
Proof. rewrite lstrip_dropwhile. apply dropwhile_app. Qed.

Lemma lstrip_decompose s : exists w, s = w ++ lstrip s /\ blank w = true.
Proof.
  exists (takewhile isspace s). rewrite lstrip_dropwhile. split.
  - symmetry. apply takewhile_dropwhile.
  - apply takewhile_forallb.
Qed.

Lemma rstrip_decompose s : exists w, s = rstrip s ++ w /\ blank w = true.
Proof.
  unfold rstrip. destruct (lstrip_decompose (rev s)) as [w [Hw Hb]].
  exists (rev w). split; [|rewrite blank_rev; exact Hb].
  rewrite <- rev_app_distr, <- Hw, rev_involutive. reflexivity.
Qed.

Lemma rstrip_rev_stops s : stops isspace (rev (rstrip s)).
Proof. unfold rstrip. rewrite rev_involutive. apply lstrip_stops. Qed.

Lemma rstrip_app_blank a w :
  blank w = true -> stops isspace (rev a) -> rstrip (a ++ w) = a.
Proof.
  intros Hw Ha. unfold rstrip. rewrite rev_app_distr.
  rewrite lstrip_app_blank; [apply rev_involutive | | exact Ha].
  rewrite blank_rev. exact Hw.
Qed.

Lemma rstrip_id s : stops isspace (rev s) -> rstrip s = s.
Proof.
  intros Hs. rewrite <- (app_nil_r s) at 1.
  apply rstrip_app_blank; [reflexivity | exact Hs].
Qed.

Lemma stops_prefix p a b : a <> [] -> stops p (a ++ b) -> stops p a.
Proof. destruct a; [congruence | simpl; auto]. Qed.

Lemma rstrip_stops s : stops isspace s -> stops isspace (rstrip s).
Proof.
  intros Hs. destruct (rstrip_decompose s) as [w [Hw _]].
  destruct (rstrip s) as [|c r] eqn:E; [exact I|].
  rewrite Hw in Hs. exact Hs.
Qed.

Lemma strip_stops s : stops isspace (strip s).
Proof. unfold strip. apply rstrip_stops, lstrip_stops. Qed.

Lemma strip_rev_stops s : stops isspace (rev (strip s)).
Proof. unfold strip. apply rstrip_rev_stops. Qed.

Lemma strip_id s :
  stops isspace s -> stops isspace (rev s) -> strip s = s.
Proof.
  intros H1 H2. unfold strip. rewrite lstrip_id by exact H1.
  apply rstrip_id, H2.
Qed.

Lemma strip_idem s : strip (strip s) = strip s.
Proof. apply strip_id; [apply strip_stops | apply strip_rev_stops]. Qed.

Lemma strip_decompose s :
  exists w1 w2, s = w1 ++ strip s ++ w2 /\ blank w1 = true /\ blank w2 = true.
Proof.
  destruct (lstrip_decompose s) as [w1 [H1 B1]].
  destruct (rstrip_decompose (lstrip s)) as [w2 [H2 B2]].
  exists w1, w2. unfold strip. rewrite <- H2. auto.
Qed.

Lemma split_from_acc cur s :
  cur <> [] ->
  split_from cur s =
    (rev cur ++ takewhile nonspace s) :: split_from [] (dropwhile nonspace s).
Proof.
  revert cur. induction s as [|c s IH]; intros cur Hc; simpl.
  - destruct cur; [congruence|]. rewrite app_nil_r. reflexivity.
  - unfold nonspace at 1 3. destruct (isspace c) eqn:E; simpl.
    + rewrite E. destruct cur; [congruence|]. rewrite app_nil_r. reflexivity.
    + rewrite IH by discriminate. simpl. rewrite <- app_assoc. reflexivity.
Qed.

Lemma split_from_lstrip s : split_from [] s = split_from [] (lstrip s).
Proof.
  induction s as [|c s IH]; simpl; [reflexivity|].
  destruct (isspace c) eqn:E; [exact IH|]. simpl. rewrite E. reflexivity.
Qed.

Lemma split_first s :
  blank s = false ->
  split s = first_token s :: split (dropwhile nonspace (lstrip s)).
Proof.
  intros Hb. unfold split, first_token. rewrite split_from_lstrip.
  pose proof (lstrip_stops s) as Hs.
  destruct (lstrip s) as [|c r] eqn:E.
  { apply lstrip_nil in E. congruence. }
  simpl in Hs. simpl. unfold nonspace at 1 3. rewrite Hs. simpl.
  rewrite split_from_acc by discriminate. reflexivity.
Qed.

Lemma item0_split s :
  item0 (split s) =
    if blank s then Raise IndexError else Ok (first_token s).
Proof.
  destruct (blank s) eqn:Hb.
  - apply split_nil in Hb. rewrite Hb. reflexivity.
  - rewrite split_first by exact Hb. reflexivity.
Qed.

Lemma first_token_nonspace s : forallb nonspace (first_token s) = true.
Proof. apply takewhile_forallb. Qed.

Lemma first_token_nonempty s : blank s = false -> first_token s <> [].
Proof.
  intros Hb. unfold first_token. pose proof (lstrip_stops s) as Hs.
  destruct (lstrip s) as [|c r] eqn:E.
  { apply lstrip_nil in E. congruence. }
  simpl in *. unfold nonspace at 1. rewrite Hs. discriminate.
Qed.

Lemma first_token_prefix s :
  lstrip s = first_token s ++ dropwhile nonspace (lstrip s).
Proof. symmetry. apply takewhile_dropwhile. Qed.

End Strings.

(* ===================================================================== *)
(** * The loop of parseSSML, seen from the unread input *)
(* ===================================================================== *)

Section Loop.

Lemma tag_branch_i tc j st st' :
  tag_branch tc j st = Ok st' -> st_i st' = j + 1.
Proof.
  unfold tag_branch. intros Hb.
  repeat match type of Hb with
  | (if ?b then _ else _) = _ => destruct b
  | match ?x with _ => _ end = _ => destruct x
  | mbind _ ?m = _ => destruct m; simpl in Hb
  | Raise _ = Ok _ => discriminate
  | Ok _ = Ok _ => injection Hb as <-; reflexivity
  end.
Qed.

Lemma text_branch_i text j st st' :
  text_branch text j st = Ok st' -> st_i st' = j.
Proof.
  unfold text_branch. intros Hb.
  repeat match type of Hb with
  | match ?x with _ => _ end = _ => destruct x
  | Raise _ = Ok _ => discriminate
  | Ok _ = Ok _ => injection Hb as <-; reflexivity
  end.
Qed.

Lemma loop_body_suffix ssml st :
  st_i st < length ssml ->
  loop_body ssml st = sbody (drop (st_i st) ssml) st.
Proof.
  intros Hi. unfold loop_body, sbody.
  rewrite lookup_drop_head.
  destruct (drop (st_i st) ssml) as [|c after] eqn:E.
  { apply (f_equal length) in E. rewrite length_drop in E. simpl in E. lia. }
  assert (Hafter : drop (st_i st + 1) ssml = after).
  { rewrite <- drop_drop, E. reflexivity. }
  simpl head.
  destruct (decide (c = "<"%char)) as [->|Hc].
  - rewrite !bool_decide_eq_true_2 by reflexivity.
    rewrite find_from_drop by lia. rewrite E. simpl find_from.
    rewrite find_from_0.
    destruct (since ">" after) as [|d r] eqn:Es; simpl; [reflexivity|].
    unfold slice. rewrite Hafter.
    replace (st_i st + S (length (until ">" after)) - (st_i st + 1))
      with (length (until ">" after)) by lia.
    rewrite take_until.
    replace (st_i st + S (length (until ">" after)))
      with (st_i st + 1 + length (until ">" after)) by lia.
    reflexivity.
  - rewrite (bool_decide_eq_false_2 (Some c = _)) by (intros [= ?]; done).
    rewrite (bool_decide_eq_false_2 (c = _)) by done.
    rewrite find_from_drop by lia. rewrite E, find_from_0.
    unfold slice. rewrite E.
    destruct (since "<" (c :: after)) as [|d r] eqn:Es; simpl fmap; cbv iota.
    + assert (Hu : until "<" (c :: after) = c :: after).
      { rewrite <- (until_since "<" (c :: after)) at 2.
        rewrite Es, app_nil_r. reflexivity. }
      assert (Hl : length ssml = st_i st + length (c :: after)).
      { rewrite <- E, length_drop. lia. }
      rewrite Hu, Hl.
      replace (st_i st + length (c :: after) - st_i st)
        with (length (c :: after)) by lia.
      rewrite firstn_all. reflexivity.
    + replace (st_i st + length (until "<" (c :: after)) - st_i st)
        with (length (until "<" (c :: after))) by lia.
      rewrite take_until. reflexivity.
Qed.

Lemma snext_suffix rest :
  exists pre, rest = pre ++ snext rest /\ (rest <> [] -> pre <> []).
Proof.
  destruct rest as [|c after]; [exists []; split; [reflexivity | congruence]|].
  unfold snext. destruct (decide (c = "<"%char)) as [->|Hc].
  - rewrite bool_decide_eq_true_2 by reflexivity.
    destruct (since ">" after) as [|d r] eqn:Es.
    + exists ("<"%char :: after). split; [|discriminate].
      simpl. rewrite app_nil_r. reflexivity.
    + exists ("<"%char :: until ">" after ++ [d]). split; [|discriminate].
      simpl. f_equal. rewrite <- app_assoc.
      rewrite <- (until_since ">" after) at 1. rewrite Es. reflexivity.
  - rewrite bool_decide_eq_false_2 by done.
    exists (until "<" (c :: after)). split.
    + symmetry. apply until_since.
    + intros _. unfold until. simpl.
      replace (chr_eqb "<" c) with false; [discriminate|].
      symmetry. apply chr_eqb_neq. congruence.
Qed.

Lemma snext_shorter rest : rest <> [] -> length (snext rest) < length rest.
Proof.
  intros Hne. destruct (snext_suffix rest) as [pre [Hp Hpre]].
  specialize (Hpre Hne). rewrite Hp at 2. rewrite length_app.
  destruct pre; [congruence | simpl; lia].
Qed.

Lemma sbody_i rest st st' :
  sbody rest st = Ok st' ->
  st_i st' + length (snext rest) = st_i st + length rest.
Proof.
  destruct rest as [|c after]; simpl.
  { intros [= <-]. reflexivity. }
  destruct (decide (c = "<"%char)) as [->|Hc].
  - rewrite !bool_decide_eq_true_2 by reflexivity.
    destruct (since ">" after) as [|d r] eqn:Es; [discriminate|].
    intros Hb. apply tag_branch_i in Hb. rewrite Hb. simpl.
    rewrite <- (until_since ">" after) at 2. rewrite Es, length_app.
    rewrite drop_0. change (length (d :: r)) with (S (length r)). lia.
  - rewrite !bool_decide_eq_false_2 by done.
    intros Hb. apply text_branch_i in Hb. rewrite Hb.
    pose proof (f_equal length (until_since "<" (c :: after))) as Hl.
    rewrite length_app in Hl.
    change (length (c :: after)) with (S (length after)) in Hl.
    replace (bool_decide (c = "<"%char)) with false
      by (symmetry; apply bool_decide_eq_false_2; done).
    lia.
Qed.

Lemma while_loop_srun ssml fuel st :
  st_i st <= length ssml ->
  while_loop fuel ssml st = srun fuel (drop (st_i st) ssml) st.
Proof.
  revert st. induction fuel as [|fuel IH]; intros st Hi; simpl.
  - destruct (drop (st_i st) ssml) as [|c r] eqn:E.
    + apply (f_equal length) in E. rewrite length_drop in E. simpl in E.
      replace (st_i st <? length ssml) with false
        by (symmetry; apply Nat.ltb_ge; lia).
      reflexivity.
    + apply (f_equal length) in E. rewrite length_drop in E. simpl in E.
      replace (st_i st <? length ssml) with true
        by (symmetry; apply Nat.ltb_lt; lia).
      reflexivity.
  - destruct (drop (st_i st) ssml) as [|c r] eqn:E.
    + apply (f_equal length) in E. rewrite length_drop in E. simpl in E.
      replace (st_i st <? length ssml) with false
        by (symmetry; apply Nat.ltb_ge; lia).
      reflexivity.
    + assert (Hlt : st_i st < length ssml).
      { apply (f_equal length) in E. rewrite length_drop in E. simpl in E. lia. }
      replace (st_i st <? length ssml) with true
        by (symmetry; apply Nat.ltb_lt; lia).
      rewrite loop_body_suffix by exact Hlt. rewrite E.
      destruct (sbody (c :: r) st) as [st'|e] eqn:Eb; [|reflexivity].
      pose proof (sbody_i _ _ _ Eb) as Hidx.
      destruct (snext_suffix (c :: r)) as [pre [Hp _]].
      assert (Hlen : length (c :: r) = length ssml - st_i st).
      { rewrite <- E, length_drop. reflexivity. }
      assert (Hpl : length (c :: r) = length pre + length (snext (c :: r))).
      { rewrite Hp at 1. apply length_app. }
      rewrite IH by lia. f_equal.
      replace (st_i st') with (st_i st + length pre) by lia.
      rewrite <- drop_drop, E. rewrite Hp at 1.
      apply drop_app_length.
Qed.

Lemma srun_cons fuel c r st :
  srun (S fuel) (c :: r) st =
    match sbody (c :: r) st with
    | Ok st' => srun fuel (snext (c :: r)) st'
    | Raise e => Some (Raise e)
    end.
Proof. reflexivity. Qed.

Lemma srun_fuel_irrelevant n :
  forall rest st f1 f2,
    length rest <= n -> length rest <= f1 -> length rest <= f2 ->
    srun f1 rest st = srun f2 rest st.
Proof.
  induction n as [|n IH]; intros rest st f1 f2 Hn H1 H2.
  - destruct rest; [|simpl in Hn; lia]. destruct f1, f2; reflexivity.
  - destruct rest as [|c r]; [destruct f1, f2; reflexivity|].
    destruct f1 as [|f1]; [simpl in H1; lia|].
    destruct f2 as [|f2]; [simpl in H2; lia|].
    rewrite !srun_cons. destruct (sbody (c :: r) st) as [st'|e]; [|reflexivity].
    pose proof (snext_shorter (c :: r) ltac:(discriminate)) as Hs.
    change (length (c :: r)) with (S (length r)) in *.
    apply IH; lia.
Qed.

Lemma srun_enough n :
  forall rest st fuel,
    length rest <= n -> length rest <= fuel ->
    exists r, srun fuel rest st = Some r.
Proof.
  induction n as [|n IH]; intros rest st fuel Hn Hf.
  - destruct rest; [|simpl in Hn; lia]. destruct fuel; eauto.
  - destruct rest as [|c r]; [destruct fuel; eauto|].
    destruct fuel as [|fuel]; [simpl in Hf; lia|].
    rewrite srun_cons. destruct (sbody (c :: r) st) as [st'|e]; [|eauto].
    pose proof (snext_shorter (c :: r) ltac:(discriminate)) as Hs.
    change (length (c :: r)) with (S (length r)) in *.
    apply IH; lia.
Qed.

Lemma sparse_nil st : sparse [] st = Ok st.
Proof. reflexivity. Qed.

Lemma sparse_cons c r st :
  sparse (c :: r) st =
    match sbody (c :: r) st with
    | Ok st' => sparse (snext (c :: r)) st'
    | Raise e => Raise e
    end.
Proof.
  unfold sparse at 1. change (length (c :: r)) with (S (length r)).
  rewrite srun_cons.
  destruct (sbody (c :: r) st) as [st'|e]; [|reflexivity].
  pose proof (snext_shorter (c :: r) ltac:(discriminate)) as Hs.
  change (length (c :: r)) with (S (length r)) in Hs.
  rewrite (srun_fuel_irrelevant (length r) (snext (c :: r)) st'
             (length r) (length (snext (c :: r)))) by lia.
  unfold sparse.
  destruct (srun_enough (length r) (snext (c :: r)) st'
              (length (snext (c :: r)))) as [x Hx]; try lia.
  rewrite Hx. reflexivity.
Qed.

Lemma parseSSML_sparse ssml :
  parseSSML ssml = Some (sparse ssml init_state ≫= finish).
Proof.
  unfold parseSSML. rewrite while_loop_srun by (simpl; lia).
  change (st_i init_state) with 0. rewrite drop_0. unfold sparse.
  destruct (srun_enough (length ssml) ssml init_state (length ssml))
    as [r Hr]; try lia.
  rewrite Hr. reflexivity.
Qed.

(** The loop of [parseSSML] ends within [len(ssml)] iterations: the parser
    returns or raises on every input. *)
Lemma parseSSML_terminates ssml : exists r, parseSSML ssml = Some r.
Proof. rewrite parseSSML_sparse. eauto. Qed.

End Loop.

(* ===================================================================== *)
(** * Text runs *)
(* ===================================================================== *)

Section TextRuns.



End TextRuns.

(* ===================================================================== *)
(** * parse_attributes: when it rejects *)
(* ===================================================================== *)

Section Attributes.

Lemma elem_of_covered_from (acc : gset nat) matches i :
  i ∈ foldl (fun acc m =>
               acc ∪ list_to_set (seq (m_start m) (m_end m - m_start m)))
            acc matches
  <-> i ∈ acc \/ in_some_span matches i.
Proof.
  revert acc. induction matches as [|m ms IH]; intros acc; simpl.
  - split; [auto|]. intros [Hi|[m [Hm _]]]; [exact Hi | inversion Hm].
  - rewrite IH, elem_of_union, elem_of_list_to_set, elem_of_seq.
    unfold in_some_span. split.
    + intros [[Hi|Hi]|[m' [Hm' Hs]]]; [auto| |].
      * right. exists m. split; [left | lia].
      * right. exists m'. split; [right; exact Hm' | exact Hs].
    + intros [Hi|[m' [Hm' Hs]]]; [auto|].
      inversion Hm'; subst.
      * left. right. lia.
      * right. exists m'. auto.
Qed.

Lemma elem_of_covered matches i :
  i ∈ covered matches <-> in_some_span matches i.
Proof.
  unfold covered. rewrite elem_of_covered_from.
  split; [|auto]. intros [Hi|Hi]; [|exact Hi]. set_solver.
Qed.

Lemma existsb_enumerate (f : nat * ascii -> bool) n s :
  existsb f (enumerate_from n s) = true
  <-> exists i c, s !! i = Some c /\ f (n + i, c) = true.
Proof.
  revert n. induction s as [|d s IH]; intros n; simpl.
  - split; [discriminate|]. intros [i [c [Hi _]]]. destruct i; discriminate.
  - rewrite orb_true_iff, IH. split.
    + intros [Hf|[i [c [Hi Hf]]]].
      * exists 0, d. rewrite Nat.add_0_r. auto.
      * exists (S i), c. rewrite Nat.add_succ_r. auto.
    + intros [[|i] [c [Hi Hf]]].
      * left. injection Hi as ->. rewrite Nat.add_0_r in Hf. exact Hf.
      * right. exists i, c. rewrite Nat.add_succ_r in Hf. auto.
Qed.

Lemma coverage_check attr_str :
  existsb (fun ic => negb (isspace ic.2)
                     && negb (bool_decide (ic.1 ∈ covered (finditer attr_str))))
          (enumerate_from 0 attr_str) = true
  <-> uncovered attr_str.
Proof.
  rewrite existsb_enumerate. unfold uncovered.
  split; intros [i [c [Hi Hf]]]; exists i, c; (split; [exact Hi|]).
  - simpl in Hf. apply andb_true_iff in Hf as [Hs Hc].
    apply negb_true_iff in Hs, Hc. apply bool_decide_eq_false in Hc.
    rewrite elem_of_covered in Hc. auto.
  - destruct Hf as [Hs Hc]. simpl. rewrite Hs. simpl.
    apply negb_true_iff, bool_decide_eq_false.
    rewrite elem_of_covered. exact Hc.
Qed.

Lemma takewhile_app_blank t w :
  blank w = true -> takewhile nonspace (t ++ w) = takewhile nonspace t.
Proof.
  intros Hw. induction t as [|c t IH]; simpl.
  - destruct w as [|d w]; [reflexivity|]. simpl in Hw.
    apply andb_true_iff in Hw as [Hd _]. cbn [takewhile]. unfold nonspace.
    rewrite Hd. reflexivity.
  - destruct (nonspace c); [rewrite IH|]; reflexivity.
Qed.

Lemma first_token_strip s : first_token (strip s) = first_token s.
Proof.
  unfold first_token. rewrite (lstrip_id (strip s)) by apply strip_stops.
  unfold strip. destruct (rstrip_decompose (lstrip s)) as [w [Hw Hb]].
  rewrite Hw at 2. symmetry. apply takewhile_app_blank, Hb.
Qed.

Lemma drop_takewhile p s : drop (length (takewhile p s)) s = dropwhile p s.
Proof.
  rewrite <- (takewhile_dropwhile p s) at 2. apply drop_app_length.
Qed.

(** On a tag interior without leading whitespace, the slice that
    [parse_attributes] takes is what follows the first token. *)
Lemma slice_after_name tag_str :
  stops isspace tag_str ->
  drop (length (first_token (strip tag_str))) tag_str
  = dropwhile nonspace (lstrip tag_str).
Proof.
  intros Hs. rewrite first_token_strip. unfold first_token.
  rewrite (lstrip_id tag_str) by exact Hs. apply drop_takewhile.
Qed.


(** On a tag interior that does not start with whitespace (every interior
    that [parseSSML] passes is one), [parse_attributes] raises one of its
    two MalformedAttributeSyntax exceptions exactly when the interior has a
    single quote or some non-whitespace character of the attribute text
    lies outside the span of every match of the attribute pattern; when
    neither holds and the interior has a name, it returns a mapping. *)
Theorem parse_attributes_malformed (tag_str : str) :
  stops isspace tag_str ->
  (raises (parse_attributes tag_str) MalformedAttributeSyntax
   <-> malformed tag_str)
  /\ (blank tag_str = false ->
      ~ malformed tag_str ->
      exists attributes, parse_attributes tag_str = Ok attributes).
Proof.
  intros Hstop. unfold parse_attributes, malformed, attr_text.
  destruct (contains "'" tag_str) eqn:Eq.
  { split.
    - split; [auto|]. intros _. eexists. split; reflexivity.
    - intros _ Hn. exfalso. apply Hn. auto. }
  rewrite item0_split, blank_strip.
  destruct (blank tag_str) eqn:Eb; simpl.
  { split; [|discriminate]. split.
    - intros [e [[= <-] Hk]]. discriminate.
    - intros [Hq|[a [Ha _]]]; discriminate. }
  rewrite (slice_after_name tag_str Hstop).
  destruct (strip (dropwhile nonspace (lstrip tag_str)))
    as [|c attr_str] eqn:Ea.
  { split; [|eauto]. split.
    - intros [e [[=] _]].
    - intros [Hq|[a [[= <-] [i [d [Hi _]]]]]]; [discriminate|].
      destruct i; discriminate. }
  pose proof (coverage_check (c :: attr_str)) as Hcov.
  destruct (existsb _ (enumerate_from 0 (c :: attr_str))) eqn:Ex.
  - split.
    + split; [|intros _; eexists; split; reflexivity].
      intros _. right. eexists. split; [reflexivity|]. apply Hcov. reflexivity.
    + intros _ Hn. exfalso. apply Hn. right. eexists. split; [reflexivity|].
      apply Hcov. reflexivity.
  - split; [|eauto]. split.
    + intros [e [[=] _]].
    + intros [Hq|[a [[= <-] Hu]]]; [discriminate|].
      apply Hcov in Hu. discriminate.
Qed.

Lemma parse_attributes_malformed_witness :
  (raises (parse_attributes (lit "break time=1s")) MalformedAttributeSyntax
   <-> malformed (lit "break time=1s"))
  /\ (blank (lit "break time=1s") = false ->
      ~ malformed (lit "break time=1s") ->
      exists attributes, parse_attributes (lit "break time=1s") = Ok attributes).
Proof. apply parse_attributes_malformed. reflexivity. Defined.

End Attributes.

(* ===================================================================== *)
(** * The attribute pattern *)
(* ===================================================================== *)

Section Regex.

Lemma iskey_not_special c :
  iskey c = true ->
  isspace c = false /\ c <> "="%char /\ c <> dquote /\ c <> ">"%char
  /\ c <> "'"%char /\ c <> "<"%char /\ c <> "/"%char.
Proof.
  destruct c as [[] [] [] [] [] [] [] []]; vm_compute; intros Hk;
    first [discriminate Hk | repeat split; discriminate].
Qed.

Lemma isspace_not_special c :
  isspace c = true ->
  c <> "="%char /\ c <> dquote /\ c <> ">"%char /\ c <> "<"%char
  /\ c <> "/"%char.
Proof.
  destruct c as [[] [] [] [] [] [] [] []]; vm_compute; intros Hk;
    first [discriminate Hk | repeat split; discriminate].
Qed.

(** A match of the pattern at the start of [s] has the shape the pattern
    describes. *)
Lemma match_here_sound s n k v :
  match_here s = Some (n, k, v) ->
  exists ws1 ws2 rest,
    s = k ++ ws1 ++ "="%char :: ws2 ++ dquote :: v ++ dquote :: rest
    /\ key_ok k /\ blank ws1 = true /\ blank ws2 = true
    /\ forallb notquote v = true
    /\ n = length k + length ws1 + 1 + length ws2 + 1 + length v + 1.
Proof.
  unfold match_here. intros Hm.
  pose proof (takewhile_dropwhile iskey s) as H1.
  pose proof (takewhile_forallb iskey s) as K1.
  destruct (takewhile iskey s) as [|k0 k'] eqn:Ek; [discriminate|].
  pose proof (takewhile_dropwhile isspace (dropwhile iskey s)) as H2.
  pose proof (takewhile_forallb isspace (dropwhile iskey s)) as K2.
  destruct (dropwhile isspace (dropwhile iskey s)) as [|e s3] eqn:E2;
    [discriminate|].
  destruct (Ascii.eqb_spec e "="%char) as [->|Hne].
  2:{ destruct e as [[] [] [] [] [] [] [] []]; try discriminate Hm.
      exfalso. apply Hne. reflexivity. }
  pose proof (takewhile_dropwhile isspace s3) as H3.
  pose proof (takewhile_forallb isspace s3) as K3.
  destruct (dropwhile isspace s3) as [|q s5] eqn:E3; [discriminate|].
  destruct (Ascii.eqb_spec q dquote) as [->|Hnq].
  2:{ destruct q as [[] [] [] [] [] [] [] []]; try discriminate Hm.
      exfalso. apply Hnq. reflexivity. }
  pose proof (takewhile_dropwhile notquote s5) as H4.
  pose proof (takewhile_forallb notquote s5) as K4.
  destruct (dropwhile notquote s5) as [|q' rest] eqn:E4; [discriminate|].
  destruct (Ascii.eqb_spec q' dquote) as [->|Hnq].
  2:{ destruct q' as [[] [] [] [] [] [] [] []]; try discriminate Hm.
      exfalso. apply Hnq. reflexivity. }
  injection Hm as <- <- <-.
  exists (takewhile isspace (dropwhile iskey s)), (takewhile isspace s3), rest.
  split; [|split; [|split; [|split; [|split]]]].
  - rewrite H4, H3, H2. exact (eq_sym H1).
  - split; [discriminate | exact K1].
  - exact K2.
  - exact K3.
  - exact K4.
  - reflexivity.
Qed.

(** Conversely, a string of that shape matches, with these groups: the
    match at a position is unique. *)
Lemma match_here_complete k ws1 ws2 v rest :
  key_ok k -> blank ws1 = true -> blank ws2 = true ->
  forallb notquote v = true ->
  match_here (k ++ ws1 ++ "="%char :: ws2 ++ dquote :: v ++ dquote :: rest)
  = Some (length k + length ws1 + 1 + length ws2 + 1 + length v + 1, k, v).
Proof.
  intros [Hk0 Hk] Hw1 Hw2 Hv. unfold match_here.
  assert (S1 : stops iskey (ws1 ++ "="%char :: ws2 ++ dquote :: v ++ dquote :: rest)).
  { destruct ws1 as [|w ws1]; simpl; [reflexivity|].
    simpl in Hw1. apply andb_true_iff in Hw1 as [Hw _].
    destruct (iskey w) eqn:E; [|reflexivity].
    apply iskey_not_special in E as [E _]. congruence. }
  rewrite takewhile_app, dropwhile_app by assumption.
  destruct k as [|k0 k']; [congruence|].
  assert (S2 : stops isspace ("="%char :: ws2 ++ dquote :: v ++ dquote :: rest))
    by reflexivity.
  rewrite takewhile_app, dropwhile_app by assumption.
  assert (S3 : stops isspace (dquote :: v ++ dquote :: rest)) by reflexivity.
  rewrite takewhile_app, dropwhile_app by assumption.
  assert (S4 : stops notquote (dquote :: rest)) by reflexivity.
  rewrite takewhile_app, dropwhile_app by assumption.
  reflexivity.
Qed.

Lemma contains_true c s : contains c s = true <-> c ∈ s.
Proof.
  unfold contains. induction s as [|d s IH]; simpl.
  - split; [discriminate | intros Hc; inversion Hc].
  - rewrite orb_true_iff, IH, elem_of_cons, chr_eqb_eq. tauto.
Qed.

Lemma contains_false c s : contains c s = false <-> c ∉ s.
Proof.
  rewrite <- contains_true. destruct (contains c s); split; congruence.
Qed.

Lemma contains_app c s t :
  contains c (s ++ t) = contains c s || contains c t.
Proof. apply existsb_app. Qed.

Lemma finditer_from_In s :
  forall pos skip m,
    m ∈ finditer_from pos skip s ->
    exists pre s' n,
      s = pre ++ s' /\ match_here s' = Some (n, m_key m, m_val m).
Proof.
  induction s as [|c s IH]; intros pos skip m Hm; simpl in Hm.
  { inversion Hm. }
  assert (Hrec : forall pos' skip', m ∈ finditer_from pos' skip' s ->
            exists pre s' n, c :: s = pre ++ s'
              /\ match_here s' = Some (n, m_key m, m_val m)).
  { intros pos' skip' Hin. destruct (IH _ _ _ Hin) as [pre [s' [n [-> Hs]]]].
    exists (c :: pre), s', n. auto. }
  destruct skip as [|skip]; [|eauto].
  destruct (match_here (c :: s)) as [[[n key] val]|] eqn:Em; [|eauto].
  apply elem_of_cons in Hm as [->|Hm]; [|eauto].
  exists [], (c :: s), n. auto.
Qed.

Lemma finditer_groups s m :
  m ∈ finditer s ->
  key_ok (m_key m) /\ forallb notquote (m_val m) = true
  /\ (forall c, c ∈ m_val m -> c ∈ s).
Proof.
  intros Hm. apply finditer_from_In in Hm as [pre [s' [n [-> Hs]]]].
  apply match_here_sound in Hs
    as [ws1 [ws2 [rest [-> [Hk [_ [_ [Hv _]]]]]]]].
  split; [exact Hk|]. split; [exact Hv|].
  intros c Hc. set_solver.
Qed.

Lemma dict_set_keys k v d :
  (dict_set k v d).*1 = if decide (k ∈ d.*1) then d.*1 else d.*1 ++ [k].
Proof.
  induction d as [|[k' v'] d IH]; csimpl.
  - destruct (decide (k ∈ [])) as [Hin|]; [inversion Hin | reflexivity].
  - destruct (decide (k = k')) as [->|Hne]; csimpl.
    + rewrite decide_True by (left; reflexivity). reflexivity.
    + rewrite IH. destruct (decide (k ∈ d.*1)) as [Hin|Hin].
      * rewrite decide_True by (right; exact Hin). reflexivity.
      * rewrite decide_False; [reflexivity|].
        intros Hc. apply elem_of_cons in Hc as [?|?]; auto.
Qed.

Lemma dict_set_NoDup k v d : NoDup (d.*1) -> NoDup ((dict_set k v d).*1).
Proof.
  intros Hd. rewrite dict_set_keys. destruct (decide (k ∈ d.*1)); [exact Hd|].
  apply NoDup_app. split; [exact Hd|]. split.
  - intros x Hx Hk. apply list_elem_of_singleton in Hk. congruence.
  - apply NoDup_singleton.
Qed.

Lemma dict_set_In k v d kv :
  kv ∈ dict_set k v d -> kv = (k, v) \/ kv ∈ d.
Proof.
  induction d as [|[k' v'] d IH]; simpl.
  - intros Hin. apply list_elem_of_singleton in Hin. auto.
  - destruct (decide (k = k')) as [->|Hne]; intros Hin;
      apply elem_of_cons in Hin as [->|Hin].
    + auto.
    + right. right. exact Hin.
    + right. left.
    + destruct (IH Hin) as [?|?]; [auto|]. right. right. assumption.
Qed.

Lemma dict_set_fresh k v d : k ∉ d.*1 -> dict_set k v d = d ++ [(k, v)].
Proof.
  induction d as [|[k' v'] d IH]; csimpl; intros Hk; [reflexivity|].
  destruct (decide (k = k')) as [->|Hne].
  - exfalso. apply Hk. left.
  - rewrite IH; [reflexivity|]. intros Hc. apply Hk. right. exact Hc.
Qed.

Lemma dict_set_nonempty k v d : dict_set k v d <> [].
Proof.
  destruct d as [|[k' v'] d]; simpl; [discriminate|].
  destruct (decide (k = k')); discriminate.
Qed.

Lemma foldl_set_attr_NoDup ms acc :
  NoDup (acc.*1) -> NoDup ((foldl set_attr acc ms).*1).
Proof.
  revert acc. induction ms as [|m ms IH]; intros acc Ha; simpl; [exact Ha|].
  apply IH, dict_set_NoDup, Ha.
Qed.

Lemma foldl_set_attr_In ms acc kv :
  kv ∈ foldl set_attr acc ms ->
  kv ∈ acc \/ exists m, m ∈ ms /\ kv = (m_key m, m_val m).
Proof.
  revert acc. induction ms as [|m ms IH]; intros acc Hin; simpl in Hin;
    [auto|].
  destruct (IH _ Hin) as [Hacc|[m' [Hm' ->]]].
  - apply dict_set_In in Hacc as [->|Hacc]; [|auto].
    right. exists m. split; [left | reflexivity].
  - right. exists m'. split; [right; exact Hm' | reflexivity].
Qed.

Lemma foldl_set_attr_nonempty ms acc :
  acc <> [] -> foldl set_attr acc ms <> [].
Proof.
  revert acc. induction ms as [|m ms IH]; intros acc Ha; simpl; [exact Ha|].
  apply IH, dict_set_nonempty.
Qed.

(** What a successful call of [parse_attributes] tells. *)
Lemma parse_attributes_ok tag_str a :
  parse_attributes tag_str = Ok a ->
  contains "'" tag_str = false
  /\ blank tag_str = false
  /\ NoDup (a.*1)
  /\ Forall (fun kv => key_ok kv.1 /\ forallb notquote kv.2 = true
                       /\ forall c, c ∈ kv.2 -> c ∈ tag_str) a
  /\ (a = [] ->
      blank (drop (length (first_token (strip tag_str))) tag_str) = true).
Proof.
  unfold parse_attributes.
  destruct (contains "'" tag_str) eqn:Eq; [discriminate|].
  rewrite item0_split, blank_strip.
  destruct (blank tag_str) eqn:Eb; [discriminate|]. simpl.
  set (n := length (first_token (strip tag_str))).
  destruct (strip_decompose (drop n tag_str)) as [w1 [w2 [Hd [B1 B2]]]].
  destruct (strip (drop n tag_str)) as [|c attr_str] eqn:Ea.
  { intros [= <-]. repeat split; try constructor.
    intros _. rewrite Hd, !blank_app, B1, B2. reflexivity. }
  destruct (existsb _ (enumerate_from 0 (c :: attr_str))) eqn:Ex;
    [discriminate|].
  intros [= <-]. fold set_attr.
  split; [reflexivity|]. split; [reflexivity|]. split; [|split].
  - apply foldl_set_attr_NoDup. constructor.
  - apply Forall_forall. intros kv Hkv.
    apply foldl_set_attr_In in Hkv as [Hkv|[m [Hm ->]]]; [inversion Hkv|].
    apply finditer_groups in Hm as [Hk [Hv Hc]]. simpl.
    split; [exact Hk|]. split; [exact Hv|].
    intros x Hx. apply Hc in Hx.
    assert (Hx' : x ∈ drop n tag_str).
    { rewrite Hd. apply elem_of_app. right. apply elem_of_app. left.
      exact Hx. }
    rewrite <- (take_drop n tag_str). apply elem_of_app. right. exact Hx'.
  - intros Hnil. exfalso.
    assert (Hcov : ~ uncovered (c :: attr_str)).
    { intros Hu. apply coverage_check in Hu. congruence. }
    pose proof (strip_stops (drop n tag_str)) as Hs. rewrite Ea in Hs.
    simpl in Hs.
    destruct (finditer (c :: attr_str)) as [|m ms] eqn:Ef.
    + apply Hcov. exists 0, c. split; [reflexivity|]. split; [exact Hs|].
      rewrite Ef. intros [m [Hm _]]. inversion Hm.
    + simpl in Hnil. revert Hnil. apply foldl_set_attr_nonempty.
      apply dict_set_nonempty.
Qed.

End Regex.

(* ===================================================================== *)
(** * The loop invariant: parse results are well formed *)
(* ===================================================================== *)

Section Invariant.

Lemma replace_from_nonblank old new :
  blank new = false ->
  forall s skip,
    blank (drop skip s) = false ->
    blank (replace_from old new skip s) = false.
Proof.
  intros Hnew. induction s as [|c s IH]; intros skip Hb.
  - rewrite drop_nil in Hb. discriminate.
  - destruct skip as [|skip]; simpl.
    + destruct (startswith old (c :: s)).
      * rewrite blank_app, Hnew. reflexivity.
      * rewrite drop_0 in Hb. simpl in *.
        destruct (isspace c); [|reflexivity]. simpl in *.
        apply IH. rewrite drop_0. exact Hb.
    + apply IH. exact Hb.
Qed.

Lemma replace_nonblank old new s :
  blank new = false -> blank s = false -> blank (replace old new s) = false.
Proof.
  intros Hn Hs. apply replace_from_nonblank; [exact Hn|].
  rewrite drop_0. exact Hs.
Qed.

Lemma unescape_nonblank text :
  blank text = false -> blank (unescapeXMLChars text) = false.
Proof.
  intros Hb. unfold unescapeXMLChars.
  repeat (apply replace_nonblank; [reflexivity|]). exact Hb.
Qed.

Lemma ends_with_text_snoc cs x : ends_with_text (cs ++ [x]) = is_text x.
Proof. unfold ends_with_text. rewrite last_snoc. reflexivity. Qed.

Lemma no_adjacent_text_snoc cs x :
  no_adjacent_text cs ->
  ends_with_text cs && is_text x = false ->
  no_adjacent_text (cs ++ [x]).
Proof.
  induction cs as [|a cs IH]; simpl; [auto|].
  destruct cs as [|b cs]; simpl in *.
  - intros _ Hx. unfold ends_with_text in Hx. simpl in Hx. auto.
  - intros [Hab Hcs] Hx. split; [exact Hab|]. apply IH; [exact Hcs|].
    exact Hx.
Qed.

Lemma contains_strip c s : contains c s = false -> contains c (strip s) = false.
Proof.
  intros Hs. destruct (strip_decompose s) as [w1 [w2 [Hd _]]].
  rewrite Hd, !contains_app in Hs.
  apply orb_false_iff in Hs as [_ Hs]. apply orb_false_iff in Hs as [Hs _].
  exact Hs.
Qed.

Lemma contains_take c n s :
  contains c s = false -> contains c (take n s) = false.
Proof.
  intros Hs. rewrite <- (take_drop n s), contains_app in Hs.
  apply orb_false_iff in Hs as [Hs _]. exact Hs.
Qed.

Lemma contains_drop c n s :
  contains c s = false -> contains c (drop n s) = false.
Proof.
  intros Hs. rewrite <- (take_drop n s), contains_app in Hs.
  apply orb_false_iff in Hs as [_ Hs]. exact Hs.
Qed.

Lemma strip_head c r :
  isspace c = false -> head (strip (c :: r)) = Some c.
Proof.
  intros Hc. unfold strip. rewrite lstrip_not_space by exact Hc.
  destruct (rstrip_decompose (c :: r)) as [w [Hw Hb]].
  destruct (rstrip (c :: r)) as [|d r'] eqn:E.
  - simpl in Hw. subst w. simpl in Hb. rewrite Hc in Hb. discriminate.
  - injection Hw as <- _. reflexivity.
Qed.

Lemma forallb_nonspace_stops s :
  forallb nonspace s = true -> stops isspace s /\ stops isspace (rev s).
Proof.
  intros Hs. rewrite forallb_forall in Hs. split.
  - destruct s as [|c s]; simpl; [exact I|].
    specialize (Hs c (or_introl eq_refl)). unfold nonspace in Hs.
    apply negb_true_iff in Hs. exact Hs.
  - destruct (rev s) as [|c r] eqn:E; simpl; [exact I|].
    assert (Hin : In c s).
    { apply in_rev. rewrite E. left. reflexivity. }
    specialize (Hs c Hin). unfold nonspace in Hs.
    apply negb_true_iff in Hs. exact Hs.
Qed.

Lemma strip_token s : forallb nonspace s = true -> strip s = s.
Proof. intros Hs. apply forallb_nonspace_stops in Hs as [H1 H2]. apply strip_id; assumption. Qed.

Lemma first_token_head s :
  blank s = false -> stops isspace s -> head (first_token s) = head s.
Proof.
  intros Hb Hs. unfold first_token. rewrite lstrip_id by exact Hs.
  destruct s as [|c r]; [reflexivity|]. simpl in *.
  unfold nonspace at 1. rewrite Hs. reflexivity.
Qed.

Lemma first_token_subset s c : c ∈ first_token s -> c ∈ s.
Proof.
  intros Hc. destruct (lstrip_decompose s) as [w [Hw _]].
  rewrite Hw, first_token_prefix. set_solver.
Qed.

(** The tag name read from a tag interior is a well-formed name. *)
Lemma token_name_ok tag_str :
  contains ">" tag_str = false ->
  contains "'" tag_str = false ->
  blank tag_str = false ->
  head (strip tag_str) <> Some "/"%char ->
  name_ok (strip (first_token (strip tag_str))).
Proof.
  intros Hgt Hq Hb Hh.
  rewrite strip_token by apply first_token_nonspace.
  assert (Hbs : blank (strip tag_str) = false) by (rewrite blank_strip; exact Hb).
  split; [apply first_token_nonempty; exact Hbs|].
  split; [apply first_token_nonspace|].
  split; [|split].
  - apply contains_false. intros Hc. apply first_token_subset in Hc.
    apply contains_true in Hc. rewrite contains_strip in Hc by exact Hgt.
    discriminate.
  - apply contains_false. intros Hc. apply first_token_subset in Hc.
    apply contains_true in Hc. rewrite contains_strip in Hc by exact Hq.
    discriminate.
  - rewrite first_token_head; [exact Hh | exact Hbs | apply strip_stops].
Qed.

(** The attributes read from a tag interior are well-formed attributes. *)
Lemma parsed_attrs_ok tag_str a :
  contains ">" tag_str = false ->
  parse_attributes tag_str = Ok a ->
  attrs_ok a.
Proof.
  intros Hgt Hp.
  apply parse_attributes_ok in Hp as [Hq [_ [Hnd [Hall _]]]].
  split; [exact Hnd|].
  eapply Forall_impl; [exact Hall|]. intros [k v] [Hk [Hv Hc]]. simpl in *.
  split; [exact Hk|]. split; [exact Hv|]. split.
  - apply contains_false. intros Hin. apply Hc, contains_true in Hin.
    congruence.
  - apply contains_false. intros Hin. apply Hc, contains_true in Hin.
    congruence.
Qed.

Lemma sole_token tc :
  stops isspace tc -> stops isspace (rev tc) ->
  blank (drop (length (first_token tc)) tc) = true ->
  first_token tc = tc.
Proof.
  intros H1 H2 Hb.
  pose proof (first_token_prefix tc) as Hp. rewrite lstrip_id in Hp by exact H1.
  set (d := dropwhile nonspace tc) in *.
  assert (Hd : drop (length (first_token tc)) tc = d).
  { rewrite Hp at 2. apply drop_app_length. }
  rewrite Hd in Hb.
  destruct (rev d) as [|c r] eqn:E.
  - apply (f_equal (@rev ascii)) in E. rewrite rev_involutive in E.
    simpl in E. rewrite E, app_nil_r in Hp. congruence.
  - exfalso. rewrite Hp, rev_app_distr, E in H2. simpl in H2.
    unfold blank in Hb. rewrite forallb_forall in Hb.
    assert (Hin : In c d). { apply in_rev. rewrite E. left. reflexivity. }
    apply Hb in Hin. congruence.
Qed.

Lemma wf_frame_node t : wf_frame t -> wf_node (node_of t).
Proof.
  intros [Hn [Ha [Hl [Hc Hadj]]]]. constructor; auto.
Qed.

Lemma wf_frame_append t x :
  wf_frame t -> wf_node x ->
  ends_with_text (tag_children t) && is_text x = false ->
  wf_frame (append_child t x).
Proof.
  intros [Hn [Ha [Hl [Hc Hadj]]]] Hx Hadj'. unfold wf_frame. simpl.
  split; [exact Hn|]. split; [exact Ha|]. split; [exact Hl|]. split.
  - apply Forall_app. split; [exact Hc|]. constructor; [exact Hx|constructor].
  - apply no_adjacent_text_snoc; assumption.
Qed.

Lemma tag_branch_inv tc j st st' rest rest' :
  contains ">" tc = false ->
  stops isspace tc -> stops isspace (rev tc) ->
  inv rest st ->
  tag_branch tc j st = Ok st' ->
  inv rest' st'.
Proof.
  intros Hgt Hs1 Hs2 [Hstack [Hroot _]]. unfold tag_branch.
  destruct (startswith (lit "/") tc) eqn:Estart.
  - (* closing tag *)
    destruct (st_stack st) as [|top stack]; [discriminate|].
    destruct (negb (bool_decide (tag_name top = strip (drop 1 tc))));
      [discriminate|].
    apply Forall_cons in Hstack as [Htop Hstack].
    destruct stack as [|parent stack'].
    + destruct (st_root st); [discriminate|]. intros [= <-].
      split; [constructor|]. split; [|exact I].
      simpl. intros r [= <-]. exact Htop.
    + intros [= <-].
      apply Forall_cons in Hstack as [Hparent Hstack].
      split; [|split].
      * simpl. constructor; [|exact Hstack].
        apply wf_frame_append; [exact Hparent | apply wf_frame_node, Htop|].
        simpl. apply andb_false_r.
      * exact Hroot.
      * simpl. rewrite ends_with_text_snoc. discriminate.
  - destruct (endswith_chr "/" tc) eqn:Eend.
    + (* self-closing tag *)
      rewrite item0_split, blank_strip.
      destruct (blank (drop_last tc)) eqn:Eb; [discriminate|]. simpl.
      destruct (parse_attributes (drop_last tc)) as [a|] eqn:Ep;
        [|discriminate]. simpl.
      destruct (st_stack st) as [|top stack]; [discriminate|].
      intros [= <-].
      apply Forall_cons in Hstack as [Htop Hstack].
      assert (Hgt' : contains ">" (drop_last tc) = false)
        by (apply contains_take, Hgt).
      assert (Hnode : wf_node (node_of (new_SSMLTag
                         (first_token (strip (drop_last tc))) a []))).
      { constructor; simpl.
        - apply token_name_ok; [exact Hgt' | | exact Eb |].
          + apply parse_attributes_ok in Ep. tauto.
          + destruct tc as [|c0 r]; [discriminate|].
            simpl in Hs1. simpl in Estart. rewrite andb_true_r in Estart.
            unfold drop_last in *. simpl length in *.
            rewrite Nat.sub_succ, Nat.sub_0_r in *.
            destruct r as [|c1 r]; [discriminate|].
            change (take (length (c1 :: r)) (c0 :: c1 :: r))
              with (c0 :: take (length r) (c1 :: r)).
            rewrite strip_head by exact Hs1.
            intros [= ->]. discriminate.
        - eapply parsed_attrs_ok; eassumption.
        - congruence.
        - constructor.
        - exact I. }
      split; [|split].
      * simpl. constructor; [|exact Hstack].
        apply wf_frame_append; [exact Htop | exact Hnode|].
        simpl. apply andb_false_r.
      * exact Hroot.
      * simpl. rewrite ends_with_text_snoc. discriminate.
    + (* opening tag *)
      rewrite item0_split.
      destruct (blank tc) eqn:Eb; [discriminate|]. simpl.
      destruct (parse_attributes tc) as [a|] eqn:Ep; [|discriminate]. simpl.
      assert (Hid : strip tc = tc) by (apply strip_id; assumption).
      assert (Hnew : wf_frame (new_SSMLTag (first_token tc) a [])).
      { unfold wf_frame. simpl. split; [|split; [|split; [|split]]].
        - rewrite <- Hid at 1. apply token_name_ok; [exact Hgt | | exact Eb |].
          + apply parse_attributes_ok in Ep. tauto.
          + rewrite Hid. destruct tc as [|c0 r]; [discriminate|].
            simpl in Estart. rewrite andb_true_r in Estart.
            simpl. intros [= ->]. discriminate.
        - eapply parsed_attrs_ok; eassumption.
        - intros ->. apply parse_attributes_ok in Ep as [_ [_ [_ [_ Hb]]]].
          specialize (Hb eq_refl). rewrite Hid in Hb.
          rewrite sole_token by assumption. rewrite Hid.
          unfold endswith_chr in Eend. destruct (last tc) as [d|]; [|discriminate].
          intros [= ->]. discriminate.
        - constructor.
        - exact I. }
      destruct (st_stack st) as [|top stack] eqn:Estack.
      * destruct (st_seen_top_level st); [discriminate|]. intros [= <-].
        split; [|split]; simpl.
        -- constructor; [exact Hnew | constructor].
        -- exact Hroot.
        -- discriminate.
      * intros [= <-]. split; [|split]; simpl.
        -- constructor; [exact Hnew | exact Hstack].
        -- exact Hroot.
        -- discriminate.
Qed.

Lemma since_stops c s : stops (fun d => negb (chr_eqb c d)) (since c s).
Proof. apply dropwhile_stops. Qed.

Lemma text_branch_inv c after j st st' :
  c <> "<"%char ->
  inv (c :: after) st ->
  text_branch (until "<" (c :: after)) j st = Ok st' ->
  inv (since "<" (c :: after)) st'.
Proof.
  intros Hc [Hstack [Hroot Htop]]. unfold text_branch.
  destruct (strip (until "<" (c :: after))) as [|d r] eqn:Es.
  - intros [= <-]. split; [exact Hstack|]. split; [exact Hroot|]. simpl.
    destruct (st_stack st); [exact I|]. intros _. apply since_stops.
  - destruct (st_stack st) as [|top stack]; [discriminate|].
    intros [= <-].
    apply Forall_cons in Hstack as [Hf Hstack].
    assert (Hnb : blank (until "<" (c :: after)) = false).
    { destruct (blank (until "<" (c :: after))) eqn:Eb; [|reflexivity].
      apply strip_nil in Eb. congruence. }
    assert (Hend : ends_with_text (tag_children top) = false).
    { destruct (ends_with_text (tag_children top)) eqn:Ee; [|reflexivity].
      specialize (Htop eq_refl). simpl in Htop. unfold notlt in Htop.
      apply negb_false_iff, chr_eqb_eq in Htop. congruence. }
    split; [|split]; simpl.
    + constructor; [|exact Hstack].
      apply wf_frame_append; [exact Hf | |].
      * constructor. apply unescape_nonblank, Hnb.
      * rewrite Hend. reflexivity.
    + exact Hroot.
    + intros _. apply since_stops.
Qed.

Lemma sbody_inv rest st st' :
  inv rest st -> sbody rest st = Ok st' -> inv (snext rest) st'.
Proof.
  intros Hinv. destruct rest as [|c after]; simpl.
  { intros [= <-]. exact Hinv. }
  destruct (decide (c = "<"%char)) as [->|Hc].
  - rewrite !bool_decide_eq_true_2 by reflexivity.
    destruct (since ">" after) as [|d r] eqn:Es; [discriminate|].
    apply (tag_branch_inv _ _ _ _ ("<"%char :: after)).
    + apply contains_strip, until_not_in.
    + apply strip_stops.
    + apply strip_rev_stops.
    + exact Hinv.
  - rewrite !bool_decide_eq_false_2 by done.
    apply text_branch_inv; assumption.
Qed.

Lemma sparse_inv n :
  forall rest st st',
    length rest <= n ->
    inv rest st -> sparse rest st = Ok st' -> inv [] st'.
Proof.
  induction n as [|n IH]; intros rest st st' Hn Hinv Hp.
  - destruct rest; [|simpl in Hn; lia].
    rewrite sparse_nil in Hp. injection Hp as <-. exact Hinv.
  - destruct rest as [|c r].
    { rewrite sparse_nil in Hp. injection Hp as <-. exact Hinv. }
    rewrite sparse_cons in Hp.
    destruct (sbody (c :: r) st) as [st1|e] eqn:Eb; [|discriminate].
    pose proof (snext_shorter (c :: r) ltac:(discriminate)) as Hs.
    change (length (c :: r)) with (S (length r)) in *.
    apply (IH (snext (c :: r)) st1); [lia | | exact Hp].
    apply sbody_inv with (st := st); assumption.
Qed.

Lemma inv_init rest : inv rest init_state.
Proof. split; [constructor|]. split; [discriminate | exact I]. Qed.

(** Every tree returned by [parseSSML] is well formed. *)
Lemma parseSSML_wf ssml t : parseSSML ssml = Some (Ok t) -> wf_node t.
Proof.
  rewrite parseSSML_sparse. intros [= Hp].
  destruct (sparse ssml init_state) as [st|e] eqn:Es; [|discriminate].
  apply (sparse_inv (length ssml)) in Es as [_ [Hroot _]];
    [|lia|apply inv_init].
  simpl in Hp. unfold finish in Hp.
  destruct (st_stack st); [|discriminate].
  destruct (st_root st) as [root|]; [|discriminate].
  destruct (negb (bool_decide (tag_name root = lit "speak")));
    [discriminate|].
  injection Hp as <-. apply wf_frame_node, Hroot. reflexivity.
Qed.

Lemma wf_node_texts t : wf_node t -> forall text, text ∈ texts t -> blank text = false.
Proof.
  revert t. fix IH 2. intros t Hwf. destruct Hwf as [p Hp|n a cs Hn Ha Hl Hcs Hadj].
  - simpl. intros text Hin. apply list_elem_of_singleton in Hin. congruence.
  - simpl. intros text Hin. clear Hl Hadj.
    induction Hcs as [|x cs Hx Hcs IHcs]; simpl in Hin; [inversion Hin|].
    apply elem_of_app in Hin as [Hin|Hin].
    + exact (IH x Hx text Hin).
    + apply IHcs. exact Hin.
Qed.

(** C9: every Text node of a tree returned by [parseSSML] has a payload
    with at least one non-whitespace character. *)
Theorem parse_texts_nonblank (ssml : str) (t : SSMLNode) (text : str) :
  parseSSML ssml = Some (Ok t) ->
  text ∈ texts t ->
  exists c, c ∈ text /\ isspace c = false.
Proof.
  intros Hp Hin. apply blank_false.
  apply (wf_node_texts t); [eapply parseSSML_wf; exact Hp | exact Hin].
Qed.

Lemma parse_texts_nonblank_witness :
  exists c, c ∈ lit " hi" /\ isspace c = false.
Proof.
  apply (parse_texts_nonblank (lit "<speak> hi<b/></speak>")
           (SSMLTag (lit "speak") [] [SSMLText (lit " hi"); SSMLTag (lit "b") [] []])).
  - vm_compute. reflexivity.
  - vm_compute. left.
Defined.

End Invariant.

(* ===================================================================== *)
(** * Rendered attributes parse back *)
(* ===================================================================== *)

Section RenderedAttributes.

Lemma finditer_skip :
  forall skip s pos,
    skip <= length s ->
    finditer_from pos skip s = finditer_from (pos + skip) 0 (drop skip s).
Proof.
  induction skip as [|skip IH]; intros s pos Hl.
  - rewrite Nat.add_0_r, drop_0. reflexivity.
  - destruct s as [|c s]; [simpl in Hl; lia|]. simpl in Hl.
    change (finditer_from pos (S skip) (c :: s))
      with (finditer_from (S pos) skip s).
    rewrite IH by lia. rewrite Nat.add_succ_r. reflexivity.
Qed.

Lemma format_attr_length kv :
  length (format_attr kv) = length kv.1 + 1 + 1 + length kv.2 + 1.
Proof.
  unfold format_attr. rewrite !length_app. simpl. lia.
Qed.

Lemma match_here_format kv rest :
  key_ok kv.1 -> forallb notquote kv.2 = true ->
  match_here (format_attr kv ++ rest)
  = Some (length (format_attr kv), kv.1, kv.2).
Proof.
  intros Hk Hv.
  pose proof (match_here_complete kv.1 [] [] kv.2 rest Hk eq_refl eq_refl Hv)
    as Hm.
  rewrite format_attr_length. unfold format_attr.
  simpl in Hm. repeat (rewrite <- app_assoc; simpl).
  rewrite Hm. f_equal. f_equal. f_equal. lia.
Qed.

Lemma finditer_format kv rest pos :
  key_ok kv.1 -> forallb notquote kv.2 = true ->
  finditer_from pos 0 (format_attr kv ++ rest)
  = mkMatch pos (pos + length (format_attr kv)) kv.1 kv.2
    :: finditer_from (pos + length (format_attr kv)) 0 rest.
Proof.
  intros Hk Hv.
  pose proof (match_here_format kv rest Hk Hv) as Hm.
  pose proof (format_attr_length kv) as Hl.
  destruct (format_attr kv ++ rest) as [|c s] eqn:E.
  { apply (f_equal length) in E. rewrite length_app in E. simpl in E. lia. }
  simpl finditer_from. rewrite Hm. f_equal.
  assert (Hs : s = drop 1 (format_attr kv ++ rest)) by (rewrite E; reflexivity).
  rewrite finditer_skip.
  - f_equal; [lia|]. rewrite Hs, drop_drop.
    replace (1 + (length (format_attr kv) - 1)) with (length (format_attr kv))
      by lia.
    apply drop_app_length.
  - apply (f_equal length) in E. rewrite length_app in E. simpl in E. lia.
Qed.

Lemma render_attrs_cons kv a :
  render_attrs (kv :: a)
  = format_attr kv ++ match a with
                      | [] => []
                      | _ :: _ => lit " " ++ render_attrs a
                      end.
Proof.
  unfold render_attrs. destruct a; simpl; [rewrite app_nil_r|]; reflexivity.
Qed.

Lemma finditer_render a :
  forall pos,
    Forall (fun kv => key_ok kv.1 /\ val_ok kv.2) a ->
    finditer_from pos 0 (render_attrs a) = rendered_matches pos a.
Proof.
  induction a as [|kv a IH]; intros pos Ha; [reflexivity|].
  apply Forall_cons in Ha as [[Hk [Hv _]] Ha].
  rewrite render_attrs_cons, finditer_format by assumption.
  simpl rendered_matches. f_equal.
  destruct a as [|kv' a]; [reflexivity|].
  change (lit " " ++ render_attrs (kv' :: a))
    with (" "%char :: render_attrs (kv' :: a)).
  change (finditer_from (pos + length (format_attr kv)) 0
            (" "%char :: render_attrs (kv' :: a)))
    with (finditer_from (S (pos + length (format_attr kv))) 0
            (render_attrs (kv' :: a))).
  rewrite IH by exact Ha. f_equal. lia.
Qed.

Lemma in_some_span_cons m ms i :
  in_some_span ms i -> in_some_span (m :: ms) i.
Proof. intros [m' [Hm Hi]]. exists m'. split; [right; exact Hm | exact Hi]. Qed.

Lemma format_attr_nonspace_covered a :
  forall pos i c,
    render_attrs a !! i = Some c ->
    isspace c = false ->
    in_some_span (rendered_matches pos a) (pos + i).
Proof.
  induction a as [|kv a IH]; intros pos i c Hi Hc.
  { destruct i; discriminate. }
  rewrite render_attrs_cons in Hi. simpl rendered_matches.
  destruct (decide (i < length (format_attr kv))) as [Hlt|Hge].
  - exists (mkMatch pos (pos + length (format_attr kv)) kv.1 kv.2).
    split; [left|simpl; lia].
  - apply in_some_span_cons.
    rewrite lookup_app_r in Hi by lia.
    destruct a as [|kv' a]; [destruct (i - _); discriminate|].
    destruct (i - length (format_attr kv)) as [|i'] eqn:Ei.
    + simpl in Hi. injection Hi as <-. discriminate.
    + simpl in Hi.
      replace (pos + i) with (pos + length (format_attr kv) + 1 + i') by lia.
      apply IH with (c := c); assumption.
Qed.

Lemma foldl_set_attr_rendered a :
  forall pos acc,
    NoDup (acc.*1 ++ a.*1) ->
    foldl set_attr acc (rendered_matches pos a) = acc ++ a.
Proof.
  induction a as [|[k v] a IH]; intros pos acc Hnd; simpl.
  - rewrite app_nil_r. reflexivity.
  - unfold set_attr at 2. simpl.
    rewrite dict_set_fresh.
    + rewrite IH; [rewrite <- app_assoc; reflexivity|].
      rewrite fmap_app. simpl. rewrite <- app_assoc. exact Hnd.
    + apply NoDup_app in Hnd as [_ [Hd _]]. intros Hin.
      apply (Hd k Hin). simpl. left.
Qed.

Lemma format_attr_contains c kv :
  c <> "="%char -> c <> dquote -> c ∉ kv.1 -> c ∉ kv.2 ->
  contains c (format_attr kv) = false.
Proof.
  intros H1 H2 Hk Hv. apply contains_false. unfold format_attr.
  rewrite !elem_of_app, !list_elem_of_singleton. simpl.
  rewrite list_elem_of_singleton. tauto.
Qed.

Lemma render_attrs_contains c a :
  c <> "="%char -> c <> dquote -> c <> " "%char ->
  Forall (fun kv => (c ∉ kv.1) /\ (c ∉ kv.2)) a ->
  contains c (render_attrs a) = false.
Proof.
  intros H1 H2 H3. induction 1 as [|kv a [Hk Hv] Ha IH]; [reflexivity|].
  rewrite render_attrs_cons, contains_app, format_attr_contains by assumption.
  destruct a as [|kv' a]; [reflexivity|].
  rewrite contains_app, IH, orb_false_r. simpl.
  rewrite orb_false_r. apply chr_eqb_neq. exact H3.
Qed.

Lemma attrs_ok_no_gt a : attrs_ok a -> contains ">" (render_attrs a) = false.
Proof.
  intros [_ Ha]. apply render_attrs_contains; try discriminate.
  eapply Forall_impl; [exact Ha|]. intros kv [[_ Hk] [_ [Hgt _]]]. split.
  - intros Hin. rewrite forallb_forall in Hk.
    apply list_elem_of_In, Hk, iskey_not_special in Hin. tauto.
  - apply contains_false. exact Hgt.
Qed.

Lemma attrs_ok_no_quote a : attrs_ok a -> contains "'" (render_attrs a) = false.
Proof.
  intros [_ Ha]. apply render_attrs_contains; try discriminate.
  eapply Forall_impl; [exact Ha|]. intros kv [[_ Hk] [_ [_ Hq]]]. split.
  - intros Hin. rewrite forallb_forall in Hk.
    apply list_elem_of_In, Hk, iskey_not_special in Hin. tauto.
  - apply contains_false. exact Hq.
Qed.

Lemma format_attr_head kv :
  key_ok kv.1 -> exists c r, format_attr kv = c :: r /\ iskey c = true.
Proof.
  intros [Hne Hk]. unfold format_attr.
  destruct (kv.1) as [|c k]; [congruence|].
  simpl in Hk. apply andb_true_iff in Hk as [Hc _]. eauto.
Qed.

Lemma render_attrs_head a :
  attrs_ok a -> a <> [] ->
  exists c r, render_attrs a = c :: r /\ iskey c = true.
Proof.
  intros [_ Ha] Hne. destruct a as [|kv a]; [congruence|].
  apply Forall_cons in Ha as [[Hk _] _].
  rewrite render_attrs_cons.
  destruct (format_attr_head kv Hk) as [c [r [-> Hc]]]. simpl. eauto.
Qed.

Lemma render_attrs_last a :
  a <> [] -> exists r, rev (render_attrs a) = dquote :: r.
Proof.
  induction a as [|kv a IH]; [congruence|]. intros _.
  rewrite render_attrs_cons. destruct a as [|kv' a].
  - rewrite app_nil_r. unfold format_attr.
    rewrite !app_assoc, rev_app_distr. simpl. eauto.
  - destruct IH as [r Hr]; [discriminate|].
    rewrite !rev_app_distr, Hr. simpl. eauto.
Qed.

Lemma first_token_app n rest :
  n <> [] -> forallb nonspace n = true -> stops nonspace rest ->
  first_token (n ++ rest) = n.
Proof.
  intros Hne Hn Hr. unfold first_token.
  rewrite lstrip_id.
  - apply takewhile_app; assumption.
  - destruct n as [|c n]; [congruence|]. simpl in *.
    apply andb_true_iff in Hn as [Hc _]. unfold nonspace in Hc.
    apply negb_true_iff in Hc. exact Hc.
Qed.

Lemma name_ok_nonblank n : name_ok n -> blank n = false.
Proof.
  intros [Hne [Hns _]]. destruct n as [|c n]; [congruence|]. simpl in *.
  apply andb_true_iff in Hns as [Hc _]. unfold nonspace in Hc.
  apply negb_true_iff in Hc. rewrite Hc. reflexivity.
Qed.

(** The interior [name] of a rendered tag without attributes. *)
Lemma parse_attributes_name n : name_ok n -> parse_attributes n = Ok [].
Proof.
  intros Hn. pose proof (name_ok_nonblank n Hn) as Hb.
  destruct Hn as [Hne [Hns [_ [Hq _]]]].
  unfold parse_attributes. rewrite Hq, item0_split, blank_strip, Hb. simpl.
  rewrite (strip_token n) by exact Hns.
  rewrite <- (app_nil_r n) at 1.
  rewrite first_token_app by (try assumption; exact I).
  rewrite drop_all. reflexivity.
Qed.

(** The interior [name attrs] of a rendered tag with attributes. *)
Lemma parse_attributes_rendered n a :
  name_ok n -> attrs_ok a -> a <> [] ->
  parse_attributes (n ++ lit " " ++ render_attrs a) = Ok a.
Proof.
  intros Hn Ha Hne. pose proof (name_ok_nonblank n Hn) as Hb.
  pose proof Hn as [Hn0 [Hns [_ [Hq _]]]].
  destruct (render_attrs_head a Ha Hne) as [c [r [Hhead Hc]]].
  destruct (render_attrs_last a Hne) as [r' Hlast].
  apply iskey_not_special in Hc as [Hcs _].
  set (s := n ++ lit " " ++ render_attrs a).
  assert (Hstrip : strip s = s).
  { apply strip_id.
    - subst s. destruct n as [|c0 n]; [congruence|]. simpl in *.
      apply andb_true_iff in Hns as [Hc0 _]. unfold nonspace in Hc0.
      apply negb_true_iff in Hc0. exact Hc0.
    - subst s. rewrite !rev_app_distr, Hlast. reflexivity. }
  assert (Hbs : blank s = false).
  { subst s. rewrite blank_app, Hb. reflexivity. }
  assert (Hattr : strip (drop (length n) s) = render_attrs a).
  { subst s. rewrite drop_app_length. unfold strip. simpl lstrip.
    rewrite lstrip_id by (rewrite Hhead; exact Hcs).
    apply rstrip_id. rewrite Hlast. reflexivity. }
  unfold parse_attributes.
  replace (contains "'" s) with false.
  2:{ subst s. rewrite !contains_app, Hq, attrs_ok_no_quote by exact Ha.
      reflexivity. }
  rewrite item0_split, blank_strip, Hbs. simpl.
  rewrite Hstrip. subst s.
  rewrite first_token_app by (try assumption; reflexivity).
  rewrite Hattr. destruct Ha as [Hnd Hall].
  unfold finditer. rewrite finditer_render by exact Hall.
  rewrite Hhead at 1.
  destruct (existsb _ (enumerate_from 0 (render_attrs a))) eqn:Ex.
  - exfalso.
    pose proof (coverage_check (render_attrs a)) as Hcov.
    unfold finditer in Hcov. rewrite finditer_render in Hcov by exact Hall.
    apply Hcov in Ex as [i [d [Hi [Hd Hns']]]]. apply Hns'.
    unfold finditer. rewrite finditer_render by exact Hall.
    apply (format_attr_nonspace_covered a 0 i d); assumption.
  - f_equal. apply (foldl_set_attr_rendered a 0 []). exact Hnd.
Qed.

End RenderedAttributes.

(* ===================================================================== *)
(** * Rendering, and parsing what was rendered *)
(* ===================================================================== *)

Section RoundTrip.

Lemma enc_all_no_lt c : contains "<" (enc_all c) = false.
Proof.
  unfold enc_all.
  destruct (chr_eqb c "&"); [reflexivity|].
  destruct (chr_eqb c "<") eqn:E; [reflexivity|].
  destruct (chr_eqb c ">"); [reflexivity|].
  simpl. rewrite orb_false_r. apply chr_eqb_neq. apply chr_eqb_neq in E.
  congruence.
Qed.

Lemma escape_no_lt p : contains "<" (escapeXMLChars p) = false.
Proof.
  rewrite escape_flat_map. induction p as [|c p IH]; [reflexivity|].
  simpl. rewrite contains_app, enc_all_no_lt, IH. reflexivity.
Qed.

Lemma enc_all_blank c : blank (enc_all c) = isspace c.
Proof.
  unfold enc_all.
  destruct (chr_eqb c "&") eqn:E1; [apply chr_eqb_eq in E1; subst; reflexivity|].
  destruct (chr_eqb c "<") eqn:E2; [apply chr_eqb_eq in E2; subst; reflexivity|].
  destruct (chr_eqb c ">") eqn:E3; [apply chr_eqb_eq in E3; subst; reflexivity|].
  simpl. apply andb_true_r.
Qed.

Lemma escape_blank p : blank (escapeXMLChars p) = blank p.
Proof.
  rewrite escape_flat_map. induction p as [|c p IH]; [reflexivity|].
  simpl. rewrite blank_app, enc_all_blank, IH. reflexivity.
Qed.

Lemma contains_false_forallb c s :
  contains c s = false ->
  forallb (fun d => negb (chr_eqb c d)) s = true.
Proof.
  unfold contains. induction s as [|d s IH]; simpl; [reflexivity|].
  intros Hc. apply orb_false_iff in Hc as [Hd Hs].
  rewrite Hd, IH by exact Hs. reflexivity.
Qed.

Lemma render_tag_head n a cs :
  exists r, ssmlNodeToText (SSMLTag n a cs) = "<"%char :: r.
Proof.
  simpl. destruct (concat _), (join _ _); simpl; eauto.
Qed.

Lemma render_nonempty x : wf_node x -> ssmlNodeToText x <> [].
Proof.
  intros Hwf. destruct x as [p|n a cs].
  - inversion Hwf as [p' Hb|]; subst. simpl.
    intros He. rewrite <- escape_blank, He in Hb. discriminate.
  - destruct (render_tag_head n a cs) as [r ->]. discriminate.
Qed.

Lemma render_list_nil cs :
  Forall wf_node cs -> render_list cs = [] -> cs = [].
Proof.
  intros Hcs. destruct Hcs as [|x cs Hx _]; [reflexivity|].
  unfold render_list. simpl. intros He. apply app_eq_nil in He as [He _].
  exfalso. exact (render_nonempty x Hx He).
Qed.

Lemma render_attrs_nil a : attrs_ok a -> render_attrs a = [] -> a = [].
Proof.
  intros Ha He. destruct a as [|kv a]; [reflexivity|].
  destruct (render_attrs_head (kv :: a) Ha) as [c [r [Hr _]]]; congruence.
Qed.

Lemma render_tag_unfold n a cs :
  ssmlNodeToText (SSMLTag n a cs) =
    match render_list cs, render_attrs a with
    | [], [] => lit "<" ++ n ++ lit "/>"
    | [], _ => lit "<" ++ n ++ lit " " ++ render_attrs a ++ lit "/>"
    | _, [] => lit "<" ++ n ++ lit ">" ++ render_list cs
               ++ lit "</" ++ n ++ lit ">"
    | _, _ => lit "<" ++ n ++ lit " " ++ render_attrs a ++ lit ">"
              ++ render_list cs ++ lit "</" ++ n ++ lit ">"
    end.
Proof. reflexivity. Qed.

(** The two shapes of a rendered tag. *)
Lemma render_tag n a cs :
  attrs_ok a -> Forall wf_node cs ->
  ssmlNodeToText (SSMLTag n a cs) =
    match cs with
    | [] => "<"%char :: interior n a ++ lit "/>"
    | _ :: _ =>
        "<"%char :: interior n a ++ ">"%char :: render_list cs
                 ++ lit "</" ++ n ++ lit ">"
    end.
Proof.
  intros Ha Hcs. rewrite render_tag_unfold.
  pose proof (render_list_nil cs Hcs) as Hlist.
  pose proof (render_attrs_nil a Ha) as Hattrs.
  unfold interior.
  destruct cs as [|x cs], a as [|kv a].
  - reflexivity.
  - change (render_list []) with (@nil ascii).
    destruct (render_attrs (kv :: a)) as [|c r] eqn:E;
      [specialize (Hattrs eq_refl); discriminate|].
    cbn [app lit list_ascii_of_string]. rewrite <- !app_assoc. reflexivity.
  - change (render_attrs []) with (@nil ascii).
    destruct (render_list (x :: cs)) as [|c r] eqn:E;
      [specialize (Hlist eq_refl); discriminate|].
    reflexivity.
  - destruct (render_list (x :: cs)) as [|c r] eqn:E;
      [specialize (Hlist eq_refl); discriminate|].
    destruct (render_attrs (kv :: a)) as [|c' r'] eqn:E';
      [specialize (Hattrs eq_refl); discriminate|].
    cbn [app lit list_ascii_of_string]. rewrite <- !app_assoc. reflexivity.
Qed.

Lemma last_head_rev {A} (l : list A) : last l = head (rev l).
Proof.
  rewrite <- (rev_involutive l) at 1.
  destruct (rev l) as [|c r]; [reflexivity|]. simpl. apply last_snoc.
Qed.

Lemma name_ok_head n :
  name_ok n -> exists c r, n = c :: r /\ isspace c = false /\ c <> "/"%char.
Proof.
  intros [Hne [Hns [_ [_ Hh]]]]. destruct n as [|c r]; [congruence|].
  exists c, r. split; [reflexivity|]. simpl in *.
  apply andb_true_iff in Hns as [Hc _]. unfold nonspace in Hc.
  apply negb_true_iff in Hc. split; [exact Hc | congruence].
Qed.

Lemma interior_no_gt n a :
  name_ok n -> attrs_ok a -> contains ">" (interior n a) = false.
Proof.
  intros [_ [_ [Hgt _]]] Ha. unfold interior. destruct a; [exact Hgt|].
  rewrite !contains_app, Hgt, attrs_ok_no_gt by exact Ha. reflexivity.
Qed.

Lemma interior_head n a :
  name_ok n -> exists c r, interior n a = c :: r /\ isspace c = false
                           /\ c <> "/"%char.
Proof.
  intros Hn. destruct (name_ok_head n Hn) as [c [r [-> [Hc Hs]]]].
  unfold interior. destruct a; simpl; eauto.
Qed.

Lemma interior_rev_stops n a :
  name_ok n -> stops isspace (rev (interior n a)).
Proof.
  intros [_ [Hns _]]. unfold interior. destruct a as [|kv a].
  - apply forallb_nonspace_stops, Hns.
  - destruct (render_attrs_last (kv :: a)) as [r Hr]; [discriminate|].
    rewrite !rev_app_distr, Hr. reflexivity.
Qed.

Lemma interior_strip n a : name_ok n -> strip (interior n a) = interior n a.
Proof.
  intros Hn. apply strip_id; [|apply interior_rev_stops, Hn].
  destruct (interior_head n a Hn) as [c [r [-> [Hc _]]]]. exact Hc.
Qed.

Lemma interior_blank n a : name_ok n -> blank (interior n a) = false.
Proof.
  intros Hn. destruct (interior_head n a Hn) as [c [r [-> [Hc _]]]].
  simpl. rewrite Hc. reflexivity.
Qed.

Lemma interior_first_token n a :
  name_ok n -> first_token (interior n a) = n.
Proof.
  intros [Hne [Hns _]]. unfold interior. destruct a.
  - rewrite <- (app_nil_r n) at 1. apply first_token_app; auto. exact I.
  - apply first_token_app; auto. reflexivity.
Qed.

Lemma interior_parse_attributes n a :
  name_ok n -> attrs_ok a -> parse_attributes (interior n a) = Ok a.
Proof.
  intros Hn Ha. unfold interior. destruct a as [|kv a].
  - apply parse_attributes_name, Hn.
  - apply parse_attributes_rendered; [exact Hn | exact Ha | discriminate].
Qed.

Lemma interior_last n a :
  name_ok n -> (a = [] -> last n <> Some "/"%char) ->
  last (interior n a) <> Some "/"%char.
Proof.
  intros Hn Hl. unfold interior. destruct a as [|kv a]; [auto|].
  rewrite last_head_rev.
  destruct (render_attrs_last (kv :: a)) as [r Hr]; [discriminate|].
  rewrite !rev_app_distr, Hr. simpl. discriminate.
Qed.

(** ** One iteration on a rendered tag or text run *)

Lemma sparse_tag tc rest st :
  contains ">" tc = false ->
  sparse ("<"%char :: tc ++ ">"%char :: rest) st =
    match tag_branch (strip tc) (st_i st + 1 + length tc) st with
    | Ok st' => sparse rest st'
    | Raise e => Raise e
    end.
Proof.
  intros Hgt. rewrite sparse_cons. unfold sbody, snext.
  rewrite !bool_decide_eq_true_2 by reflexivity.
  unfold since, until.
  rewrite dropwhile_app, takewhile_app;
    try (apply contains_false_forallb, Hgt); try reflexivity.
Qed.

Lemma sparse_text text rest st :
  text <> [] -> contains "<" text = false -> stops notlt rest ->
  sparse (text ++ rest) st =
    match text_branch text (st_i st + length text) st with
    | Ok st' => sparse rest st'
    | Raise e => Raise e
    end.
Proof.
  intros Hne Hlt Hrest.
  destruct text as [|c text]; [congruence|].
  change ((c :: text) ++ rest) with (c :: text ++ rest).
  rewrite sparse_cons. unfold sbody, snext.
  assert (Hc : c <> "<"%char).
  { simpl in Hlt. apply orb_false_iff in Hlt as [Hc _].
    apply chr_eqb_neq in Hc. congruence. }
  rewrite !bool_decide_eq_false_2 by exact Hc.
  unfold since, until.
  change (c :: text ++ rest) with ((c :: text) ++ rest).
  rewrite dropwhile_app, takewhile_app;
    try (apply contains_false_forallb, Hlt); try exact Hrest.
  reflexivity.
Qed.

Lemma tag_branch_self_closing n a j st :
  name_ok n -> attrs_ok a ->
  tag_branch (strip (interior n a ++ lit "/")) j st =
    match st_stack st with
    | [] => Raise (Exception "Self-closing tag outside of root")
    | top :: stack =>
        Ok (mkState (j + 1) (append_child top (SSMLTag n a []) :: stack)
                    (st_root st) (st_seen_top_level st))
    end.
Proof.
  intros Hn Ha.
  destruct (interior_head n a Hn) as [c [r [Hi [Hc Hs]]]].
  assert (Hstrip : strip (interior n a ++ lit "/") = interior n a ++ lit "/").
  { apply strip_id.
    - rewrite Hi. exact Hc.
    - rewrite rev_app_distr. reflexivity. }
  rewrite Hstrip. unfold tag_branch.
  replace (startswith (lit "/") (interior n a ++ lit "/")) with false.
  2:{ rewrite Hi. simpl. symmetry. rewrite andb_true_r.
      apply chr_eqb_neq. congruence. }
  replace (endswith_chr "/" (interior n a ++ lit "/")) with true.
  2:{ unfold endswith_chr. change (lit "/") with ["/"%char].
      rewrite last_snoc. reflexivity. }
  replace (drop_last (interior n a ++ lit "/")) with (interior n a).
  2:{ unfold drop_last. rewrite length_app. simpl.
      replace (length (interior n a) + 1 - 1) with (length (interior n a))
        by lia.
      symmetry. apply take_app_length. }
  rewrite interior_strip, item0_split, interior_blank by exact Hn.
  rewrite interior_first_token, interior_parse_attributes by assumption.
  simpl. unfold new_SSMLTag, node_of. simpl.
  rewrite strip_token by apply Hn. reflexivity.
Qed.

Lemma tag_branch_open n a j st :
  name_ok n -> attrs_ok a -> (a = [] -> last n <> Some "/"%char) ->
  tag_branch (strip (interior n a)) j st =
    match st_stack st with
    | [] =>
        if st_seen_top_level st
        then Raise (Exception "Multiple top-level tags")
        else Ok (mkState (j + 1) [mkTag n a []]
                         (st_root st) (st_seen_top_level st))
    | _ :: _ => Ok (mkState (j + 1) (mkTag n a [] :: st_stack st)
                            (st_root st) (st_seen_top_level st))
    end.
Proof.
  intros Hn Ha Hl.
  destruct (interior_head n a Hn) as [c [r [Hi [Hc Hs]]]].
  rewrite interior_strip by exact Hn. unfold tag_branch.
  replace (startswith (lit "/") (interior n a)) with false.
  2:{ rewrite Hi. simpl. symmetry. rewrite andb_true_r.
      apply chr_eqb_neq. congruence. }
  replace (endswith_chr "/" (interior n a)) with false.
  2:{ unfold endswith_chr. pose proof (interior_last n a Hn Hl) as Hlast.
      destruct (last (interior n a)) as [d|]; [|reflexivity].
      symmetry. apply chr_eqb_neq. congruence. }
  rewrite item0_split, interior_blank by exact Hn.
  rewrite interior_first_token, interior_parse_attributes by assumption.
  simpl. unfold new_SSMLTag. rewrite strip_token by apply Hn. reflexivity.
Qed.

Lemma tag_branch_close n j st :
  name_ok n ->
  tag_branch (strip (lit "/" ++ n)) j st =
    match st_stack st with
    | [] => Raise (Exception "Unmatched closing tag")
    | top :: stack =>
        if negb (bool_decide (tag_name top = n))
        then Raise (Exception "Mismatched closing tag")
        else
          match stack with
          | parent :: stack' =>
              Ok (mkState (j + 1) (append_child parent (node_of top) :: stack')
                          (st_root st) (st_seen_top_level st))
          | [] =>
              match st_root st with
              | Some _ => Raise (Exception "Multiple top-level tags")
              | None => Ok (mkState (j + 1) [] (Some top) true)
              end
          end
    end.
Proof.
  intros Hn.
  assert (Hstrip : strip (lit "/" ++ n) = "/"%char :: n).
  { apply strip_id; [reflexivity|].
    change (lit "/" ++ n) with ("/"%char :: n). simpl rev.
    destruct Hn as [Hne [Hns _]].
    apply forallb_nonspace_stops in Hns as [_ Hr].
    destruct (rev n) as [|d r] eqn:E; [|exact Hr].
    apply (f_equal (@rev ascii)) in E. rewrite rev_involutive in E.
    simpl in E. congruence. }
  rewrite Hstrip. unfold tag_branch.
  change (startswith (lit "/") ("/"%char :: n)) with true. cbv iota.
  change (drop 1 ("/"%char :: n)) with n.
  rewrite strip_token by apply Hn. reflexivity.
Qed.

(** ** Parsing rendered children *)

Ltac norm_app :=
  repeat (progress (cbn [app lit list_ascii_of_string]; rewrite <- ?app_assoc));
  reflexivity.

Lemma SSMLNode_nested_ind (P : SSMLNode -> Prop) :
  (forall text, P (SSMLText text)) ->
  (forall n a cs, Forall P cs -> P (SSMLTag n a cs)) ->
  forall x, P x.
Proof.
  intros Ht Hg. fix IH 1. intros [t|n a cs]; [apply Ht|]. apply Hg.
  induction cs as [|c cs IHcs]; constructor; [apply IH | exact IHcs].
Qed.

Lemma ends_with_text_cons x y cs :
  ends_with_text (x :: y :: cs) = ends_with_text (y :: cs).
Proof. reflexivity. Qed.

Lemma render_list_cons x cs :
  render_list (x :: cs) = ssmlNodeToText x ++ render_list cs.
Proof. reflexivity. Qed.

Lemma children_parse cs :
  Forall (fun x => wf_node x -> parses_child x) cs ->
  Forall wf_node cs ->
  no_adjacent_text cs ->
  forall rest top stk i root seen,
    (ends_with_text cs = true -> stops notlt rest) ->
    exists j,
      sparse (render_list cs ++ rest) (mkState i (top :: stk) root seen)
      = sparse rest
          (mkState j
             (mkTag (tag_name top) (tag_attributes top)
                    (tag_children top ++ cs) :: stk) root seen).
Proof.
  induction cs as [|x cs IH]; intros HP Hwf Hadj rest top stk i root seen Hend.
  - exists i. destruct top as [n a c]. simpl. rewrite app_nil_r. reflexivity.
  - apply Forall_cons in HP as [Hx HP]. apply Forall_cons in Hwf as [Hwx Hwf].
    rewrite render_list_cons, <- app_assoc.
    destruct (Hx Hwx (render_list cs ++ rest) top stk i root seen) as [j1 E1].
    { intros Htx. destruct cs as [|y cs]; [exact (Hend Htx)|].
      destruct Hadj as [Hxy _]. rewrite Htx in Hxy. simpl in Hxy.
      destruct y as [p|n a c]; [discriminate|].
      rewrite render_list_cons.
      destruct (render_tag_head n a c) as [r ->]. reflexivity. }
    rewrite E1.
    destruct (IH HP Hwf) with (rest := rest) (top := append_child top x)
      (stk := stk) (i := j1) (root := root) (seen := seen) as [j2 E2].
    { destruct cs as [|y cs]; [exact I | apply Hadj]. }
    { destruct cs as [|y cs]; [discriminate|]. exact Hend. }
    exists j2. rewrite E2. simpl. rewrite <- app_assoc. reflexivity.
Qed.

Lemma text_parses p : blank p = false -> parses_child (SSMLText p).
Proof.
  intros Hb rest top stk i root seen Hrest. simpl ssmlNodeToText.
  assert (Hbe : blank (escapeXMLChars p) = false)
    by (rewrite escape_blank; exact Hb).
  rewrite sparse_text.
  - unfold text_branch.
    destruct (strip (escapeXMLChars p)) as [|c r] eqn:Es.
    { apply strip_nil in Es. congruence. }
    simpl st_stack. cbv iota.
    rewrite escape_flat_map, unescape_escape_flat_map. eauto.
  - intros He. rewrite He in Hbe. discriminate.
  - apply escape_no_lt.
  - apply Hrest. reflexivity.
Qed.

Lemma tag_parses n a cs :
  wf_node (SSMLTag n a cs) ->
  Forall (fun x => wf_node x -> parses_child x) cs ->
  parses_child (SSMLTag n a cs).
Proof.
  intros Hwf HP rest top stk i root seen _.
  inversion Hwf as [|n' a' cs' Hn Ha Hl Hcs Hadj]; subst.
  rewrite render_tag by assumption.
  destruct cs as [|x cs].
  - replace (("<"%char :: interior n a ++ lit "/>") ++ rest)
      with ("<"%char :: (interior n a ++ lit "/") ++ ">"%char :: rest).
    2:{ norm_app. }
    rewrite sparse_tag.
    2:{ rewrite contains_app, interior_no_gt by assumption. reflexivity. }
    rewrite tag_branch_self_closing by assumption. simpl. eauto.
  - replace (("<"%char :: interior n a ++ ">"%char :: render_list (x :: cs)
               ++ lit "</" ++ n ++ lit ">") ++ rest)
      with ("<"%char :: interior n a ++ ">"%char ::
              (render_list (x :: cs)
               ++ "<"%char :: (lit "/" ++ n) ++ ">"%char :: rest)).
    2:{ norm_app. }
    rewrite sparse_tag by (apply interior_no_gt; assumption).
    rewrite tag_branch_open; [|assumption|assumption|].
    2:{ intros Hnil. apply Hl; [exact Hnil | discriminate]. }
    simpl st_stack. cbv iota.
    destruct (children_parse (x :: cs) HP Hcs Hadj
                ("<"%char :: (lit "/" ++ n) ++ ">"%char :: rest)
                (mkTag n a []) (top :: stk)
                (i + 1 + length (interior n a) + 1) root seen)
      as [j E].
    { intros _. reflexivity. }
    simpl st_i. simpl st_root. simpl st_seen_top_level.
    rewrite E. simpl tag_name. simpl tag_attributes. simpl tag_children.
    rewrite sparse_tag.
    2:{ destruct Hn as [_ [_ [Hgt _]]]. simpl. exact Hgt. }
    rewrite tag_branch_close by exact Hn. simpl st_stack. cbv iota.
    simpl tag_name. rewrite bool_decide_eq_true_2 by reflexivity.
    simpl negb. cbv iota. unfold node_of. simpl. eauto.
Qed.

Lemma wf_parses x : wf_node x -> parses_child x.
Proof.
  induction x as [p|n a cs IH] using SSMLNode_nested_ind; intros Hwf.
  - inversion Hwf; subst. apply text_parses. assumption.
  - apply tag_parses; assumption.
Qed.

(** ** Parsing a rendered root *)

Lemma reparse_root a cs :
  wf_node (SSMLTag (lit "speak") a cs) -> cs <> [] ->
  parseSSML (ssmlNodeToText (SSMLTag (lit "speak") a cs))
  = Some (Ok (SSMLTag (lit "speak") a cs)).
Proof.
  intros Hwf Hne. rewrite parseSSML_sparse. f_equal.
  inversion Hwf as [|n' a' cs' Hn Ha Hl Hcs Hadj]; subst.
  rewrite render_tag by assumption.
  destruct cs as [|x cs]; [congruence|].
  replace ("<"%char :: interior (lit "speak") a ++ ">"%char ::
             render_list (x :: cs) ++ lit "</" ++ lit "speak" ++ lit ">")
    with ("<"%char :: interior (lit "speak") a ++ ">"%char ::
            (render_list (x :: cs)
             ++ "<"%char :: (lit "/" ++ lit "speak") ++ ">"%char :: [])).
  2:{ norm_app. }
  rewrite sparse_tag by (apply interior_no_gt; assumption).
  rewrite tag_branch_open; [|assumption|assumption|].
  2:{ intros Hnil. apply Hl; [exact Hnil | discriminate]. }
  simpl st_stack. simpl st_seen_top_level. cbv iota.
  destruct (children_parse (x :: cs)) with
    (rest := "<"%char :: (lit "/" ++ lit "speak") ++ [">"%char])
    (top := mkTag (lit "speak") a []) (stk := @nil Tag)
    (i := st_i init_state + 1 + length (interior (lit "speak") a) + 1)
    (root := @None Tag) (seen := false) as [j E].
  { eapply Forall_impl; [exact Hcs|]. intros y Hy _. apply wf_parses, Hy. }
  { exact Hcs. }
  { exact Hadj. }
  { intros _. reflexivity. }
  simpl st_root. rewrite E.
  rewrite sparse_tag by reflexivity.
  rewrite tag_branch_close by exact Hn. reflexivity.
Qed.

Lemma reparse_childless_root a :
  wf_node (SSMLTag (lit "speak") a []) ->
  parseSSML (ssmlNodeToText (SSMLTag (lit "speak") a []))
  = Some (Raise (Exception "Self-closing tag outside of root")).
Proof.
  intros Hwf. rewrite parseSSML_sparse. f_equal.
  inversion Hwf as [|n' a' cs' Hn Ha Hl Hcs Hadj]; subst.
  rewrite render_tag by assumption.
  replace ("<"%char :: interior (lit "speak") a ++ lit "/>")
    with ("<"%char :: (interior (lit "speak") a ++ lit "/") ++ ">"%char :: []).
  2:{ norm_app. }
  rewrite sparse_tag.
  2:{ rewrite contains_app, interior_no_gt by assumption. reflexivity. }
  rewrite tag_branch_self_closing by assumption. reflexivity.
Qed.

Lemma parseSSML_root ssml t :
  parseSSML ssml = Some (Ok t) ->
  exists a cs, t = SSMLTag (lit "speak") a cs.
Proof.
  rewrite parseSSML_sparse. intros [= Hp].
  destruct (sparse ssml init_state) as [st|e]; [|discriminate].
  simpl in Hp. unfold finish in Hp.
  destruct (st_stack st); [|discriminate].
  destruct (st_root st) as [root|]; [|discriminate].
  destruct (decide (tag_name root = lit "speak")) as [Hr|Hr].
  - rewrite bool_decide_eq_true_2 in Hp by exact Hr. injection Hp as <-.
    unfold node_of. rewrite Hr. eauto.
  - rewrite bool_decide_eq_false_2 in Hp by exact Hr. discriminate.
Qed.

End RoundTrip.

(* ===================================================================== *)
(** * ssml.py : further properties of the parser and the serializer *)
(* ===================================================================== *)

Section ParserFacts.

Lemma dict_get_In d k v :
  NoDup (d.*1) -> (k, v) ∈ d -> dict_get k d = Some v.
Proof.
  induction d as [|[k' v'] d IH]; csimpl; intros Hnd Hin; [inversion Hin|].
  apply NoDup_cons in Hnd as [Hk Hnd].
  destruct (decide (k = k')) as [->|Hne].
  - apply elem_of_cons in Hin as [[= ->]|Hin]; [reflexivity|].
    exfalso. apply Hk. apply list_elem_of_fmap. exists (k', v). auto.
  - apply elem_of_cons in Hin as [[= ? ?]|Hin]; [congruence|].
    apply IH; assumption.
Qed.

Lemma dict_eqb_perm d1 d2 :
  NoDup (d1.*1) -> d1 ≡ₚ d2 -> dict_eqb d1 d2 = true.
Proof.
  intros Hnd Hp. unfold dict_eqb. apply andb_true_iff. split.
  - apply Nat.eqb_eq, Permutation_length, Hp.
  - apply forallb_forall. intros [k v] Hin. apply bool_decide_eq_true.
    apply dict_get_In.
    + rewrite <- Hp. exact Hnd.
    + rewrite <- Hp. apply list_elem_of_In. exact Hin.
Qed.

Lemma children_eqb_refl cs :
  Forall (fun x => node_eqb x x = true) cs ->
  (fix list_eqb (l1 l2 : list SSMLNode) {struct l1} : bool :=
     match l1, l2 with
     | [], [] => true
     | x :: l1', y :: l2' => node_eqb x y && list_eqb l1' l2'
     | _, _ => false
     end) cs cs = true.
Proof.
  induction 1 as [|x cs Hx _ IH]; [reflexivity|]. rewrite Hx, IH. reflexivity.
Qed.

Lemma node_eqb_refl t : wf_node t -> node_eqb t t = true.
Proof.
  induction t as [p|n a cs IH] using SSMLNode_nested_ind; intros Hwf.
  - simpl. apply bool_decide_eq_true. reflexivity.
  - inversion Hwf as [|n' a' cs' Hn [Hnd Ha] Hl Hcs Hadj]; subst.
    simpl. rewrite bool_decide_eq_true_2 by reflexivity.
    rewrite dict_eqb_perm by (exact Hnd || reflexivity). simpl.
    apply children_eqb_refl.
    rewrite Forall_forall in IH, Hcs. apply Forall_forall.
    intros x Hx. apply IH; [exact Hx | apply Hcs, Hx].
Qed.

Lemma wf_subtags t :
  wf_node t ->
  forall n a cs,
    (n, a, cs) ∈ subtags t ->
    name_ok n /\ attrs_ok a /\ no_adjacent_text cs.
Proof.
  induction t as [p|n a cs IH] using SSMLNode_nested_ind; intros Hwf n0 a0 cs0 Hin.
  - inversion Hin.
  - inversion Hwf as [|n' a' cs' Hn Ha Hl Hcs Hadj]; subst.
    simpl in Hin. apply elem_of_cons in Hin as [[= -> -> ->]|Hin]; [auto|].
    apply list_elem_of_In, in_flat_map in Hin as [x [Hx Hin]].
    apply list_elem_of_In in Hx, Hin.
    rewrite Forall_forall in IH, Hcs.
    exact (IH x Hx (Hcs x Hx) n0 a0 cs0 Hin).
Qed.

Lemma blank_no_lt s : blank s = true -> contains "<" s = false.
Proof.
  unfold blank, contains. induction s as [|c s IH]; simpl; [reflexivity|].
  intros Hb. apply andb_true_iff in Hb as [Hc Hs]. rewrite IH by exact Hs.
  rewrite orb_false_r. apply chr_eqb_neq. intros <-. discriminate.
Qed.

Lemma blank_no_gt s : blank s = true -> contains ">" s = false.
Proof.
  unfold blank, contains. induction s as [|c s IH]; simpl; [reflexivity|].
  intros Hb. apply andb_true_iff in Hb as [Hc Hs]. rewrite IH by exact Hs.
  rewrite orb_false_r. apply chr_eqb_neq. intros <-. discriminate.
Qed.

Lemma sparse_only_text ssml st :
  ssml <> [] -> contains "<" ssml = false ->
  sparse ssml st = text_branch ssml (st_i st + length ssml) st.
Proof.
  intros Hne Hlt. rewrite <- (app_nil_r ssml) at 1.
  rewrite sparse_text; [|exact Hne|exact Hlt|exact I].
  destruct (text_branch ssml (st_i st + length ssml) st); reflexivity.
Qed.

(** The parser returns or raises on every input: its loop ends within
    [len(ssml)] iterations. *)
Theorem parseSSML_total (ssml : str) :
  exists r, parseSSML ssml = Some r.
Proof. rewrite parseSSML_sparse. eauto. Qed.

(** A tree returned by the parser whose root has at least one child is
    returned again, equal under [__eq__], by parsing its rendering. *)
Theorem parse_render_roundtrip (ssml : str) n a c cs :
  parseSSML ssml = Some (Ok (SSMLTag n a (c :: cs))) ->
  parseSSML (ssmlNodeToText (SSMLTag n a (c :: cs)))
  = Some (Ok (SSMLTag n a (c :: cs)))
  /\ node_eqb (SSMLTag n a (c :: cs)) (SSMLTag n a (c :: cs)) = true.
Proof.
  intros Hp. pose proof (parseSSML_wf _ _ Hp) as Hwf.
  destruct (parseSSML_root _ _ Hp) as [a' [cs' [= -> _ _]]].
  split; [apply reparse_root; [exact Hwf | discriminate]|].
  apply node_eqb_refl, Hwf.
Qed.

Lemma parse_render_roundtrip_witness :
  parseSSML (ssmlNodeToText
    (SSMLTag (lit "speak") [(lit "a", lit "1")] [SSMLText (lit "x & y")]))
  = Some (Ok (SSMLTag (lit "speak") [(lit "a", lit "1")]
                      [SSMLText (lit "x & y")]))
  /\ node_eqb
       (SSMLTag (lit "speak") [(lit "a", lit "1")] [SSMLText (lit "x & y")])
       (SSMLTag (lit "speak") [(lit "a", lit "1")] [SSMLText (lit "x & y")])
     = true.
Proof.
  apply (parse_render_roundtrip
           (lit "<speak a = " ++ [dquote] ++ lit "1" ++ [dquote]
            ++ lit " >x &amp; y</speak >")).
  vm_compute. reflexivity.
Defined.

(** A tree returned by the parser whose root has no child is rendered as a
    self-closing tag, which the parser rejects at top level. *)
Theorem parse_render_childless_root (ssml : str) n a :
  parseSSML ssml = Some (Ok (SSMLTag n a [])) ->
  parseSSML (ssmlNodeToText (SSMLTag n a []))
  = Some (Raise (Exception "Self-closing tag outside of root")).
Proof.
  intros Hp. pose proof (parseSSML_wf _ _ Hp) as Hwf.
  destruct (parseSSML_root _ _ Hp) as [a' [cs' [= -> _ _]]].
  apply reparse_childless_root, Hwf.
Qed.

Lemma parse_render_childless_root_witness :
  parseSSML (ssmlNodeToText (SSMLTag (lit "speak") [] []))
  = Some (Raise (Exception "Self-closing tag outside of root")).
Proof.
  apply (parse_render_childless_root (lit "<speak>  </speak>")).
  vm_compute. reflexivity.
Defined.

(** The root of a parse result is a Tag named [speak], and the name of
    every Tag in it is non-empty, has no whitespace, no [>] and no single
    quote, and does not start with [/]. *)
Theorem parse_tag_names (ssml : str) t :
  parseSSML ssml = Some (Ok t) ->
  (exists a cs, t = SSMLTag (lit "speak") a cs)
  /\ forall n a cs, (n, a, cs) ∈ subtags t -> name_ok n.
Proof.
  intros Hp. split; [eapply parseSSML_root; exact Hp|].
  intros n a cs Hin.
  apply (wf_subtags t (parseSSML_wf _ _ Hp)) in Hin. tauto.
Qed.

Lemma parse_tag_names_witness :
  (exists a cs, SSMLTag (lit "speak") [] [SSMLTag (lit "p") [] []]
                = SSMLTag (lit "speak") a cs)
  /\ forall n a cs,
       (n, a, cs) ∈ subtags (SSMLTag (lit "speak") [] [SSMLTag (lit "p") [] []]) ->
       name_ok n.
Proof.
  apply (parse_tag_names (lit "<speak><p/></speak>")).
  vm_compute. reflexivity.
Defined.

(** In a parse result the attribute keys of a Tag are distinct, each a
    non-empty run of [[\w:-]] characters, and no attribute value has a
    double quote, a [>] or a single quote. *)
Theorem parse_attributes_well_formed (ssml : str) t n a cs :
  parseSSML ssml = Some (Ok t) ->
  (n, a, cs) ∈ subtags t ->
  NoDup (a.*1)
  /\ Forall (fun kv => key_ok kv.1 /\ val_ok kv.2) a.
Proof.
  intros Hp Hin.
  apply (wf_subtags t (parseSSML_wf _ _ Hp)) in Hin as [_ [Ha _]]. exact Ha.
Qed.

Lemma parse_attributes_well_formed_witness :
  NoDup ([(lit "a", lit "2")].*1)
  /\ Forall (fun kv => key_ok kv.1 /\ val_ok kv.2) [(lit "a", lit "2")].
Proof.
  apply (parse_attributes_well_formed
           (lit "<speak a=" ++ [dquote] ++ lit "1" ++ [dquote]
            ++ lit " a=" ++ [dquote] ++ lit "2" ++ [dquote] ++ lit ">x</speak>")
           (SSMLTag (lit "speak") [(lit "a", lit "2")] [SSMLText (lit "x")])
           (lit "speak") [(lit "a", lit "2")] [SSMLText (lit "x")]).
  - vm_compute. reflexivity.
  - left.
Defined.

(** In a parse result no Tag has two Text children in a row: a text run is
    stored whole. *)
Theorem parse_no_adjacent_text (ssml : str) t n a cs :
  parseSSML ssml = Some (Ok t) ->
  (n, a, cs) ∈ subtags t ->
  no_adjacent_text cs.
Proof.
  intros Hp Hin.
  apply (wf_subtags t (parseSSML_wf _ _ Hp)) in Hin. tauto.
Qed.

Lemma parse_no_adjacent_text_witness :
  no_adjacent_text [SSMLText (lit "a > b"); SSMLTag (lit "p") [] []].
Proof.
  apply (parse_no_adjacent_text
           (lit "<speak>a > b<p/>  </speak>")
           (SSMLTag (lit "speak") []
                    [SSMLText (lit "a > b"); SSMLTag (lit "p") [] []])
           (lit "speak") []).
  - vm_compute. reflexivity.
  - left.
Defined.

(** An empty or whitespace-only input is rejected for its missing root. *)
Theorem parse_blank_input (ssml : str) :
  blank ssml = true ->
  parseSSML ssml = Some (Raise (Exception "Root tag must be <speak>")).
Proof.
  intros Hb. rewrite parseSSML_sparse. f_equal.
  destruct ssml as [|c r]; [reflexivity|].
  rewrite sparse_only_text; [|discriminate|apply blank_no_lt, Hb].
  unfold text_branch. rewrite (proj2 (strip_nil (c :: r)) Hb). reflexivity.
Qed.

Lemma parse_blank_input_witness :
  parseSSML (lit "  ") = Some (Raise (Exception "Root tag must be <speak>")).
Proof. apply parse_blank_input. reflexivity. Defined.

(** An input with a non-whitespace character and no [<] is rejected as text
    outside the root. *)
Theorem parse_text_only_input (ssml : str) :
  blank ssml = false -> contains "<" ssml = false ->
  parseSSML ssml = Some (Raise (Exception "Text outside root tag")).
Proof.
  intros Hb Hlt. rewrite parseSSML_sparse. f_equal.
  destruct ssml as [|c r]; [discriminate|].
  rewrite sparse_only_text; [|discriminate|exact Hlt].
  unfold text_branch.
  destruct (strip (c :: r)) as [|d r'] eqn:Es; [|reflexivity].
  apply strip_nil in Es. congruence.
Qed.

Lemma parse_text_only_input_witness :
  parseSSML (lit "hello") = Some (Raise (Exception "Text outside root tag")).
Proof. apply parse_text_only_input; reflexivity. Defined.

(** An input that starts with a tag whose interior is empty or
    whitespace-only makes the parser raise [IndexError]. *)
Theorem parse_blank_tag_interior (inner post : str) :
  blank inner = true ->
  parseSSML ("<"%char :: inner ++ ">"%char :: post) = Some (Raise IndexError).
Proof.
  intros Hb. rewrite parseSSML_sparse. f_equal.
  rewrite sparse_tag by (apply blank_no_gt, Hb).
  rewrite (proj2 (strip_nil inner) Hb). reflexivity.
Qed.

Lemma parse_blank_tag_interior_witness :
  parseSSML ("<"%char :: lit " " ++ ">"%char :: lit "<speak/>")
  = Some (Raise IndexError).
Proof. apply parse_blank_tag_interior. reflexivity. Defined.

(** An input that starts with [<] and has no [>] is rejected for its
    unterminated tag. *)
Theorem parse_unterminated_tag (s : str) :
  contains ">" s = false ->
  parseSSML ("<"%char :: s)
  = Some (Raise (Exception "Missing closing angle bracket")).
Proof.
  intros Hgt. rewrite parseSSML_sparse. f_equal.
  rewrite sparse_cons. unfold sbody.
  rewrite bool_decide_eq_true_2 by reflexivity.
  unfold since. rewrite <- (app_nil_r s).
  rewrite dropwhile_app; [reflexivity | | exact I].
  apply contains_false_forallb, Hgt.
Qed.

Lemma parse_unterminated_tag_witness :
  parseSSML ("<"%char :: lit "speak")
  = Some (Raise (Exception "Missing closing angle bracket")).
Proof. apply parse_unterminated_tag. reflexivity. Defined.

(** ** The exceptions of the parser *)

Lemma item0_raise {A} (l : list A) e : item0 l = Raise e -> e = IndexError.
Proof. destruct l; [intros [= <-]; reflexivity | discriminate]. Qed.

Ltac kind_of_literal :=
  first [ left; reflexivity | right; eexists; reflexivity ].

Ltac split_matches H :=
  repeat match type of H with
         | context [match ?x with _ => _ end] => destruct x eqn:?
         end.

Lemma parse_attributes_raise tag_str e :
  parse_attributes tag_str = Raise e ->
  e = IndexError \/ is_Some (error_kind e).
Proof.
  unfold parse_attributes, mbind, result_bind. intros H. split_matches H;
    try discriminate; injection H as <-; try kind_of_literal.
  left. eapply item0_raise. eassumption.
Qed.

Lemma tag_branch_raise tc j st e :
  tag_branch tc j st = Raise e ->
  e = IndexError \/ is_Some (error_kind e).
Proof.
  unfold tag_branch, mbind, result_bind. intros H. split_matches H;
    try discriminate; injection H as <-; try kind_of_literal;
    first [ left; eapply item0_raise; eassumption
          | eapply parse_attributes_raise; eassumption ].
Qed.

Lemma text_branch_raise text j st e :
  text_branch text j st = Raise e -> is_Some (error_kind e).
Proof.
  unfold text_branch. intros H. split_matches H;
    try discriminate; injection H as <-. eexists; reflexivity.
Qed.

Lemma sbody_raise rest st e :
  sbody rest st = Raise e -> e = IndexError \/ is_Some (error_kind e).
Proof.
  unfold sbody. destruct rest as [|c after]; [discriminate|].
  destruct (bool_decide (c = "<"%char)).
  - destruct (since ">" after); [intros [= <-]; kind_of_literal|].
    apply tag_branch_raise.
  - intros H. right. eapply text_branch_raise. exact H.
Qed.

Lemma sparse_raise n :
  forall rest st e,
    length rest <= n ->
    sparse rest st = Raise e -> e = IndexError \/ is_Some (error_kind e).
Proof.
  induction n as [|n IH]; intros rest st e Hn Hp.
  - destruct rest; [|simpl in Hn; lia]. rewrite sparse_nil in Hp. discriminate.
  - destruct rest as [|c r]; [rewrite sparse_nil in Hp; discriminate|].
    rewrite sparse_cons in Hp.
    destruct (sbody (c :: r) st) as [st1|e1] eqn:Eb.
    + pose proof (snext_shorter (c :: r) ltac:(discriminate)) as Hs.
      change (length (c :: r)) with (S (length r)) in *.
      apply (IH (snext (c :: r)) st1); [lia | exact Hp].
    + injection Hp as <-. eapply sbody_raise. exact Eb.
Qed.

(** Whatever the input, an exception raised by the parser is the built-in
    [IndexError] or carries one of the parser's own messages. *)
Theorem parseSSML_exceptions (ssml : str) e :
  parseSSML ssml = Some (Raise e) ->
  e = IndexError \/ is_Some (error_kind e).
Proof.
  rewrite parseSSML_sparse. intros [= Hp].
  destruct (sparse ssml init_state) as [st|e1] eqn:Es.
  - right. simpl in Hp. unfold finish in Hp. split_matches Hp;
      try discriminate; injection Hp as <-; eexists; reflexivity.
  - injection Hp as <-.
    apply (sparse_raise (length ssml) ssml init_state); [lia | exact Es].
Qed.

Lemma parseSSML_exceptions_witness :
  Exception "Unclosed tags remaining" = IndexError
  \/ is_Some (error_kind (Exception "Unclosed tags remaining")).
Proof.
  apply (parseSSML_exceptions (lit "<speak>")). vm_compute. reflexivity.
Defined.

(** ** Attributes *)

(** The attribute pattern matches at the start of a string exactly when the
    string starts with a key, optional whitespace, [=], optional whitespace
    and a double-quoted value, and then the groups and the length of the
    match are determined. *)
Theorem attribute_pattern_match (s : str) n k v :
  match_here s = Some (n, k, v) <-> pattern_shape s n k v.
Proof.
  split.
  - apply match_here_sound.
  - intros [ws1 [ws2 [rest [-> [Hk [H1 [H2 [Hv ->]]]]]]]].
    apply match_here_complete; assumption.
Qed.

(** The serializer writes a childless tag as [<], the name, the attributes
    and [/>]; [parse_attributes] reads back from what is between [<] and
    [/>] the same attributes in the same order. *)
Theorem parse_attributes_of_rendered (n : str) (a : dict) :
  name_ok n -> attrs_ok a ->
  ssmlNodeToText (SSMLTag n a []) = "<"%char :: interior n a ++ lit "/>"
  /\ parse_attributes (interior n a) = Ok a.
Proof.
  intros Hn Ha. split.
  - apply (render_tag n a []); [exact Ha | constructor].
  - apply interior_parse_attributes; assumption.
Qed.

Lemma parse_attributes_of_rendered_witness :
  ssmlNodeToText
    (SSMLTag (lit "voice") [(lit "name", lit "a b"); (lit "xml:lang", lit "")] [])
  = "<"%char
      :: interior (lit "voice") [(lit "name", lit "a b"); (lit "xml:lang", lit "")]
      ++ lit "/>"
  /\ parse_attributes
       (interior (lit "voice") [(lit "name", lit "a b"); (lit "xml:lang", lit "")])
     = Ok [(lit "name", lit "a b"); (lit "xml:lang", lit "")].
Proof.
  apply parse_attributes_of_rendered.
  - repeat split; try reflexivity; discriminate.
  - split.
    + apply (bool_decide_unpack _). vm_compute. exact I.
    + repeat constructor; discriminate.
Defined.

Lemma dict_get_set k k' v d :
  dict_get k (dict_set k' v d) = if decide (k = k') then Some v else dict_get k d.
Proof.
  induction d as [|[k0 v0] d IH]; simpl.
  - repeat case_decide; congruence.
  - destruct (decide (k' = k0)) as [->|Hne]; simpl.
    + repeat case_decide; congruence.
    + rewrite IH. repeat case_decide; congruence.
Qed.

Lemma foldl_set_attr_get k ms :
  forall acc,
    dict_get k (foldl set_attr acc ms)
    = match last (filter (fun m => m_key m = k) ms) with
      | Some m => Some (m_val m)
      | None => dict_get k acc
      end.
Proof.
  induction ms as [|m ms IH]; intros acc; [reflexivity|].
  simpl foldl. rewrite IH. unfold set_attr. rewrite dict_get_set.
  rewrite filter_cons. destruct (decide (m_key m = k)) as [Hk|Hk].
  - destruct (filter (fun m0 => m_key m0 = k) ms) as [|m1 l] eqn:El.
    + simpl. rewrite decide_True by congruence. reflexivity.
    + rewrite last_cons_cons.
      destruct (last (m1 :: l)) eqn:E; [reflexivity|].
      apply last_None in E. discriminate.
  - destruct (last (filter (fun m0 => m_key m0 = k) ms)); [reflexivity|].
    rewrite decide_False by congruence. reflexivity.
Qed.

(** When the attribute text has several matches with the same key,
    [parse_attributes] keeps the value of the last one; a key without a
    match is not in the result. *)
Theorem parse_attributes_last_wins (tag_str : str) (a : dict) (k : str) :
  parse_attributes tag_str = Ok a ->
  let attr_str :=
    strip (drop (length (first_token (strip tag_str))) tag_str) in
  dict_get k a
  = m_val <$> last (filter (fun m => m_key m = k) (finditer attr_str)).
Proof.
  unfold parse_attributes.
  destruct (contains "'" tag_str); [discriminate|].
  rewrite item0_split.
  destruct (blank (strip tag_str)); [discriminate|]. simpl.
  destruct (strip (drop (length (first_token (strip tag_str))) tag_str))
    as [|c attr_str] eqn:Ea.
  { intros [= <-]. reflexivity. }
  destruct (existsb _ (enumerate_from 0 (c :: attr_str))); [discriminate|].
  intros [= <-]. fold set_attr. rewrite foldl_set_attr_get.
  destruct (last _); reflexivity.
Qed.

Lemma parse_attributes_last_wins_witness :
  let attr_str :=
    strip (drop (length (first_token (strip
      (lit "p x=" ++ [dquote] ++ lit "1" ++ [dquote]
       ++ lit " x=" ++ [dquote] ++ lit "2" ++ [dquote]))))
      (lit "p x=" ++ [dquote] ++ lit "1" ++ [dquote]
       ++ lit " x=" ++ [dquote] ++ lit "2" ++ [dquote])) in
  dict_get (lit "x") [(lit "x", lit "2")]
  = m_val <$> last (filter (fun m => m_key m = lit "x") (finditer attr_str)).
Proof.
  apply (parse_attributes_last_wins
           (lit "p x=" ++ [dquote] ++ lit "1" ++ [dquote]
            ++ lit " x=" ++ [dquote] ++ lit "2" ++ [dquote])).
  vm_compute. reflexivity.
Defined.

(** ** Escaping *)

(** The escaped form of a text has neither [<] nor [>], so a rendered text
    run cannot be read as markup. *)
Theorem escape_no_markup (p : str) :
  contains "<" (escapeXMLChars p) = false
  /\ contains ">" (escapeXMLChars p) = false.
Proof.
  split; [apply escape_no_lt|].
  rewrite escape_flat_map. induction p as [|c p IH]; [reflexivity|].
  simpl. rewrite contains_app, IH, orb_false_r. unfold enc_all.
  destruct (chr_eqb c "&") eqn:E1; [reflexivity|].
  destruct (chr_eqb c "<") eqn:E2; [reflexivity|].
  destruct (chr_eqb c ">") eqn:E3; [reflexivity|].
  simpl. rewrite orb_false_r. apply chr_eqb_neq. apply chr_eqb_neq in E3.
  congruence.
Qed.

(** ** Equality of nodes *)

Lemma children_eqb_Forall2 cs1 cs2 :
  Forall2 (fun x y => node_eqb x y = true) cs1 cs2 ->
  (fix list_eqb (l1 l2 : list SSMLNode) {struct l1} : bool :=
     match l1, l2 with
     | [], [] => true
     | x :: l1', y :: l2' => node_eqb x y && list_eqb l1' l2'
     | _, _ => false
     end) cs1 cs2 = true.
Proof.
  induction 1 as [|x y cs1 cs2 Hxy _ IH]; [reflexivity|].
  rewrite Hxy, IH. reflexivity.
Qed.

(** Two tags with the same name are equal under [__eq__] when their
    children are equal one by one and their attributes are the same items
    (of distinct keys, as in any dict) in any order.  Nothing is asked of
    the names, the texts or the shape of the children. *)
Theorem tag_eq_ignores_attribute_order n a1 a2 cs1 cs2 :
  NoDup (a1.*1) -> a1 ≡ₚ a2 ->
  Forall2 (fun x y => node_eqb x y = true) cs1 cs2 ->
  node_eqb (SSMLTag n a1 cs1) (SSMLTag n a2 cs2) = true.
Proof.
  intros Hnd Hp Hcs. simpl.
  rewrite bool_decide_eq_true_2 by reflexivity.
  rewrite dict_eqb_perm by assumption. simpl.
  apply children_eqb_Forall2, Hcs.
Qed.

Lemma tag_eq_ignores_attribute_order_witness :
  node_eqb
    (SSMLTag (lit "p q") [(lit "a", lit "1"); (lit "b", lit "2")]
             [SSMLText (lit " "); SSMLTag (lit "") [(lit "k", lit "'")] []])
    (SSMLTag (lit "p q") [(lit "b", lit "2"); (lit "a", lit "1")]
             [SSMLText (lit " "); SSMLTag (lit "") [(lit "k", lit "'")] []])
  = true.
Proof.
  apply tag_eq_ignores_attribute_order.
  - apply (bool_decide_unpack _). vm_compute. exact I.
  - apply perm_swap.
  - repeat constructor.
Defined.

(** ** Self-closing tags *)

Ltac flatten_app :=
  repeat (progress (cbn [app lit list_ascii_of_string]; rewrite <- ?app_assoc));
  reflexivity.

Lemma name_ok_speak : name_ok (lit "speak").
Proof. repeat split; try reflexivity; discriminate. Qed.

Lemma attrs_ok_nil : attrs_ok [].
Proof. split; constructor. Qed.

(** Under the root, a self-closing tag and an open tag closed at once give
    the same tree: one childless Tag with the tag's name and attributes. *)
Theorem self_closing_same_as_empty_pair (n : str) (a : dict) :
  name_ok n -> attrs_ok a -> (a = [] -> last n <> Some "/"%char) ->
  parseSSML (lit "<speak><" ++ interior n a ++ lit "/></speak>")
  = Some (Ok (SSMLTag (lit "speak") [] [SSMLTag n a []]))
  /\ parseSSML (lit "<speak><" ++ interior n a ++ lit "></" ++ n
                ++ lit "></speak>")
     = Some (Ok (SSMLTag (lit "speak") [] [SSMLTag n a []])).
Proof.
  intros Hn Ha Hl. split.
  - assert (Hwf : wf_node (SSMLTag n a [])).
    { constructor; try assumption; [congruence | constructor | exact I]. }
    assert (Hroot : wf_node (SSMLTag (lit "speak") [] [SSMLTag n a []])).
    { constructor;
        [exact name_ok_speak | exact attrs_ok_nil | discriminate
        | constructor; [exact Hwf | constructor] | exact I]. }
    rewrite <- (reparse_root [] [SSMLTag n a []] Hroot) by discriminate.
    f_equal.
    rewrite render_tag;
      [|exact attrs_ok_nil|constructor; [exact Hwf | constructor]].
    rewrite render_list_cons. change (render_list []) with (@nil ascii).
    rewrite (render_tag n a []); [|exact Ha|constructor].
    unfold interior at 2. flatten_app.
  - rewrite parseSSML_sparse. f_equal.
    replace (lit "<speak><" ++ interior n a ++ lit "></" ++ n ++ lit "></speak>")
      with ("<"%char :: interior (lit "speak") [] ++ ">"%char ::
            "<"%char :: interior n a ++ ">"%char ::
            "<"%char :: (lit "/" ++ n) ++ ">"%char ::
            "<"%char :: (lit "/" ++ lit "speak") ++ ">"%char :: []).
    2:{ unfold interior at 1. flatten_app. }
    rewrite sparse_tag by reflexivity.
    rewrite tag_branch_open;
      [|exact name_ok_speak|exact attrs_ok_nil|discriminate].
    simpl st_stack. simpl st_seen_top_level. cbv iota.
    rewrite sparse_tag by (apply interior_no_gt; assumption).
    rewrite tag_branch_open by assumption.
    simpl st_stack. cbv iota.
    rewrite sparse_tag.
    2:{ destruct Hn as [_ [_ [Hgt _]]]. simpl. exact Hgt. }
    rewrite tag_branch_close by exact Hn. simpl st_stack. cbv iota.
    simpl tag_name. rewrite bool_decide_eq_true_2 by reflexivity.
    simpl negb. cbv iota.
    rewrite sparse_tag by reflexivity.
    rewrite tag_branch_close by exact name_ok_speak. reflexivity.
Qed.

Lemma self_closing_same_as_empty_pair_witness :
  parseSSML (lit "<speak><" ++ interior (lit "break") [(lit "time", lit "1s")]
             ++ lit "/></speak>")
  = Some (Ok (SSMLTag (lit "speak") []
                [SSMLTag (lit "break") [(lit "time", lit "1s")] []]))
  /\ parseSSML (lit "<speak><" ++ interior (lit "break") [(lit "time", lit "1s")]
                ++ lit "></" ++ lit "break" ++ lit "></speak>")
     = Some (Ok (SSMLTag (lit "speak") []
                   [SSMLTag (lit "break") [(lit "time", lit "1s")] []])).
Proof.
  apply self_closing_same_as_empty_pair.
  - repeat split; try reflexivity; discriminate.
  - split.
    + apply (bool_decide_unpack _). vm_compute. exact I.
    + repeat constructor; discriminate.
  - discriminate.
Defined.

End ParserFacts.

(* ===================================================================== *)
(** * lru.py : the cache refines a list of entries in recency order *)
(* ===================================================================== *)

Module LRUFacts.
Import LRU LRUSpec.

Local Notation "x <- m ;; k" := (bind m (fun x => k))
  (at level 100, m at level 99, k at level 200, right associativity).
Local Notation "m ;;; k" := (bind m (fun _ => k))
  (at level 100, k at level 200, right associativity).

Section Heap.
Context {K : Type} `{Countable K} {V : Type}.
Implicit Types (h : gmap loc (Node K V)) (s : LRUCache K V) (x y : loc).

Lemma next_of_upd_next_eq h x q :
  is_Some (h !! x) -> next_of (upd_next h x q) x = q.
Proof.
  intros [n Hn]. unfold next_of, upd_next.
  rewrite lookup_alter, decide_True, Hn by reflexivity. reflexivity.
Qed.

Lemma next_of_upd_next_ne h x q y :
  x <> y -> next_of (upd_next h x q) y = next_of h y.
Proof.
  intros Hne. unfold next_of, upd_next.
  rewrite lookup_alter, decide_False by exact Hne. reflexivity.
Qed.

Lemma prev_of_upd_prev_eq h x p :
  is_Some (h !! x) -> prev_of (upd_prev h x p) x = p.
Proof.
  intros [n Hn]. unfold prev_of, upd_prev.
  rewrite lookup_alter, decide_True, Hn by reflexivity. reflexivity.
Qed.

Lemma prev_of_upd_prev_ne h x p y :
  x <> y -> prev_of (upd_prev h x p) y = prev_of h y.
Proof.
  intros Hne. unfold prev_of, upd_prev.
  rewrite lookup_alter, decide_False by exact Hne. reflexivity.
Qed.

Lemma value_of_upd_value_eq h x v :
  is_Some (h !! x) -> value_of (upd_value h x v) x = v.
Proof.
  intros [n Hn]. unfold value_of, upd_value.
  rewrite lookup_alter, decide_True, Hn by reflexivity. reflexivity.
Qed.

Lemma value_of_upd_value_ne h x v y :
  x <> y -> value_of (upd_value h x v) y = value_of h y.
Proof.
  intros Hne. unfold value_of, upd_value.
  rewrite lookup_alter, decide_False by exact Hne. reflexivity.
Qed.

Ltac field_frame :=
  intros; unfold next_of, prev_of, key_of, value_of,
    upd_next, upd_prev, upd_value;
  rewrite lookup_alter; case_decide; subst; [|reflexivity];
  match goal with |- context [?h !! ?x] => destruct (h !! x) end;
  reflexivity.

Lemma prev_of_upd_next h x q y : prev_of (upd_next h x q) y = prev_of h y.
Proof. field_frame. Qed.
Lemma key_of_upd_next h x q y : key_of (upd_next h x q) y = key_of h y.
Proof. field_frame. Qed.
Lemma value_of_upd_next h x q y : value_of (upd_next h x q) y = value_of h y.
Proof. field_frame. Qed.
Lemma next_of_upd_prev h x p y : next_of (upd_prev h x p) y = next_of h y.
Proof. field_frame. Qed.
Lemma key_of_upd_prev h x p y : key_of (upd_prev h x p) y = key_of h y.
Proof. field_frame. Qed.
Lemma value_of_upd_prev h x p y : value_of (upd_prev h x p) y = value_of h y.
Proof. field_frame. Qed.
Lemma next_of_upd_value h x v y : next_of (upd_value h x v) y = next_of h y.
Proof. field_frame. Qed.
Lemma prev_of_upd_value h x v y : prev_of (upd_value h x v) y = prev_of h y.
Proof. field_frame. Qed.
Lemma key_of_upd_value h x v y : key_of (upd_value h x v) y = key_of h y.
Proof. field_frame. Qed.

Lemma is_Some_upd_next h x q y :
  is_Some (upd_next h x q !! y) <-> is_Some (h !! y).
Proof.
  unfold upd_next. rewrite lookup_alter. case_decide; subst; [|tauto].
  rewrite fmap_is_Some. tauto.
Qed.

Lemma is_Some_upd_prev h x p y :
  is_Some (upd_prev h x p !! y) <-> is_Some (h !! y).
Proof.
  unfold upd_prev. rewrite lookup_alter. case_decide; subst; [|tauto].
  rewrite fmap_is_Some. tauto.
Qed.

Lemma is_Some_upd_value h x v y :
  is_Some (upd_value h x v !! y) <-> is_Some (h !! y).
Proof.
  unfold upd_value. rewrite lookup_alter. case_decide; subst; [|tauto].
  rewrite fmap_is_Some. tauto.
Qed.

Lemma insert_as_alter h x n (f : Node K V -> Node K V) :
  h !! x = Some n -> <[x := f n]> h = alter f x h.
Proof.
  intros Hn. apply map_eq. intros y.
  rewrite lookup_insert, lookup_alter. case_decide; subst; [|reflexivity].
  rewrite Hn. reflexivity.
Qed.

(** ** The primitives of the state monad *)

Lemma bind_val {A B} (m : M A) (f : A -> M B) s a s1 :
  m s = (Val a, s1) -> bind m f s = f a s1.
Proof. intros Hm. unfold bind. rewrite Hm. reflexivity. Qed.

Lemma get_prev_val s x :
  is_Some (heap s !! x) ->
  get_prev (Some x) s = (Val (prev_of (heap s) x), s).
Proof.
  intros [n Hn]. unfold get_prev, bind, load, prev_of. rewrite Hn.
  reflexivity.
Qed.

Lemma get_next_val s x :
  is_Some (heap s !! x) ->
  get_next (Some x) s = (Val (next_of (heap s) x), s).
Proof.
  intros [n Hn]. unfold get_next, bind, load, next_of. rewrite Hn.
  reflexivity.
Qed.

Lemma get_key_val s x :
  is_Some (heap s !! x) ->
  get_key (Some x) s = (Val (key_of (heap s) x), s).
Proof.
  intros [n Hn]. unfold get_key, bind, load, key_of. rewrite Hn.
  reflexivity.
Qed.

Lemma get_value_val s x :
  is_Some (heap s !! x) ->
  get_value (Some x) s = (Val (value_of (heap s) x), s).
Proof.
  intros [n Hn]. unfold get_value, bind, load, value_of. rewrite Hn.
  reflexivity.
Qed.

Lemma put_next_val s x q :
  is_Some (heap s !! x) ->
  put_next (Some x) q s = (Val tt, set_heap (upd_next (heap s) x q) s).
Proof.
  intros [n Hn]. unfold put_next, bind, load, store, upd_next. rewrite Hn.
  rewrite (insert_as_alter _ _ n (fun n => mkNode (key n) (value n) (prev n) q))
    by exact Hn.
  reflexivity.
Qed.

Lemma put_prev_val s x p :
  is_Some (heap s !! x) ->
  put_prev (Some x) p s = (Val tt, set_heap (upd_prev (heap s) x p) s).
Proof.
  intros [n Hn]. unfold put_prev, bind, load, store, upd_prev. rewrite Hn.
  rewrite (insert_as_alter _ _ n (fun n => mkNode (key n) (value n) p (next n)))
    by exact Hn.
  reflexivity.
Qed.

Lemma put_value_val s x v :
  is_Some (heap s !! x) ->
  put_value (Some x) v s = (Val tt, set_heap (upd_value (heap s) x v) s).
Proof.
  intros [n Hn]. unfold put_value, bind, load, store, upd_value. rewrite Hn.
  rewrite (insert_as_alter _ _ n (fun n => mkNode (key n) v (prev n) (next n)))
    by exact Hn.
  reflexivity.
Qed.

End Heap.

Section Links.
Context {K : Type} `{Countable K} {V : Type}.
Implicit Types (h : gmap loc (Node K V)) (s : LRUCache K V) (x y : loc).

Lemma linked_app h l1 a l2 :
  linked h (l1 ++ a :: l2) <-> linked h (l1 ++ [a]) /\ linked h (a :: l2).
Proof.
  induction l1 as [|c l1 IH]; [simpl; tauto|].
  destruct l1 as [|d l1].
  - simpl. destruct l2; tauto.
  - change ((c :: d :: l1) ++ a :: l2) with (c :: d :: (l1 ++ a :: l2)).
    change ((c :: d :: l1) ++ [a]) with (c :: d :: (l1 ++ [a])).
    change (linked h (c :: d :: l1 ++ a :: l2))
      with (next_of h c = Some d /\ prev_of h d = Some c
            /\ linked h ((d :: l1) ++ a :: l2)).
    change (linked h (c :: d :: l1 ++ [a]))
      with (next_of h c = Some d /\ prev_of h d = Some c
            /\ linked h ((d :: l1) ++ [a])).
    rewrite IH. tauto.
Qed.

Lemma linked_upd_next h l x q :
  x ∉ removelast l -> linked h l -> linked (upd_next h x q) l.
Proof.
  induction l as [|a l IH]; [auto|]. destruct l as [|b l]; [auto|].
  change (removelast (a :: b :: l)) with (a :: removelast (b :: l)).
  intros Hx [Hn [Hp Hl]]. apply not_elem_of_cons in Hx as [Hxa Hx].
  split; [|split].
  - rewrite next_of_upd_next_ne by exact Hxa. exact Hn.
  - rewrite prev_of_upd_next. exact Hp.
  - apply IH; assumption.
Qed.

Lemma linked_upd_prev h l x p :
  x ∉ drop 1 l -> linked h l -> linked (upd_prev h x p) l.
Proof.
  induction l as [|a l IH]; [auto|]. destruct l as [|b l]; [auto|].
  change (drop 1 (a :: b :: l)) with (b :: l).
  intros Hx [Hn [Hp Hl]]. apply not_elem_of_cons in Hx as [Hxb Hx].
  split; [|split].
  - rewrite next_of_upd_prev. exact Hn.
  - rewrite prev_of_upd_prev_ne by exact Hxb. exact Hp.
  - apply IH; [exact Hx | exact Hl].
Qed.

Lemma linked_upd_value h l x v : linked h l -> linked (upd_value h x v) l.
Proof.
  induction l as [|a l IH]; [auto|]. destruct l as [|b l]; [auto|].
  intros [Hn [Hp Hl]]. split; [|split].
  - rewrite next_of_upd_value. exact Hn.
  - rewrite prev_of_upd_value. exact Hp.
  - apply IH, Hl.
Qed.

Lemma next_of_is_Some h x y : next_of h x = Some y -> is_Some (h !! x).
Proof. unfold next_of. destruct (h !! x); [eauto | discriminate]. Qed.

Lemma prev_of_is_Some h x y : prev_of h x = Some y -> is_Some (h !! x).
Proof. unfold prev_of. destruct (h !! x); [eauto | discriminate]. Qed.

Lemma entry_of_is_Some h x : is_Some (entry_of h x) -> is_Some (h !! x).
Proof.
  unfold entry_of, key_of. destruct (h !! x); [eauto|]. simpl.
  intros [? ?]. discriminate.
Qed.

Lemma removelast_snoc {A} (l : list A) a : removelast (l ++ [a]) = l.
Proof. apply removelast_last. Qed.

Lemma elem_of_removelast {A} (l : list A) a : a ∈ removelast l -> a ∈ l.
Proof.
  rewrite removelast_firstn_len. apply subseteq_take.
Qed.

Lemma elem_of_drop_1 {A} (l : list A) a : a ∈ drop 1 l -> a ∈ l.
Proof. apply subseteq_drop. Qed.

(** Unlinking [x] from between [a] and [b]. *)
Lemma unlink_linked h u a x b w :
  NoDup (u ++ a :: x :: b :: w) ->
  linked h (u ++ a :: x :: b :: w) ->
  prev_of h x = Some a /\ next_of h x = Some b
  /\ is_Some (h !! a) /\ is_Some (h !! b) /\ is_Some (h !! x)
  /\ linked (upd_prev (upd_next h a (Some b)) b (Some a)) (u ++ a :: b :: w).
Proof.
  intros Hnd Hl.
  apply linked_app in Hl as [Hu Hl].
  destruct Hl as [Hax [Hxa [Hxb [Hbx Hw]]]].
  apply NoDup_app in Hnd as [Hndu [Hdisj Hnd]].
  apply NoDup_cons in Hnd as [Ha Hnd].
  apply NoDup_cons in Hnd as [Hx Hnd].
  apply NoDup_cons in Hnd as [Hb Hnd].
  assert (Hab : a <> b).
  { intros ->. apply Ha. right. left. }
  split; [exact Hxa|]. split; [exact Hxb|].
  split; [eapply next_of_is_Some; exact Hax|].
  split; [eapply prev_of_is_Some; exact Hbx|].
  split; [eapply next_of_is_Some; exact Hxb|].
  apply linked_app. split.
  - apply linked_upd_prev.
    + intros Hin. apply elem_of_drop_1 in Hin.
      apply elem_of_app in Hin as [Hin|Hin].
      * apply (Hdisj b Hin). right. right. left.
      * apply list_elem_of_singleton in Hin. congruence.
    + apply linked_upd_next; [|exact Hu].
      rewrite removelast_snoc. intros Hin. apply (Hdisj a Hin). left.
  - split; [|split].
    + rewrite next_of_upd_prev. apply next_of_upd_next_eq.
      eapply next_of_is_Some. exact Hax.
    + apply prev_of_upd_prev_eq. apply is_Some_upd_next.
      eapply prev_of_is_Some. exact Hbx.
    + apply linked_upd_prev.
      * exact Hb.
      * apply linked_upd_next; [|exact Hw].
        intros Hin. apply elem_of_removelast in Hin.
        apply Ha. right. exact Hin.
Qed.

(** Linking [x] in between the head [hd] and the first object [f]. *)
Lemma link_front_linked h hd x f w :
  NoDup (hd :: x :: f :: w) ->
  linked h (hd :: f :: w) ->
  is_Some (h !! x) ->
  linked (upd_next (upd_prev (upd_prev (upd_next h x (Some f)) x (Some hd))
                             f (Some x)) hd (Some x))
         (hd :: x :: f :: w).
Proof.
  intros Hnd [Hhf [Hfh Hw]] Hx.
  apply NoDup_cons in Hnd as [Hhd Hnd].
  apply NoDup_cons in Hnd as [Hxn Hnd].
  apply NoDup_cons in Hnd as [Hf Hnd].
  assert (Hhx : hd <> x) by (intros ->; apply Hhd; left).
  assert (Hhf' : hd <> f) by (intros ->; apply Hhd; right; left).
  assert (Hxf : x <> f) by (intros ->; apply Hxn; left).
  assert (Hhd_some : is_Some (h !! hd)) by (eapply next_of_is_Some; exact Hhf).
  assert (Hf_some : is_Some (h !! f)) by (eapply prev_of_is_Some; exact Hfh).
  split; [|split; [|split; [|split]]].
  - apply next_of_upd_next_eq.
    apply is_Some_upd_prev, is_Some_upd_prev, is_Some_upd_next. exact Hhd_some.
  - rewrite prev_of_upd_next, prev_of_upd_prev_ne by (intros E; congruence).
    apply prev_of_upd_prev_eq, is_Some_upd_next. exact Hx.
  - rewrite next_of_upd_next_ne by exact Hhx.
    rewrite !next_of_upd_prev. apply next_of_upd_next_eq. exact Hx.
  - rewrite prev_of_upd_next. apply prev_of_upd_prev_eq.
    apply is_Some_upd_prev, is_Some_upd_next. exact Hf_some.
  - apply linked_upd_next.
    { intros Hin. apply elem_of_removelast in Hin.
      apply Hhd. right. exact Hin. }
    apply linked_upd_prev; [exact Hf|].
    apply linked_upd_prev.
    { intros Hin. apply elem_of_drop_1 in Hin.
      apply Hxn. exact Hin. }
    apply linked_upd_next; [|exact Hw].
    intros Hin. apply elem_of_removelast in Hin.
    apply Hxn. exact Hin.
Qed.

End Links.

Section Chain.
Context {K : Type} `{Countable K} {V : Type}.
Implicit Types (h : gmap loc (Node K V)) (s : LRUCache K V) (x y : loc).

Lemma same_frame_refl s : same_frame s s.
Proof. repeat split; auto. Qed.

Lemma same_frame_trans s1 s2 s3 :
  same_frame s1 s2 -> same_frame s2 s3 -> same_frame s1 s3.
Proof.
  intros [A1 [A2 [A3 [A4 [A5 [A6 A7]]]]]] [B1 [B2 [B3 [B4 [B5 [B6 B7]]]]]].
  split; [congruence|]. split; [congruence|]. split; [congruence|].
  split; [congruence|]. split; [|split].
  - intros y. rewrite B5. apply A5.
  - intros y. rewrite B6. apply A6.
  - intros y. rewrite B7. apply A7.
Qed.

Lemma same_frame_upd_next s x q :
  same_frame s (set_heap (upd_next (heap s) x q) s).
Proof.
  repeat split; simpl; auto using key_of_upd_next, value_of_upd_next;
    apply is_Some_upd_next.
Qed.

Lemma same_frame_upd_prev s x p :
  same_frame s (set_heap (upd_prev (heap s) x p) s).
Proof.
  repeat split; simpl; auto using key_of_upd_prev, value_of_upd_prev;
    apply is_Some_upd_prev.
Qed.

Lemma entry_of_same_frame s s' x :
  same_frame s s' -> entry_of (heap s') x = entry_of (heap s) x.
Proof.
  intros [_ [_ [_ [_ [Hk [Hv _]]]]]]. unfold entry_of. rewrite Hk, Hv.
  reflexivity.
Qed.

Lemma nonempty_snoc {A} (l : list A) :
  l <> [] -> exists u a, l = u ++ [a].
Proof.
  intros Hne. destruct (exists_last Hne) as [u [a ->]]. eauto.
Qed.

(** [_remove] on an object of the list. *)
Lemma remove_chain s l1 x l2 :
  chain s (l1 ++ x :: l2) ->
  exists s',
    _remove (Some x) s = (Val tt, s')
    /\ chain s' (l1 ++ l2) /\ same_frame s s'.
Proof.
  intros [Hnd [Hl [Hhead Hent]]].
  destruct (nonempty_snoc (head s :: l1)) as [u [a Hu]]; [discriminate|].
  assert (Hw : exists b w, l2 ++ [tail s] = b :: w).
  { destruct l2 as [|c l2]; simpl; eauto. }
  destruct Hw as [b [w Hw]].
  assert (Efull : head s :: (l1 ++ x :: l2) ++ [tail s]
                  = u ++ a :: x :: b :: w).
  { rewrite <- app_assoc. simpl. rewrite Hw.
    change (head s :: l1 ++ x :: b :: w)
      with ((head s :: l1) ++ x :: b :: w).
    rewrite Hu, <- app_assoc. reflexivity. }
  assert (Enew : head s :: (l1 ++ l2) ++ [tail s] = u ++ a :: b :: w).
  { rewrite <- app_assoc, Hw.
    change (head s :: l1 ++ b :: w) with ((head s :: l1) ++ b :: w).
    rewrite Hu, <- app_assoc. reflexivity. }
  rewrite Efull in Hnd, Hl.
  destruct (unlink_linked _ _ _ _ _ _ Hnd Hl)
    as [Hp [Hn [Ha [Hb [Hx Hl']]]]].
  eexists. split; [|split].
  - unfold _remove.
    erewrite bind_val by (apply get_prev_val; exact Hx). rewrite Hp.
    erewrite bind_val by (apply get_next_val; exact Hx). rewrite Hn.
    erewrite bind_val by (apply put_next_val; exact Ha).
    rewrite put_prev_val by (simpl; apply is_Some_upd_next; exact Hb).
    reflexivity.
  - unfold chain. cbn [heap head tail set_heap]. rewrite Enew.
    split; [|split; [exact Hl'|split]].
    + apply NoDup_app in Hnd as [Hndu [Hdisj Hnd]].
      apply NoDup_cons in Hnd as [Ha' Hnd].
      apply NoDup_cons in Hnd as [Hx' Hnd].
      apply NoDup_app. split; [exact Hndu|]. split.
      * intros y Hy Hin. apply (Hdisj y Hy).
        apply elem_of_cons in Hin as [->|Hin]; [left|].
        right. right. exact Hin.
      * apply NoDup_cons. split; [|exact Hnd].
        intros Hin. apply Ha'. right. exact Hin.
    + assert (Hhb : b <> head s).
      { intros ->.
        assert (Hin : head s ∈ u ++ [a]) by (rewrite <- Hu; left).
        apply NoDup_app in Hnd as [_ [Hdisj Hnd]].
        apply elem_of_app in Hin as [Hin|Hin].
        - apply (Hdisj _ Hin). right. right. left.
        - apply list_elem_of_singleton in Hin.
          apply NoDup_cons in Hnd as [Ha' _]. apply Ha'. rewrite <- Hin.
          right. left. }
      rewrite prev_of_upd_prev_ne by exact Hhb.
      rewrite prev_of_upd_next. exact Hhead.
    + apply Forall_app in Hent as [H1 H2].
      apply Forall_cons in H2 as [_ H2].
      apply Forall_app. split; (eapply Forall_impl; [eassumption|]);
        intros y Hy; unfold entry_of;
        rewrite key_of_upd_prev, key_of_upd_next,
          value_of_upd_prev, value_of_upd_next; exact Hy.
  - eapply same_frame_trans; [apply same_frame_upd_next|].
    apply same_frame_upd_prev.
Qed.

(** [_add_to_front] on an object that is not in the list. *)
Lemma add_to_front_chain s ls x :
  chain s ls ->
  x ∉ head s :: ls ++ [tail s] ->
  is_Some (entry_of (heap s) x) ->
  exists s',
    _add_to_front (Some x) s = (Val tt, s')
    /\ chain s' (x :: ls) /\ same_frame s s'.
Proof.
  intros [Hnd [Hl [Hhead Hent]]] Hx Hex.
  assert (Hw : exists f w, ls ++ [tail s] = f :: w).
  { destruct ls as [|c ls]; simpl; eauto. }
  destruct Hw as [f [w Hw]]. rewrite Hw in Hnd, Hl, Hx.
  pose proof (entry_of_is_Some _ _ Hex) as Hxs.
  assert (Hnd' : NoDup (head s :: x :: f :: w)).
  { apply NoDup_cons in Hnd as [Hh Hnd]. apply NoDup_cons. split.
    - intros Hin. apply elem_of_cons in Hin as [E|Hin]; [|auto].
      apply Hx. rewrite <- E. left.
    - apply NoDup_cons. split; [|exact Hnd].
      intros Hin. apply Hx. right. exact Hin. }
  pose proof (link_front_linked _ _ _ _ _ Hnd' Hl Hxs) as Hl'.
  destruct Hl as [Hhf [Hfh _]].
  assert (Hhx : x <> head s) by (intros ->; apply Hx; left).
  assert (Hfx : f <> head s).
  { intros ->. apply NoDup_cons in Hnd as [Hh _]. apply Hh. left. }
  pose proof (next_of_is_Some _ _ _ Hhf) as Hhs.
  pose proof (prev_of_is_Some _ _ _ Hfh) as Hfs.
  eexists. split; [|split].
  - unfold _add_to_front.
    erewrite bind_val by (apply get_next_val; exact Hhs). rewrite Hhf.
    erewrite bind_val by (apply put_next_val; exact Hxs).
    erewrite bind_val
      by (apply put_prev_val; simpl; apply is_Some_upd_next; exact Hxs).
    erewrite bind_val.
    2:{ apply get_next_val. simpl.
        apply is_Some_upd_prev, is_Some_upd_next. exact Hhs. }
    simpl heap.
    rewrite next_of_upd_prev, next_of_upd_next_ne, Hhf by exact Hhx.
    erewrite bind_val.
    2:{ apply put_prev_val. simpl.
        apply is_Some_upd_prev, is_Some_upd_next. exact Hfs. }
    rewrite put_next_val.
    2:{ simpl. apply is_Some_upd_prev, is_Some_upd_prev, is_Some_upd_next.
        exact Hhs. }
    reflexivity.
  - unfold chain. cbn [heap head tail set_heap].
    change (head s :: (x :: ls) ++ [tail s])
      with (head s :: x :: (ls ++ [tail s])).
    rewrite Hw.
    split; [exact Hnd'|]. split; [exact Hl'|]. split.
    + rewrite prev_of_upd_next, !prev_of_upd_prev_ne, prev_of_upd_next
        by assumption.
      exact Hhead.
    + constructor.
      * unfold entry_of.
        rewrite key_of_upd_next, !key_of_upd_prev, key_of_upd_next,
          value_of_upd_next, !value_of_upd_prev, value_of_upd_next.
        exact Hex.
      * eapply Forall_impl; [exact Hent|]. intros y Hy. unfold entry_of.
        rewrite key_of_upd_next, !key_of_upd_prev, key_of_upd_next,
          value_of_upd_next, !value_of_upd_prev, value_of_upd_next.
        exact Hy.
  - eapply same_frame_trans; [apply same_frame_upd_next|].
    eapply same_frame_trans; [apply same_frame_upd_prev|].
    eapply same_frame_trans; [apply same_frame_upd_prev|].
    apply same_frame_upd_next.
Qed.

End Chain.

Section Entries.
Context {K : Type} `{Countable K} {V : Type}.
Implicit Types (h : gmap loc (Node K V)) (s : LRUCache K V) (x y : loc).

Lemma linked_all_Some h l :
  linked h l -> 2 <= length l -> forall x, x ∈ l -> is_Some (h !! x).
Proof.
  induction l as [|a l IH]; [simpl; lia|].
  destruct l as [|b l]; [simpl; lia|].
  intros [Hn [Hp Hl]] _ x Hx.
  apply elem_of_cons in Hx as [->|Hx]; [eapply next_of_is_Some; exact Hn|].
  destruct l as [|c l].
  - apply list_elem_of_singleton in Hx as ->.
    eapply prev_of_is_Some. exact Hp.
  - apply IH; [exact Hl | simpl; lia | exact Hx].
Qed.

Lemma heap_size_ge h (l : list loc) :
  NoDup l -> (forall x, x ∈ l -> is_Some (h !! x)) -> length l <= size h.
Proof.
  intros Hnd Hall.
  rewrite <- (size_dom (D := gset loc) h).
  rewrite <- (size_list_to_set (C := gset loc) l) by exact Hnd.
  apply subseteq_size. intros x Hx.
  apply elem_of_list_to_set in Hx. apply elem_of_dom, Hall, Hx.
Qed.

Lemma entries_of_cons h x l :
  entries_of h (x :: l) =
    match entry_of h x with
    | Some kv => kv :: entries_of h l
    | None => entries_of h l
    end.
Proof. reflexivity. Qed.

Lemma entries_of_app h l1 l2 :
  entries_of h (l1 ++ l2) = entries_of h l1 ++ entries_of h l2.
Proof. apply omap_app. Qed.

Lemma walk_linked h stop :
  forall ls p fuel,
    linked h (p :: ls ++ [stop]) ->
    stop ∉ ls ->
    Forall (fun x => is_Some (entry_of h x)) ls ->
    length ls < fuel ->
    walk h stop fuel (next_of h p) = entries_of h ls.
Proof.
  induction ls as [|x ls IH]; intros p fuel Hl Hstop Hent Hfuel.
  - destruct Hl as [Hn _]. rewrite Hn.
    destruct fuel as [|fuel]; [simpl in Hfuel; lia|]. simpl.
    rewrite decide_True by reflexivity. reflexivity.
  - change (p :: (x :: ls) ++ [stop]) with (p :: x :: (ls ++ [stop])) in Hl.
    destruct Hl as [Hn [_ Hl]]. rewrite Hn.
    destruct fuel as [|fuel]; [simpl in Hfuel; lia|].
    apply not_elem_of_cons in Hstop as [Hxs Hstop].
    apply Forall_cons in Hent as [[[k v] Hx] Hent].
    rewrite entries_of_cons, Hx.
    simpl walk. rewrite decide_False by congruence.
    unfold entry_of, key_of, value_of in Hx.
    pose proof (IH x fuel Hl Hstop Hent) as IHx. unfold next_of in IHx.
    destruct (h !! x) as [n|]; [|discriminate]. simpl in Hx, IHx.
    destruct (key n) as [k'|]; [|discriminate].
    destruct (value n) as [v'|]; [|discriminate].
    injection Hx as -> ->. f_equal. apply IHx. simpl in Hfuel. lia.
Qed.

Lemma entries_chain s ls :
  chain s ls -> entries s = entries_of (heap s) ls.
Proof.
  intros [Hnd [Hl [_ Hent]]]. unfold entries.
  change (heap s !! head s ≫= next) with (next_of (heap s) (head s)).
  apply walk_linked; [exact Hl | | exact Hent |].
  - apply NoDup_cons in Hnd as [_ Hnd]. apply NoDup_app in Hnd as [_ [Hd _]].
    intros Hin. apply (Hd _ Hin). left.
  - assert (Hlen : length (head s :: ls ++ [tail s]) <= size (heap s)).
    { apply heap_size_ge; [exact Hnd|].
      apply linked_all_Some; [exact Hl|]. simpl. rewrite length_app. simpl.
      lia. }
    simpl in Hlen. rewrite length_app in Hlen. simpl in Hlen. lia.
Qed.

Lemma length_entries_of h ls :
  Forall (fun x => is_Some (entry_of h x)) ls ->
  length (entries_of h ls) = length ls.
Proof.
  induction 1 as [|x ls [kv Hx] _ IH]; [reflexivity|].
  rewrite entries_of_cons, Hx. simpl. rewrite IH. reflexivity.
Qed.

Lemma entries_of_ext h h' ls :
  (forall y, key_of h' y = key_of h y) ->
  (forall y, value_of h' y = value_of h y) ->
  entries_of h' ls = entries_of h ls.
Proof.
  intros Hk Hv. induction ls as [|x ls IH]; [reflexivity|].
  rewrite !entries_of_cons, IH. unfold entry_of. rewrite Hk, Hv. reflexivity.
Qed.

Lemma entries_of_same_frame s s' ls :
  same_frame s s' -> entries_of (heap s') ls = entries_of (heap s) ls.
Proof. intros [_ [_ [_ [_ [Hk [Hv _]]]]]]. apply entries_of_ext; assumption. Qed.

(** ** Keys in the list model *)

Lemma find_key_None k (l : list (K * V)) :
  find_key k l = None <-> forall v, (k, v) ∉ l.
Proof.
  induction l as [|[k' v'] l IH]; simpl.
  - split; [intros _ v Hin; inversion Hin | reflexivity].
  - destruct (decide (k' = k)) as [->|Hne].
    + split; [discriminate|]. intros Hn. exfalso. apply (Hn v'). left.
    + rewrite IH. split; intros Hn v Hin.
      * apply elem_of_cons in Hin as [[= ? ?]|Hin]; [congruence|].
        exact (Hn v Hin).
      * apply (Hn v). right. exact Hin.
Qed.

Lemma find_key_app_r k (l1 l2 : list (K * V)) :
  find_key k l1 = None -> find_key k (l1 ++ l2) = find_key k l2.
Proof.
  induction l1 as [|[k' v'] l1 IH]; simpl; [reflexivity|].
  destruct (decide (k' = k)); [discriminate | exact IH].
Qed.

Lemma remove_key_id k (l : list (K * V)) :
  find_key k l = None -> remove_key k l = l.
Proof.
  unfold remove_key. induction l as [|[k' v'] l IH]; simpl; [reflexivity|].
  destruct (decide (k' = k)) as [->|Hne]; [discriminate|]. intros Hn.
  rewrite filter_cons_True by exact Hne. rewrite IH by exact Hn. reflexivity.
Qed.

Lemma remove_key_app k (l1 l2 : list (K * V)) :
  remove_key k (l1 ++ l2) = remove_key k l1 ++ remove_key k l2.
Proof. apply filter_app. Qed.

Lemma remove_key_cons_eq k v (l : list (K * V)) :
  remove_key k ((k, v) :: l) = remove_key k l.
Proof. unfold remove_key. apply filter_cons_False. simpl. tauto. Qed.

End Entries.

Section Repr.
Context {K : Type} `{Countable K} {V : Type}.
Implicit Types (h : gmap loc (Node K V)) (s : LRUCache K V) (x y : loc).

Lemma entry_of_Some h x k v :
  entry_of h x = Some (k, v)
  <-> key_of h x = Some k /\ value_of h x = Some v.
Proof.
  unfold entry_of. destruct (key_of h x), (value_of h x); split;
    try (intros [? ?]); try discriminate; intros; simplify_eq; auto.
Qed.

Lemma elem_of_entries_of h ls k v :
  (k, v) ∈ entries_of h ls ->
  exists y, y ∈ ls /\ key_of h y = Some k /\ value_of h y = Some v.
Proof.
  unfold entries_of. rewrite list_elem_of_omap.
  intros [y [Hy He]]. apply entry_of_Some in He. eauto.
Qed.

Lemma find_key_no_key h ls k :
  (forall y, y ∈ ls -> key_of h y <> Some k) ->
  find_key k (entries_of h ls) = None.
Proof.
  intros Hno. apply find_key_None. intros v Hin.
  apply elem_of_entries_of in Hin as [y [Hy [Hk _]]]. exact (Hno y Hy Hk).
Qed.

Lemma entries_of_ext_in h h' ls :
  (forall y, y ∈ ls -> entry_of h' y = entry_of h y) ->
  entries_of h' ls = entries_of h ls.
Proof.
  induction ls as [|x ls IH]; intros He; [reflexivity|].
  rewrite !entries_of_cons, He by left.
  rewrite IH; [reflexivity|]. intros y Hy. apply He. right. exact Hy.
Qed.

Lemma linked_ext h h' l :
  (forall y, y ∈ l -> next_of h' y = next_of h y
                      /\ prev_of h' y = prev_of h y) ->
  linked h l -> linked h' l.
Proof.
  induction l as [|a l IH]; [auto|]. destruct l as [|b l]; [auto|].
  intros He [Hn [Hp Hl]]. split; [|split].
  - rewrite (proj1 (He a ltac:(left))). exact Hn.
  - rewrite (proj2 (He b ltac:(right; left))). exact Hp.
  - apply IH; [|exact Hl]. intros y Hy. apply He. right. exact Hy.
Qed.

Lemma indexed_same_elements s s' ls ls' :
  indexed s ls -> same_frame s s' ->
  (forall y, y ∈ ls' <-> y ∈ ls) -> length ls' = length ls ->
  indexed s' ls'.
Proof.
  intros [Hc Hsz] [_ [Ec [_ [_ [Hk _]]]]] Hel Hlen. split.
  - intros k x. rewrite Ec, Hk, Hel. apply Hc.
  - rewrite Ec, Hlen. exact Hsz.
Qed.

Lemma repr_key_unique s ls x y k :
  repr s ls -> x ∈ ls -> y ∈ ls ->
  key_of (heap s) x = Some k -> key_of (heap s) y = Some k -> x = y.
Proof.
  intros [_ [Hc _]] Hx Hy Kx Ky.
  assert (Some x = Some y) as [= ->]; [|reflexivity].
  rewrite <- (proj2 (Hc k x) (conj Hx Kx)). apply Hc. auto.
Qed.

Lemma repr_find_key_None s ls k :
  repr s ls -> cache s !! k = None ->
  find_key k (entries_of (heap s) ls) = None.
Proof.
  intros [_ [Hc _]] Hk. apply find_key_no_key. intros y Hy Ky.
  rewrite (proj2 (Hc k y) (conj Hy Ky)) in Hk. discriminate.
Qed.

(** The model view of the entry the dict gives for [k]. *)
Lemma repr_find_key_Some s l1 x l2 k :
  repr s (l1 ++ x :: l2) -> cache s !! k = Some x ->
  exists v,
    entry_of (heap s) x = Some (k, v)
    /\ find_key k (entries_of (heap s) (l1 ++ x :: l2)) = Some v
    /\ remove_key k (entries_of (heap s) (l1 ++ x :: l2))
       = entries_of (heap s) (l1 ++ l2).
Proof.
  intros Hr Hk. pose proof Hr as [[Hnd [_ [_ Hent]]] [Hc _]].
  apply Hc in Hk as [Hx Kx].
  apply Forall_app in Hent as [_ Hent]. apply Forall_cons in Hent as [[kv Hkv] _].
  destruct kv as [k' v]. pose proof Hkv as Hkv'.
  apply entry_of_Some in Hkv' as [Kx' Vx].
  assert (k' = k) as -> by congruence.
  apply NoDup_cons in Hnd as [_ Hnd]. rewrite <- app_assoc in Hnd.
  apply NoDup_app in Hnd as [_ [Hd Hnd]].
  apply NoDup_cons in Hnd as [Hx2 _].
  assert (N1 : find_key k (entries_of (heap s) l1) = None).
  { apply find_key_no_key. intros y Hy Ky.
    assert (x = y).
    { eapply repr_key_unique; eauto; apply elem_of_app; auto. }
    subst y. apply (Hd x Hy). left. }
  assert (N2 : find_key k (entries_of (heap s) l2) = None).
  { apply find_key_no_key. intros y Hy Ky.
    assert (x = y).
    { eapply repr_key_unique; eauto. apply elem_of_app. right. right.
      exact Hy. }
    subst y. apply Hx2. apply elem_of_app. left. exact Hy. }
  exists v. split; [exact Hkv|]. split.
  - rewrite entries_of_app, find_key_app_r by exact N1.
    rewrite entries_of_cons, Hkv. simpl. rewrite decide_True by reflexivity.
    reflexivity.
  - rewrite !entries_of_app, entries_of_cons, Hkv, remove_key_app.
    rewrite remove_key_cons_eq, !remove_key_id by assumption. reflexivity.
Qed.

(** [_remove(node)] followed by [_add_to_front(node)] on an indexed
    object. *)
Lemma move_to_front s ls k x :
  repr s ls -> cache s !! k = Some x ->
  exists s1 s2 ls' v,
    _remove (Some x) s = (Val tt, s1)
    /\ _add_to_front (Some x) s1 = (Val tt, s2)
    /\ repr s2 ls' /\ same_frame s s2
    /\ value_of (heap s) x = Some v
    /\ find_key k (entries_of (heap s) ls) = Some v
    /\ entries_of (heap s2) ls'
       = (k, v) :: remove_key k (entries_of (heap s) ls).
Proof.
  intros Hr Hk. pose proof Hr as [Hch [Hc Hsz]].
  pose proof (proj1 (Hc k x) Hk) as [Hx Kx].
  apply list_elem_of_split in Hx as [l1 [l2 ->]].
  destruct (repr_find_key_Some s l1 x l2 k Hr Hk) as [v [Hkv [Hf Hrm]]].
  destruct (remove_chain s l1 x l2 Hch) as [s1 [E1 [Hch1 F1]]].
  pose proof Hch as [Hnd [_ [_ Hent]]].
  pose proof F1 as [_ [_ [Eh [Et _]]]].
  destruct (add_to_front_chain s1 (l1 ++ l2) x Hch1) as [s2 [E2 [Hch2 F2]]].
  { rewrite Eh, Et. intros Hin.
    apply NoDup_cons in Hnd as [Hh Hnd]. rewrite <- app_assoc in Hnd.
    apply NoDup_app in Hnd as [_ [Hd Hnd]].
    apply NoDup_cons in Hnd as [Hx2 _].
    apply elem_of_cons in Hin as [->|Hin].
    - apply Hh. apply elem_of_app. left. apply elem_of_app. right. left.
    - rewrite <- app_assoc in Hin. apply elem_of_app in Hin as [Hin|Hin].
      + apply (Hd x Hin). left.
      + apply Hx2. exact Hin. }
  { rewrite (entry_of_same_frame s s1) by exact F1. rewrite Hkv. eauto. }
  pose proof (same_frame_trans _ _ _ F1 F2) as F.
  exists s1, s2, (x :: l1 ++ l2), v.
  split; [exact E1|]. split; [exact E2|]. split; [|split; [exact F|]].
  - split; [exact Hch2|].
    apply (indexed_same_elements s s2 (l1 ++ x :: l2)); [split; assumption
      | exact F | | ].
    + intros y. rewrite elem_of_cons, !elem_of_app, elem_of_cons. tauto.
    + simpl. rewrite !length_app. simpl. lia.
  - apply entry_of_Some in Hkv as [_ Hv].
    split; [exact Hv|]. split; [exact Hf|].
    rewrite (entries_of_same_frame s s2) by exact F.
    rewrite entries_of_cons.
    replace (entry_of (heap s) x) with (Some (k, v))
      by (symmetry; apply entry_of_Some; auto).
    rewrite Hrm. reflexivity.
Qed.

(** ** has and get *)

Lemma has_refines s ls k :
  repr s ls ->
  exists s' ls',
    has k s = (Val (bool_decide (is_Some (find_key k (entries_of (heap s) ls)))), s')
    /\ repr s' ls' /\ capacity s' = capacity s
    /\ entries_of (heap s') ls' = touch k (entries_of (heap s) ls).
Proof.
  intros Hr. unfold has, touch. destruct (cache s !! k) as [x|] eqn:Hk.
  - destruct (move_to_front s ls k x Hr Hk)
      as [s1 [s2 [ls' [v [E1 [E2 [Hr2 [F [_ [Hf He]]]]]]]]]].
    exists s2, ls'. rewrite Hf.
    erewrite bind_val by exact E1. erewrite bind_val by exact E2.
    rewrite bool_decide_eq_true_2 by eauto.
    split; [reflexivity|]. split; [exact Hr2|]. split; [apply F | exact He].
  - rewrite (repr_find_key_None s ls k Hr Hk).
    exists s, ls. rewrite bool_decide_eq_false_2 by (intros [? ?]; discriminate).
    auto.
Qed.

Lemma get_refines s ls k :
  repr s ls ->
  exists s' ls',
    get k s = (Val (find_key k (entries_of (heap s) ls)), s')
    /\ repr s' ls' /\ capacity s' = capacity s
    /\ entries_of (heap s') ls' = touch k (entries_of (heap s) ls).
Proof.
  intros Hr. unfold get, touch. destruct (cache s !! k) as [x|] eqn:Hk.
  - destruct (move_to_front s ls k x Hr Hk)
      as [s1 [s2 [ls' [v [E1 [E2 [Hr2 [F [Hv [Hf He]]]]]]]]]].
    exists s2, ls'. rewrite Hf.
    erewrite bind_val by exact E1. erewrite bind_val by exact E2.
    pose proof F as [_ [_ [_ [_ [_ [Fv Fs]]]]]].
    rewrite get_value_val.
    2:{ apply Fs. unfold value_of in Hv.
        destruct (heap s !! x); [eauto | discriminate]. }
    rewrite Fv, Hv.
    split; [reflexivity|]. split; [exact Hr2|]. split; [apply F | exact He].
  - rewrite (repr_find_key_None s ls k Hr Hk). exists s, ls. auto.
Qed.

(** ** set on a key that is present *)

Lemma entry_of_upd_value_ne h x v y :
  x <> y -> entry_of (upd_value h x v) y = entry_of h y.
Proof.
  intros Hne. unfold entry_of.
  rewrite key_of_upd_value, value_of_upd_value_ne by exact Hne. reflexivity.
Qed.

Lemma repr_upd_value s ls k x v :
  repr s ls -> cache s !! k = Some x ->
  repr (set_heap (upd_value (heap s) x (Some v)) s) ls.
Proof.
  intros [[Hnd [Hl [Hh Hent]]] [Hc Hsz]] Hk. split; [split; [|split; [|split]]|].
  - exact Hnd.
  - apply linked_upd_value, Hl.
  - cbn [heap head set_heap]. rewrite prev_of_upd_value. exact Hh.
  - cbn [heap set_heap]. eapply Forall_impl; [exact Hent|].
    intros y [[k' v'] Hy]. apply entry_of_Some in Hy as [Ky Vy].
    destruct (decide (x = y)) as [->|Hne].
    + exists (k', v). apply entry_of_Some.
      rewrite key_of_upd_value. split; [exact Ky|].
      apply value_of_upd_value_eq. unfold key_of in Ky.
      destruct (heap s !! y); [eauto | discriminate].
    + rewrite entry_of_upd_value_ne by exact Hne.
      exists (k', v'). apply entry_of_Some. auto.
  - split; [|exact Hsz]. intros k' y. cbn [heap cache set_heap].
    rewrite key_of_upd_value. apply Hc.
Qed.

Lemma remove_key_upd_value s ls k x v :
  repr s ls -> cache s !! k = Some x ->
  remove_key k (entries_of (upd_value (heap s) x (Some v)) ls)
  = remove_key k (entries_of (heap s) ls).
Proof.
  intros Hr Hk. pose proof Hr as [[Hnd [_ [_ Hent]]] [Hc _]].
  pose proof (proj1 (Hc k x) Hk) as [Hx Kx].
  apply list_elem_of_split in Hx as [l1 [l2 ->]].
  apply NoDup_cons in Hnd as [_ Hnd]. rewrite <- app_assoc in Hnd.
  apply NoDup_app in Hnd as [_ [Hd Hnd]]. apply NoDup_cons in Hnd as [Hx2 _].
  apply Forall_app in Hent as [_ Hent].
  apply Forall_cons in Hent as [[[k' v'] Hkv] _].
  pose proof Hkv as Hkv'. apply entry_of_Some in Hkv' as [Kx' Vx].
  assert (k' = k) as -> by congruence.
  assert (Hkv2 : entry_of (upd_value (heap s) x (Some v)) x = Some (k, v)).
  { apply entry_of_Some. rewrite key_of_upd_value. split; [exact Kx|].
    apply value_of_upd_value_eq. unfold key_of in Kx.
    destruct (heap s !! x); [eauto | discriminate]. }
  rewrite !entries_of_app, !entries_of_cons, Hkv, Hkv2, !remove_key_app,
    !remove_key_cons_eq.
  rewrite (entries_of_ext_in (heap s) _ l1), (entries_of_ext_in (heap s) _ l2).
  - reflexivity.
  - intros y Hy. apply entry_of_upd_value_ne. intros ->. apply Hx2.
    apply elem_of_app. left. exact Hy.
  - intros y Hy. apply entry_of_upd_value_ne. intros ->.
    apply (Hd y Hy). left.
Qed.

Lemma set_present_refines s ls k x v :
  repr s ls -> cache s !! k = Some x ->
  exists s' ls',
    set k v s = (Val tt, s')
    /\ repr s' ls' /\ capacity s' = capacity s
    /\ entries_of (heap s') ls'
       = (k, v) :: remove_key k (entries_of (heap s) ls).
Proof.
  intros Hr Hk. unfold set. rewrite Hk.
  pose proof Hr as [[_ [_ [_ Hent]]] [Hc _]].
  pose proof (proj1 (Hc k x) Hk) as [Hx Kx].
  assert (Hxs : is_Some (heap s !! x)).
  { unfold key_of in Kx. destruct (heap s !! x); [eauto | discriminate]. }
  set (s0 := set_heap (upd_value (heap s) x (Some v)) s).
  pose proof (repr_upd_value s ls k x v Hr Hk) as Hr0. fold s0 in Hr0.
  destruct (move_to_front s0 ls k x Hr0 Hk)
    as [s1 [s2 [ls' [v0 [E1 [E2 [Hr2 [F [Hv [_ He]]]]]]]]]].
  exists s2, ls'.
  erewrite bind_val by (apply put_value_val; exact Hxs). fold s0.
  erewrite bind_val by exact E1.
  split; [exact E2|]. split; [exact Hr2|]. split; [apply F|].
  rewrite He. subst s0. cbn [heap set_heap] in *.
  rewrite value_of_upd_value_eq in Hv by exact Hxs. injection Hv as <-.
  rewrite (remove_key_upd_value s ls k x v Hr Hk). reflexivity.
Qed.

(** ** set on a new key *)

Lemma chain_all_Some s ls y :
  chain s ls -> y ∈ head s :: ls ++ [tail s] -> is_Some (heap s !! y).
Proof.
  intros [_ [Hl _]] Hy. eapply linked_all_Some; [exact Hl | | exact Hy].
  simpl. rewrite length_app. simpl. lia.
Qed.

(** The part of [set] that creates the node of a new key, indexes it and
    links it in at the front. *)
Lemma insert_new s ls k v :
  repr s ls -> cache s !! k = None ->
  exists s' x,
    (new_node <- new_Node (Some k) (Some v) ;;
     (fun s' => (Val tt, set_cache (<[k := new_node]> (cache s')) s')) ;;;
     _add_to_front (Some new_node)) s = (Val tt, s')
    /\ repr s' (x :: ls) /\ capacity s' = capacity s
    /\ entries_of (heap s') (x :: ls) = (k, v) :: entries_of (heap s) ls.
Proof.
  intros Hr Hk. pose proof Hr as [Hch [Hc Hsz]].
  pose proof Hch as [Hnd [Hl [Hh Hent]]].
  set (x := fresh (dom (heap s))).
  set (n := mkNode (Some k) (Some v) None None : Node K V).
  assert (Hfresh : heap s !! x = None).
  { apply not_elem_of_dom. apply is_fresh. }
  assert (Hne : forall y, y ∈ head s :: ls ++ [tail s] -> x <> y).
  { intros y Hy ->. apply (chain_all_Some s ls y Hch) in Hy as [? Hy].
    congruence. }
  set (sb := set_cache (<[k := x]> (cache s)) (set_heap (<[x := n]> (heap s)) s)).
  assert (Hfield : forall y, x <> y ->
            next_of (heap sb) y = next_of (heap s) y
            /\ prev_of (heap sb) y = prev_of (heap s) y
            /\ key_of (heap sb) y = key_of (heap s) y
            /\ value_of (heap sb) y = value_of (heap s) y).
  { intros y Hy. subst sb. cbn [heap set_cache set_heap].
    unfold next_of, prev_of, key_of, value_of.
    rewrite lookup_insert_ne by exact Hy. auto. }
  assert (Hex : entry_of (heap sb) x = Some (k, v)).
  { subst sb. cbn [heap set_cache set_heap]. unfold entry_of, key_of, value_of.
    rewrite lookup_insert_eq. reflexivity. }
  assert (Hentb : forall y, y ∈ ls -> entry_of (heap sb) y = entry_of (heap s) y).
  { intros y Hy. unfold entry_of.
    destruct (Hfield y) as [_ [_ [-> ->]]]; [|reflexivity].
    apply Hne. right. apply elem_of_app. left. exact Hy. }
  assert (Hchb : chain sb ls).
  { split; [exact Hnd|]. split; [|split].
    - apply (linked_ext (heap s)); [|exact Hl]. intros y Hy.
      destruct (Hfield y (Hne y Hy)) as [? [? _]]. auto.
    - change (head sb) with (head s).
      destruct (Hfield (head s)) as [_ [-> _]]; [|exact Hh].
      apply Hne. left.
    - apply Forall_forall. intros y Hy. rewrite Hentb by exact Hy.
      rewrite Forall_forall in Hent. apply Hent, Hy. }
  destruct (add_to_front_chain sb ls x Hchb) as [s2 [E2 [Hch2 F2]]].
  { intros Hin. exact (Hne x Hin eq_refl). }
  { rewrite Hex. eauto. }
  assert (Hcb : cache sb = <[k := x]> (cache s)) by reflexivity.
  assert (Hkx : key_of (heap sb) x = Some k).
  { apply entry_of_Some in Hex as [Hkx _]. exact Hkx. }
  assert (Hky : forall y, y ∈ ls -> key_of (heap sb) y = key_of (heap s) y).
  { intros y Hy. apply Hfield, Hne. right. apply elem_of_app. left. exact Hy. }
  exists s2, x. split; [|split; [|split]].
  - unfold bind at 1. unfold new_Node. fold x. fold n.
    unfold bind at 1. cbn [cache set_heap]. exact E2.
  - split; [exact Hch2|].
    pose proof F2 as [_ [Ec [_ [_ [Fk _]]]]]. split.
    + intros k' y. rewrite Ec, Fk, Hcb.
      destruct (decide (k = k')) as [<-|Hkk].
      * rewrite lookup_insert_eq. split.
        -- intros [= <-]. split; [left | exact Hkx].
        -- intros [Hy Ky]. apply elem_of_cons in Hy as [->|Hy]; [reflexivity|].
           exfalso. rewrite Hky in Ky by exact Hy.
           rewrite (proj2 (Hc k y) (conj Hy Ky)) in Hk. discriminate.
      * rewrite lookup_insert_ne by exact Hkk. rewrite Hc. split.
        -- intros [Hy Ky]. split; [right; exact Hy|].
           rewrite Hky by exact Hy. exact Ky.
        -- intros [Hy Ky]. apply elem_of_cons in Hy as [->|Hy].
           ++ exfalso. congruence.
           ++ split; [exact Hy|]. rewrite <- Hky by exact Hy. exact Ky.
    + rewrite Ec, Hcb.
      rewrite map_size_insert_None by exact Hk. simpl. rewrite Hsz.
      reflexivity.
  - destruct F2 as [-> _]. reflexivity.
  - rewrite (entries_of_same_frame sb s2) by exact F2.
    rewrite entries_of_cons, Hex. f_equal.
    apply entries_of_ext_in. exact Hentb.
Qed.

(** The part of [set] that drops the least recently used entry. *)
Lemma evict s ls :
  repr s ls -> ls <> [] ->
  exists s' ls',
    (lru <- get_prev (Some (tail s)) ;;
     _remove lru ;;;
     lru_key <- get_key lru ;;
     del_cache lru_key) s = (Val tt, s')
    /\ repr s' ls' /\ capacity s' = capacity s
    /\ S (length ls') = length ls
    /\ entries_of (heap s') ls' = removelast (entries_of (heap s) ls)
    /\ (forall k, cache s !! k = None -> cache s' !! k = None).
Proof.
  intros Hr Hne. pose proof Hr as [Hch [Hc Hsz]].
  destruct (nonempty_snoc ls Hne) as [l' [z ->]].
  pose proof Hch as [Hnd [Hl [Hh Hent]]].
  assert (Hpt : prev_of (heap s) (tail s) = Some z).
  { rewrite <- app_assoc in Hl.
    change (head s :: l' ++ [z] ++ [tail s])
      with ((head s :: l') ++ z :: [tail s]) in Hl.
    apply linked_app in Hl as [_ [_ [Hp _]]]. exact Hp. }
  pose proof (prev_of_is_Some _ _ _ Hpt) as Hts.
  destruct (remove_chain s l' z [] Hch) as [s1 [E1 [Hch1 F1]]].
  rewrite app_nil_r in Hch1.
  apply Forall_app in Hent as [Hent' Hz].
  apply Forall_cons in Hz as [[[kz vz] Hz] _].
  pose proof Hz as Hz'. apply entry_of_Some in Hz' as [Kz Vz].
  pose proof F1 as [Fc [Ec [Eh [Et [Fk [Fv Fs]]]]]].
  assert (Hcz : cache s !! kz = Some z).
  { apply Hc. split; [|exact Kz]. apply elem_of_app. right. left. }
  assert (Hzl : z ∉ l').
  { apply NoDup_cons in Hnd as [_ Hnd]. rewrite <- app_assoc in Hnd.
    apply NoDup_app in Hnd as [_ [Hd _]]. intros Hin. apply (Hd z Hin). left. }
  set (s2 := set_cache (delete kz (cache s1)) s1).
  exists s2, l'. split; [|split; [|split; [|split; [|split]]]].
  - erewrite bind_val by (apply get_prev_val; exact Hts). rewrite Hpt.
    erewrite bind_val by exact E1.
    erewrite bind_val.
    2:{ apply get_key_val. apply Fs. unfold key_of in Kz.
        destruct (heap s !! z); [eauto | discriminate]. }
    rewrite Fk, Kz. unfold del_cache. rewrite Ec, Hcz. subst s2.
    rewrite Ec. reflexivity.
  - split; [exact Hch1|]. subst s2. split.
    + intros k y. cbn [cache heap set_cache]. rewrite Ec, Fk.
      destruct (decide (kz = k)) as [<-|Hkk].
      * rewrite lookup_delete_eq. split; [discriminate|].
        intros [Hy Ky]. exfalso.
        assert (z = y).
        { apply (repr_key_unique s (l' ++ [z]) z y kz Hr); auto;
            apply elem_of_app; [right; left | left; exact Hy]. }
        subst y. exact (Hzl Hy).
      * rewrite lookup_delete_ne by exact Hkk. rewrite Hc, elem_of_app.
        split; [|tauto]. intros [[Hy|Hy] Ky]; [auto|].
        apply list_elem_of_singleton in Hy as ->. congruence.
    + cbn [cache set_cache]. rewrite Ec, map_size_delete_Some by eauto.
      rewrite Hsz, length_app. simpl. lia.
  - exact Fc.
  - rewrite length_app. simpl. lia.
  - subst s2. cbn [heap set_cache].
    rewrite (entries_of_same_frame s s1) by exact F1.
    rewrite entries_of_app, entries_of_cons, Hz. simpl.
    rewrite removelast_snoc. reflexivity.
  - intros k Hk. subst s2. cbn [cache set_cache]. rewrite Ec.
    destruct (decide (kz = k)) as [<-|Hkk]; [apply lookup_delete_eq|].
    rewrite lookup_delete_ne by exact Hkk. exact Hk.
Qed.

Lemma set_new_refines s ls k v :
  repr s ls -> cache s !! k = None -> (1 <= capacity s)%Z ->
  exists s' ls',
    set k v s = (Val tt, s')
    /\ repr s' ls' /\ capacity s' = capacity s
    /\ entries_of (heap s') ls'
       = if (capacity s <=? Z.of_nat (length ls))%Z
         then (k, v) :: removelast (entries_of (heap s) ls)
         else (k, v) :: entries_of (heap s) ls.
Proof.
  intros Hr Hk Hcap. unfold set. rewrite Hk.
  pose proof Hr as [_ [_ Hsz]]. rewrite Hsz.
  destruct (capacity s <=? Z.of_nat (length ls))%Z eqn:Efull.
  - assert (Hne : ls <> []).
    { intros ->. simpl in Efull. apply Z.leb_le in Efull. lia. }
    destruct (evict s ls Hr Hne)
      as [s1 [l1 [E1 [Hr1 [C1 [_ [He1 Hk1]]]]]]].
    destruct (insert_new s1 l1 k v Hr1 (Hk1 k Hk))
      as [s2 [x [E2 [Hr2 [C2 He2]]]]].
    exists s2, (x :: l1). erewrite bind_val by exact E1.
    split; [exact E2|]. split; [exact Hr2|]. split; [congruence|].
    rewrite He2, He1. reflexivity.
  - destruct (insert_new s ls k v Hr Hk) as [s2 [x [E2 [Hr2 [C2 He2]]]]].
    exists s2, (x :: ls). erewrite bind_val by reflexivity.
    split; [exact E2|]. split; [exact Hr2|]. split; [exact C2|]. exact He2.
Qed.

(** ** Every call and every sequence of calls *)

Lemma set_refines s ls k v :
  repr s ls -> (1 <= capacity s)%Z ->
  exists s' ls',
    set k v s = (Val tt, s')
    /\ repr s' ls' /\ capacity s' = capacity s
    /\ entries_of (heap s') ls'
       = model_set (capacity s) k v (entries_of (heap s) ls).
Proof.
  intros Hr Hcap. unfold model_set.
  destruct (cache s !! k) as [x|] eqn:Hk.
  - destruct (set_present_refines s ls k x v Hr Hk)
      as [s' [ls' [E [Hr' [C He]]]]].
    exists s', ls'. split; [exact E|]. split; [exact Hr'|].
    split; [exact C|]. rewrite He.
    pose proof Hr as [_ [Hc _]].
    pose proof (proj1 (Hc k x) Hk) as [Hx _].
    apply list_elem_of_split in Hx as [l1 [l2 ->]].
    destruct (repr_find_key_Some s l1 x l2 k Hr Hk) as [v' [_ [-> _]]].
    reflexivity.
  - destruct (set_new_refines s ls k v Hr Hk Hcap)
      as [s' [ls' [E [Hr' [C He]]]]].
    exists s', ls'. split; [exact E|]. split; [exact Hr'|].
    split; [exact C|]. rewrite He.
    rewrite (repr_find_key_None s ls k Hr Hk).
    rewrite length_entries_of by apply Hr. reflexivity.
Qed.

Lemma exec_refines s ls o :
  repr s ls -> (1 <= capacity s)%Z ->
  exists s' ls',
    exec o s
    = (Val (model_exec (capacity s) o (entries_of (heap s) ls)).1, s')
    /\ repr s' ls' /\ capacity s' = capacity s
    /\ entries_of (heap s') ls'
       = (model_exec (capacity s) o (entries_of (heap s) ls)).2.
Proof.
  intros Hr Hcap. destruct o as [k|k|k v]; simpl.
  - destruct (has_refines s ls k Hr) as [s' [ls' [E [Hr' [C He]]]]].
    exists s', ls'. erewrite bind_val by exact E. auto.
  - destruct (get_refines s ls k Hr) as [s' [ls' [E [Hr' [C He]]]]].
    exists s', ls'. erewrite bind_val by exact E. auto.
  - destruct (set_refines s ls k v Hr Hcap) as [s' [ls' [E [Hr' [C He]]]]].
    exists s', ls'. erewrite bind_val by exact E. auto.
Qed.

Lemma run_refines ops :
  forall s ls,
    repr s ls -> (1 <= capacity s)%Z ->
    exists s' ls',
      run ops s
      = (Val <$> (model_run (capacity s) ops (entries_of (heap s) ls)).1, s')
      /\ repr s' ls' /\ capacity s' = capacity s
      /\ entries_of (heap s') ls'
         = (model_run (capacity s) ops (entries_of (heap s) ls)).2.
Proof.
  induction ops as [|o ops IH]; intros s ls Hr Hcap.
  - exists s, ls. auto.
  - destruct (exec_refines s ls o Hr Hcap) as [s1 [l1 [E1 [Hr1 [C1 He1]]]]].
    destruct (IH s1 l1 Hr1 ltac:(lia)) as [s2 [l2 [E2 [Hr2 [C2 He2]]]]].
    exists s2, l2. simpl. rewrite E1, E2, C1, He1.
    destruct (model_exec (capacity s) o (entries_of (heap s) ls)) as [r l'].
    simpl.
    destruct (model_run (capacity s) ops l') as [rs l''] eqn:Em. simpl.
    split; [reflexivity|]. split; [exact Hr2|]. split; [congruence|].
    rewrite He2, C1, He1. simpl. rewrite Em. reflexivity.
Qed.

Lemma repr_new limit : repr (new limit : LRUCache K V) [].
Proof.
  split; [split; [|split; [|split]]|split].
  - simpl. apply NoDup_cons. split; [|apply NoDup_singleton].
    intros Hin. apply list_elem_of_singleton in Hin. discriminate.
  - simpl. unfold next_of, prev_of.
    rewrite lookup_insert_ne, lookup_insert_eq, lookup_insert_eq by discriminate.
    auto.
  - simpl. unfold prev_of.
    rewrite lookup_insert_ne, lookup_insert_eq by discriminate. reflexivity.
  - constructor.
  - intros k x. simpl. rewrite lookup_empty. split; [discriminate|].
    intros [Hin _]. inversion Hin.
  - reflexivity.
Qed.

(** A new cache with a positive limit, after any calls: its objects
    represent some list, and all observations agree with the list model. *)
Lemma run_new limit ops :
  (1 <= limit)%Z ->
  exists s' ls',
    run ops (new limit : LRUCache K V)
    = (Val <$> (model_run limit ops []).1, s')
    /\ repr s' ls' /\ capacity s' = limit
    /\ entries s' = (model_run limit ops []).2.
Proof.
  intros Hl.
  destruct (run_refines ops (new limit) [] (repr_new limit) Hl)
    as [s' [ls' [E [Hr [C He]]]]].
  exists s', ls'. split; [exact E|]. split; [exact Hr|]. split; [exact C|].
  rewrite (entries_chain s' ls') by apply Hr. exact He.
Qed.

End Repr.

Section Model.
Context {K : Type} `{Countable K} {V : Type}.
Implicit Types (l : list (K * V)) (ops hist : list (op K V)).

Lemma find_key_Some_elem k v l : find_key k l = Some v -> (k, v) ∈ l.
Proof.
  induction l as [|[k' v'] l IH]; simpl; [discriminate|].
  destruct (decide (k' = k)) as [->|Hne].
  - intros [= ->]. left.
  - intros Hf. right. exact (IH Hf).
Qed.

Lemma find_key_None_keys k l : find_key k l = None <-> k ∉ l.*1.
Proof.
  rewrite find_key_None. split.
  - intros Hn Hin. apply list_elem_of_fmap in Hin as [[k' v] [-> Hin]].
    exact (Hn v Hin).
  - intros Hn v Hin. apply Hn. apply list_elem_of_fmap. exists (k, v). auto.
Qed.

Lemma remove_key_keys k l a : a ∈ remove_key k l -> a.1 <> k /\ a ∈ l.
Proof. unfold remove_key. intros Ha. apply list_elem_of_filter in Ha. exact Ha. Qed.

Lemma remove_key_length k v l :
  find_key k l = Some v -> S (length (remove_key k l)) <= length l.
Proof.
  intros Hf. apply find_key_Some_elem in Hf.
  apply (length_filter_lt (fun kv : K * V => kv.1 <> k)) in Hf.
  - unfold remove_key. lia.
  - simpl. tauto.
Qed.

Lemma removelast_sublist {A} (l : list A) : removelast l `sublist_of` l.
Proof. rewrite removelast_firstn_len. apply sublist_take. Qed.

Lemma removelast_length {A} (l : list A) :
  l <> [] -> S (length (removelast l)) = length l.
Proof.
  intros Hne. destruct (nonempty_snoc l Hne) as [u [a ->]].
  rewrite removelast_snoc, length_app. simpl. lia.
Qed.

(** The list model never exceeds the limit and never repeats a key. *)
Lemma model_exec_bounded limit o l :
  (1 <= limit)%Z ->
  (Z.of_nat (length l) <= limit)%Z -> NoDup (l.*1) ->
  (Z.of_nat (length (model_exec limit o l).2) <= limit)%Z
  /\ NoDup ((model_exec limit o l).2.*1).
Proof.
  intros Hl Hlen Hnd.
  assert (Hfront : forall k v v',
    find_key k l = Some v' ->
    (Z.of_nat (length ((k, v) :: remove_key k l)) <= limit)%Z
    /\ NoDup (((k, v) :: remove_key k l).*1)).
  { intros k v v' Hf. split.
    - pose proof (remove_key_length k v' l Hf). simpl. lia.
    - csimpl. apply NoDup_cons. split.
      + intros Hin. apply list_elem_of_fmap in Hin as [a [-> Ha]].
        apply remove_key_keys in Ha as [Ha _]. congruence.
      + apply (sublist_NoDup _ _ Hnd).
        apply fmap_sublist, sublist_filter. }
  destruct o as [k|k|k v]; simpl; unfold touch, model_set.
  - destruct (find_key k l) as [v'|] eqn:Hf; [eapply Hfront; exact Hf | auto].
  - destruct (find_key k l) as [v'|] eqn:Hf; [eapply Hfront; exact Hf | auto].
  - destruct (find_key k l) as [v'|] eqn:Hf; [eapply Hfront; exact Hf|].
    apply find_key_None_keys in Hf.
    destruct (limit <=? Z.of_nat (length l))%Z eqn:Efull.
    + assert (Hne : l <> []).
      { intros ->. simpl in Efull. apply Z.leb_le in Efull. lia. }
      pose proof (removelast_length l Hne). split; [simpl; lia|].
      csimpl. apply NoDup_cons. split.
      * intros Hin. apply Hf. apply (elem_of_sublist _ _ _ Hin).
        apply fmap_sublist, removelast_sublist.
      * apply (sublist_NoDup _ _ Hnd).
        apply fmap_sublist, removelast_sublist.
    + apply Z.leb_gt in Efull. split; [simpl; lia|].
      csimpl. apply NoDup_cons. auto.
Qed.

Lemma model_run_bounded limit ops :
  (1 <= limit)%Z ->
  forall l,
    (Z.of_nat (length l) <= limit)%Z -> NoDup (l.*1) ->
    (Z.of_nat (length (model_run limit ops l).2) <= limit)%Z
    /\ NoDup ((model_run limit ops l).2.*1).
Proof.
  intros Hl. induction ops as [|o ops IH]; intros l Hlen Hnd; [auto|].
  simpl. destruct (model_exec_bounded limit o l Hl Hlen Hnd) as [H1 H2].
  destruct (model_exec limit o l) as [r l']. simpl in *.
  specialize (IH l' H1 H2).
  destruct (model_run limit ops l') as [rs l'']. exact IH.
Qed.

(** ** Recency *)

Lemma last_use_from_snoc hist o k :
  forall i,
    last_use_from i (hist ++ [o]) k
    = if decide (op_key o = k) then Some (i + length hist)
      else last_use_from i hist k.
Proof.
  induction hist as [|a hist IH]; intros i; simpl.
  - rewrite Nat.add_0_r. reflexivity.
  - rewrite IH. destruct (decide (op_key o = k)); [|reflexivity].
    f_equal. lia.
Qed.

Lemma last_use_from_bound hist k :
  forall i j, last_use_from i hist k = Some j -> i <= j < i + length hist.
Proof.
  induction hist as [|a hist IH]; intros i j; simpl; [discriminate|].
  destruct (last_use_from (S i) hist k) as [j'|] eqn:E.
  - intros [= <-]. apply IH in E. lia.
  - destruct (decide (op_key a = k)); [|discriminate]. intros [= <-]. lia.
Qed.

Lemma stamp_snoc hist o k :
  stamp (hist ++ [o]) k
  = if decide (op_key o = k) then S (length hist) else stamp hist k.
Proof.
  unfold stamp, last_use. rewrite last_use_from_snoc.
  destruct (decide (op_key o = k)); reflexivity.
Qed.

Lemma stamp_le hist k : stamp hist k <= length hist.
Proof.
  unfold stamp, last_use.
  destruct (last_use_from 0 hist k) as [j|] eqn:E; [|lia].
  apply last_use_from_bound in E. lia.
Qed.

Lemma Forall_sublist {A} (P : A -> Prop) (l l' : list A) :
  l' `sublist_of` l -> Forall P l -> Forall P l'.
Proof.
  intros Hs Hl. rewrite Forall_forall in Hl. apply Forall_forall.
  intros x Hx. apply Hl. exact (elem_of_sublist _ _ _ Hx Hs).
Qed.

Lemma StronglySorted_sublist {A} (R : A -> A -> Prop) (l l' : list A) :
  l' `sublist_of` l -> StronglySorted R l -> StronglySorted R l'.
Proof.
  induction 1 as [|x l1 l2 Hs IH|x l1 l2 Hs IH]; intros Hl.
  - constructor.
  - apply StronglySorted_cons in Hl as [Hx Hl]. apply StronglySorted_cons.
    split; [|apply IH, Hl]. eapply Forall_sublist; eassumption.
  - apply StronglySorted_cons in Hl as [_ Hl]. apply IH, Hl.
Qed.

Lemma recent_same hist o l :
  recent hist l -> (forall a, a ∈ l -> a.1 <> op_key o) ->
  recent (hist ++ [o]) l.
Proof.
  intros [Hs Hp] Hk.
  assert (Hst : forall a, a ∈ l -> stamp (hist ++ [o]) a.1 = stamp hist a.1).
  { intros a Ha. rewrite stamp_snoc, decide_False; [reflexivity|].
    intros E. exact (Hk a Ha (eq_sym E)). }
  split.
  - clear Hp. induction Hs as [|a l Hs IH Ha]; [constructor|].
    constructor.
    + apply IH; intros b Hb; [apply Hk | apply Hst]; right; exact Hb.
    + rewrite Forall_forall in Ha. apply Forall_forall. intros b Hb.
      rewrite (Hst a) by left. rewrite (Hst b) by (right; exact Hb).
      apply Ha, Hb.
  - rewrite Forall_forall in Hp. apply Forall_forall. intros a Ha.
    rewrite Hst by exact Ha. apply Hp, Ha.
Qed.

Lemma recent_front hist o l l' v :
  recent hist l -> l' `sublist_of` l ->
  (forall a, a ∈ l' -> a.1 <> op_key o) ->
  recent (hist ++ [o]) ((op_key o, v) :: l').
Proof.
  intros [Hs Hp] Hsub Hk.
  assert (Hr : recent hist l').
  { split; [eapply StronglySorted_sublist; eassumption|].
    eapply Forall_sublist; eassumption. }
  destruct (recent_same hist o l' Hr Hk) as [Hs' Hp'].
  assert (Hfront : stamp (hist ++ [o]) (op_key o) = S (length hist)).
  { rewrite stamp_snoc, decide_True by reflexivity. reflexivity. }
  split.
  - constructor; [exact Hs'|]. apply Forall_forall. intros a Ha. simpl.
    rewrite Hfront, stamp_snoc, decide_False.
    + pose proof (stamp_le hist a.1). lia.
    + intros E. exact (Hk a Ha (eq_sym E)).
  - constructor; [simpl; lia | exact Hp'].
Qed.

Lemma model_exec_recent limit hist o l :
  recent hist l -> recent (hist ++ [o]) (model_exec limit o l).2.
Proof.
  intros Hr.
  assert (Hhit : forall k v, op_key o = k ->
            recent (hist ++ [o]) ((k, v) :: remove_key k l)).
  { intros k v <-. apply (recent_front hist o l); [exact Hr | |].
    - apply sublist_filter.
    - intros a Ha. apply remove_key_keys in Ha. tauto. }
  assert (Hmiss : forall k, op_key o = k -> find_key k l = None ->
            forall a, a ∈ l -> a.1 <> op_key o).
  { intros k <- Hf a Ha E. apply find_key_None_keys in Hf. apply Hf.
    rewrite <- E. apply list_elem_of_fmap. eauto. }
  destruct o as [k|k|k v]; simpl; unfold touch, model_set.
  - destruct (find_key k l) as [v'|] eqn:Hf; [apply Hhit; reflexivity|].
    apply recent_same; [exact Hr|]. eapply Hmiss; [reflexivity | exact Hf].
  - destruct (find_key k l) as [v'|] eqn:Hf; [apply Hhit; reflexivity|].
    apply recent_same; [exact Hr|]. eapply Hmiss; [reflexivity | exact Hf].
  - destruct (find_key k l) as [v'|] eqn:Hf; [apply Hhit; reflexivity|].
    pose proof (Hmiss k eq_refl Hf) as Hk.
    destruct (limit <=? Z.of_nat (length l))%Z.
    + apply (recent_front hist (Put k v) l); [exact Hr | |].
      * apply removelast_sublist.
      * intros a Ha. apply Hk. apply (elem_of_sublist _ _ _ Ha).
        apply removelast_sublist.
    + apply (recent_front hist (Put k v) l); [exact Hr | reflexivity|].
      exact Hk.
Qed.

Lemma model_run_recent limit ops :
  forall hist l,
    recent hist l -> recent (hist ++ ops) (model_run limit ops l).2.
Proof.
  induction ops as [|o ops IH]; intros hist l Hr.
  - rewrite app_nil_r. exact Hr.
  - simpl. pose proof (model_exec_recent limit hist o l Hr) as Hr1.
    destruct (model_exec limit o l) as [r l']. simpl in Hr1.
    specialize (IH (hist ++ [o]) l' Hr1). rewrite <- app_assoc in IH.
    destruct (model_run limit ops l') as [rs l'']. exact IH.
Qed.

End Model.

Section Facts.
Context {K : Type} `{Countable K} {V : Type}.
Implicit Types (s : LRUCache K V) (ops : list (op K V)).

Lemma recent_nil : recent (K := K) (V := V) [] [].
Proof. split; constructor. Qed.

(** What is known of a cache with a positive limit after any calls. *)
Lemma reached limit ops :
  (1 <= limit)%Z ->
  let s := (run ops (new limit : LRUCache K V)).2 in
  exists ls,
    repr s ls /\ capacity s = limit
    /\ entries s = entries_of (heap s) ls
    /\ entries s = (model_run limit ops []).2.
Proof.
  intros Hl. destruct (run_new limit ops Hl) as [s' [ls [E [Hr [C He]]]]].
  rewrite E. simpl. exists ls. split; [exact Hr|]. split; [exact C|].
  split; [apply entries_chain, Hr | exact He].
Qed.

Lemma repr_cache_of_find_key s ls k v :
  repr s ls -> find_key k (entries_of (heap s) ls) = Some v ->
  exists x, cache s !! k = Some x.
Proof.
  intros Hr Hf. apply find_key_Some_elem, elem_of_entries_of in Hf
    as [y [Hy [Ky _]]].
  exists y. apply Hr. auto.
Qed.

Lemma repr_cache_None_of_find_key s ls k :
  repr s ls -> find_key k (entries_of (heap s) ls) = None ->
  cache s !! k = None.
Proof.
  intros Hr Hf. destruct (cache s !! k) as [x|] eqn:Hk; [|reflexivity].
  pose proof (proj1 (proj1 (proj2 Hr) k x) Hk) as [Hx _].
  apply list_elem_of_split in Hx as [l1 [l2 ->]].
  destruct (repr_find_key_Some s l1 x l2 k Hr Hk) as [v [_ [Hf' _]]].
  congruence.
Qed.

(** For a limit of at least one, a sequence of calls on a new cache raises
    nothing, returns what the list model returns, and leaves the linked
    list holding the model's list. *)
Theorem lru_refines_model (limit : Z) ops :
  (1 <= limit)%Z ->
  (run ops (new limit : LRUCache K V)).1 = Val <$> (model_run limit ops []).1
  /\ entries (run ops (new limit : LRUCache K V)).2
     = (model_run limit ops []).2.
Proof.
  intros Hl. destruct (run_new limit ops Hl) as [s' [ls [E [_ [_ He]]]]].
  rewrite E. auto.
Qed.

(** For a limit of at least one, the dict never holds more than
    [item_limit] keys, and the linked list holds as many entries as the
    dict. *)
Theorem lru_size_bound (limit : Z) ops :
  (1 <= limit)%Z ->
  let s := (run ops (new limit : LRUCache K V)).2 in
  (Z.of_nat (size (cache s)) <= limit)%Z
  /\ length (entries s) = size (cache s).
Proof.
  intros Hl s. destruct (reached limit ops Hl) as [ls [Hr [_ [He Hm]]]].
  fold s in Hr, He, Hm.
  assert (Hlen : length (entries s) = size (cache s)).
  { rewrite He, length_entries_of by apply Hr. symmetry. apply Hr. }
  split; [|exact Hlen]. rewrite <- Hlen, Hm.
  apply model_run_bounded; [exact Hl | simpl; lia | constructor].
Qed.

(** For a limit of at least one, [set(k, v)] followed by [get(k)] returns
    [v]. *)
Theorem lru_get_after_set (limit : Z) ops k v :
  (1 <= limit)%Z ->
  let s := (run ops (new limit : LRUCache K V)).2 in
  exists s1 s2,
    set k v s = (Val tt, s1) /\ get k s1 = (Val (Some v), s2).
Proof.
  intros Hl s. destruct (reached limit ops Hl) as [ls [Hr [C _]]].
  fold s in Hr, C.
  destruct (set_refines s ls k v Hr ltac:(lia)) as [s1 [l1 [E1 [Hr1 [_ He1]]]]].
  destruct (get_refines s1 l1 k Hr1) as [s2 [l2 [E2 _]]].
  exists s1, s2. split; [exact E1|]. rewrite E2, He1. f_equal. f_equal.
  unfold model_set.
  destruct (find_key k (entries_of (heap s) ls));
    [|destruct (capacity s <=? _)%Z]; simpl;
    rewrite decide_True by reflexivity; reflexivity.
Qed.

(** For a limit of at least one, the keys of the linked list are distinct
    and are exactly the keys of the dict. *)
Theorem lru_index_agrees (limit : Z) ops :
  (1 <= limit)%Z ->
  let s := (run ops (new limit : LRUCache K V)).2 in
  NoDup ((entries s).*1)
  /\ forall k, k ∈ (entries s).*1 <-> is_Some (cache s !! k).
Proof.
  intros Hl s. destruct (reached limit ops Hl) as [ls [Hr [_ [He Hm]]]].
  fold s in Hr, He, Hm. split.
  - rewrite Hm. apply model_run_bounded; [exact Hl | simpl; lia | constructor].
  - intros k. rewrite He. split.
    + intros Hin. apply list_elem_of_fmap in Hin as [[k' v] [-> Hin]].
      apply elem_of_entries_of in Hin as [y [Hy [Ky _]]].
      exists y. apply Hr. auto.
    + intros [x Hk]. apply Hr in Hk as [Hx Kx].
      pose proof Hr as [[_ [_ [_ Hent]]] _].
      rewrite Forall_forall in Hent. destruct (Hent x Hx) as [[k' v] Hkv].
      pose proof Hkv as Hkv'. apply entry_of_Some in Hkv' as [Kx' _].
      assert (k' = k) as -> by congruence.
      apply list_elem_of_fmap. exists (k, v). split; [reflexivity|].
      unfold entries_of. apply list_elem_of_omap. eauto.
Qed.

(** For a limit of at least one, the entries are in the order of their
    last use by [has], [get] or [set], the latest first. *)
Theorem lru_recency_order (limit : Z) ops :
  (1 <= limit)%Z ->
  recent ops (entries (run ops (new limit : LRUCache K V)).2).
Proof.
  intros Hl. destruct (reached limit ops Hl) as [ls [_ [_ [_ Hm]]]].
  rewrite Hm. apply (model_run_recent limit ops [] []). apply recent_nil.
Qed.

(** For a limit of at least one, [set] on a key that is not present puts
    the new entry in front, after dropping the last entry (the least
    recently used) when the cache holds [item_limit] entries. *)
Theorem lru_set_new_key (limit : Z) ops k v :
  (1 <= limit)%Z ->
  let s := (run ops (new limit : LRUCache K V)).2 in
  find_key k (entries s) = None ->
  exists s',
    set k v s = (Val tt, s')
    /\ entries s' = if (limit <=? Z.of_nat (length (entries s)))%Z
                    then (k, v) :: removelast (entries s)
                    else (k, v) :: entries s.
Proof.
  intros Hl s Hf. destruct (reached limit ops Hl) as [ls [Hr [C [He _]]]].
  fold s in Hr, C, He. rewrite He in Hf.
  pose proof (repr_cache_None_of_find_key s ls k Hr Hf) as Hk.
  destruct (set_new_refines s ls k v Hr Hk ltac:(lia))
    as [s' [l' [E [Hr' [_ He']]]]].
  exists s'. split; [exact E|].
  rewrite (entries_chain s' l') by apply Hr'.
  rewrite He', He, C, length_entries_of by apply Hr. reflexivity.
Qed.

(** For a limit of at least one, [has] and [get] on a key that is present
    move its entry to the front and leave the other entries as they are;
    on a key that is not present they return [False] and [None] and
    change nothing. *)
Theorem lru_lookup (limit : Z) ops k :
  (1 <= limit)%Z ->
  let s := (run ops (new limit : LRUCache K V)).2 in
  match find_key k (entries s) with
  | Some v =>
      exists s1 s2,
        has k s = (Val true, s1) /\ get k s = (Val (Some v), s2)
        /\ entries s1 = (k, v) :: remove_key k (entries s)
        /\ entries s2 = (k, v) :: remove_key k (entries s)
  | None => has k s = (Val false, s) /\ get k s = (Val None, s)
  end.
Proof.
  intros Hl s. destruct (reached limit ops Hl) as [ls [Hr [_ [He _]]]].
  fold s in Hr, He. rewrite He.
  destruct (find_key k (entries_of (heap s) ls)) as [v|] eqn:Hf.
  - destruct (has_refines s ls k Hr) as [s1 [l1 [E1 [Hr1 [_ He1]]]]].
    destruct (get_refines s ls k Hr) as [s2 [l2 [E2 [Hr2 [_ He2]]]]].
    exists s1, s2. rewrite E1, E2, Hf.
    rewrite bool_decide_eq_true_2 by eauto.
    rewrite (entries_chain s1 l1), (entries_chain s2 l2) by
      (apply Hr1 || apply Hr2).
    rewrite He1, He2. unfold touch. rewrite Hf. auto.
  - pose proof (repr_cache_None_of_find_key s ls k Hr Hf) as Hk.
    unfold has, get. rewrite Hk. auto.
Qed.

(** For a limit of at least one, [set] on a key that is present replaces
    its value, moves its entry to the front and leaves the other entries
    as they are. *)
Theorem lru_set_present_key (limit : Z) ops k v v0 :
  (1 <= limit)%Z ->
  let s := (run ops (new limit : LRUCache K V)).2 in
  find_key k (entries s) = Some v0 ->
  exists s',
    set k v s = (Val tt, s')
    /\ entries s' = (k, v) :: remove_key k (entries s).
Proof.
  intros Hl s Hf. destruct (reached limit ops Hl) as [ls [Hr [_ [He _]]]].
  fold s in Hr, He. rewrite He in Hf.
  destruct (repr_cache_of_find_key s ls k v0 Hr Hf) as [x Hk].
  destruct (set_present_refines s ls k x v Hr Hk) as [s' [l' [E [Hr' [_ He']]]]].
  exists s'. split; [exact E|].
  rewrite (entries_chain s' l') by apply Hr'. rewrite He', He. reflexivity.
Qed.

(** With a limit of zero or less, [set] on a new cache raises
    [AttributeError] before it changes anything, so the cache stays as it
    was created whatever is called. *)
Theorem lru_nonpositive_limit (limit : Z) ops k v :
  (limit <= 0)%Z ->
  set k v (new limit : LRUCache K V) = (Exn AttributeError, new limit)
  /\ (run ops (new limit : LRUCache K V)).2 = new limit.
Proof.
  intros Hl.
  assert (Hset : forall k v,
            set k v (new limit : LRUCache K V)
            = (Exn AttributeError, new limit)).
  { intros k' v'. unfold set. simpl cache. rewrite lookup_empty.
    rewrite map_size_empty. change (capacity (new limit)) with limit.
    replace (limit <=? Z.of_nat 0)%Z with true
      by (symmetry; apply Z.leb_le; simpl; lia).
    reflexivity. }
  split; [apply Hset|].
  induction ops as [|o ops IH]; [reflexivity|].
  simpl.
  assert (Hexec : (exec o (new limit : LRUCache K V)).2 = new limit).
  { destruct o as [k'|k'|k' v']; simpl.
    - unfold bind, has. simpl cache. rewrite lookup_empty. reflexivity.
    - unfold bind, get. simpl cache. rewrite lookup_empty. reflexivity.
    - unfold bind. rewrite Hset. reflexivity. }
  destruct (exec o (new limit)) as [r s1]. simpl in Hexec. subst s1.
  destruct (run ops (new limit)) as [rs s2]. exact IH.
Qed.

End Facts.

Lemma lru_refines_model_witness :
  (run [Put 1 10; Put 2 20; Get 1; Put 3 30; Has 2] (new 2 : LRUCache nat nat)).1
  = Val <$> (model_run 2 [Put 1 10; Put 2 20; Get 1; Put 3 30; Has 2] []).1
  /\ entries (run [Put 1 10; Put 2 20; Get 1; Put 3 30; Has 2]
                  (new 2 : LRUCache nat nat)).2
     = (model_run 2 [Put 1 10; Put 2 20; Get 1; Put 3 30; Has 2] []).2.
Proof. apply lru_refines_model. lia. Defined.

Lemma lru_size_bound_witness :
  (Z.of_nat (size (cache (run [Put 1 10; Put 2 20; Put 3 30]%nat
                              (new 2 : LRUCache nat nat)).2)) <= 2)%Z
  /\ length (entries (run [Put 1 10; Put 2 20; Put 3 30]
                          (new 2 : LRUCache nat nat)).2)
     = size (cache (run [Put 1 10; Put 2 20; Put 3 30]
                        (new 2 : LRUCache nat nat)).2).
Proof.
  apply (lru_size_bound 2 [Put 1 10; Put 2 20; Put 3 30]). lia.
Defined.

Lemma lru_get_after_set_witness :
  exists s1 s2,
    set 3 30 (run [Put 1 10; Put 2 20] (new 2 : LRUCache nat nat)).2
    = (Val tt, s1)
    /\ get 3 s1 = (Val (Some 30), s2).
Proof.
  apply (lru_get_after_set 2 [Put 1 10; Put 2 20] 3 30). lia.
Defined.

Lemma lru_index_agrees_witness :
  NoDup ((entries (run [Put 1 10; Put 2 20; Put 1 11]
                       (new 2 : LRUCache nat nat)).2).*1)
  /\ forall k,
       k ∈ (entries (run [Put 1 10; Put 2 20; Put 1 11]
                         (new 2 : LRUCache nat nat)).2).*1
       <-> is_Some (cache (run [Put 1 10; Put 2 20; Put 1 11]
                               (new 2 : LRUCache nat nat)).2 !! k).
Proof.
  apply (lru_index_agrees 2 [Put 1 10; Put 2 20; Put 1 11]). lia.
Defined.

Lemma lru_recency_order_witness :
  recent [Put 1 10; Put 2 20; Get 1]
         (entries (run [Put 1 10; Put 2 20; Get 1]
                       (new 2 : LRUCache nat nat)).2).
Proof. apply lru_recency_order. lia. Defined.

Lemma lru_set_new_key_witness :
  exists s',
    set 3 30 (run [Put 1 10; Put 2 20; Get 1] (new 2 : LRUCache nat nat)).2
    = (Val tt, s')
    /\ entries s'
       = if (2 <=? Z.of_nat (length (entries
                 (run [Put 1 10; Put 2 20; Get 1]%nat
                      (new 2 : LRUCache nat nat)).2)))%Z
         then (3, 30) :: removelast (entries
                 (run [Put 1 10; Put 2 20; Get 1]
                      (new 2 : LRUCache nat nat)).2)
         else (3, 30) :: entries
                 (run [Put 1 10; Put 2 20; Get 1]
                      (new 2 : LRUCache nat nat)).2.
Proof.
  apply (lru_set_new_key 2 [Put 1 10; Put 2 20; Get 1] 3 30).
  - lia.
  - vm_compute. reflexivity.
Defined.

Lemma lru_lookup_witness :
  match find_key 1 (entries (run [Put 1 10; Put 2 20]
                                 (new 2 : LRUCache nat nat)).2) with
  | Some v =>
      exists s1 s2,
        has 1 (run [Put 1 10; Put 2 20] (new 2 : LRUCache nat nat)).2
        = (Val true, s1)
        /\ get 1 (run [Put 1 10; Put 2 20] (new 2 : LRUCache nat nat)).2
           = (Val (Some v), s2)
        /\ entries s1
           = (1, v) :: remove_key 1
               (entries (run [Put 1 10; Put 2 20]
                             (new 2 : LRUCache nat nat)).2)
        /\ entries s2
           = (1, v) :: remove_key 1
               (entries (run [Put 1 10; Put 2 20]
                             (new 2 : LRUCache nat nat)).2)
  | None =>
      has 1 (run [Put 1 10; Put 2 20] (new 2 : LRUCache nat nat)).2
      = (Val false, (run [Put 1 10; Put 2 20] (new 2 : LRUCache nat nat)).2)
      /\ get 1 (run [Put 1 10; Put 2 20] (new 2 : LRUCache nat nat)).2
         = (Val None, (run [Put 1 10; Put 2 20] (new 2 : LRUCache nat nat)).2)
  end.
Proof. apply (lru_lookup 2 [Put 1 10; Put 2 20] 1). lia. Defined.

Lemma lru_set_present_key_witness :
  exists s',
    set 1 11 (run [Put 1 10; Put 2 20] (new 2 : LRUCache nat nat)).2
    = (Val tt, s')
    /\ entries s'
       = (1, 11) :: remove_key 1
           (entries (run [Put 1 10; Put 2 20] (new 2 : LRUCache nat nat)).2).
Proof.
  apply (lru_set_present_key 2 [Put 1 10; Put 2 20] 1 11 10).
  - lia.
  - vm_compute. reflexivity.
Defined.

Lemma lru_nonpositive_limit_witness :
  set 1 10 (new 0 : LRUCache nat nat) = (Exn AttributeError, new 0)
  /\ (run [Put 1 10; Get 1; Has 1] (new 0 : LRUCache nat nat)).2 = new 0.
Proof. apply lru_nonpositive_limit. lia. Defined.

End LRUFacts.
